(** * MiniLang compiler front end: lexer, parser, semantic analyzer, TAC generator

    A shallow embedding of [src/lexer.py], [src/ast_nodes.py],
    [src/parser.py], [src/semantic.py] and [src/tac.py], followed by the
    properties of the specification that are settled on it.

    Conventions of the embedding.
    - A Python [str] is a [string]; a character is a code point below 256
      (the Latin-1 range), classified as Python's [str.isdigit],
      [str.isalpha], [str.isalnum] and [str.isspace] classify it.
    - A raised [Exception] is [Err msg] with the exception's message; every
      function that can raise returns a [result]. An [int] is a [Z], and
      [int()] converts a text of at most 4300 digits, the limit CPython
      3.11 starts with: a longer one raises a [ValueError].
    - Recursive-descent functions and [while] loops that consume tokens
      take a [fuel] argument bounding their depth; [OutOfFuel] is not an
      outcome of the program, only of a too small budget.
    - The depth of the interpreter's call stack is not bounded here. On a
      source nested so deeply that CPython raises a [RecursionError] in
      [Parser.factor], [SemanticAnalyzer.analyze], [TACGenerator.generate]
      or the printing of a statement, the functions below give what the
      unbounded recursion gives. What is proved of the parser, the
      analyzer, the generator and [compile] beyond their equations is
      therefore stated on the results they give, or as what a failure of
      theirs cannot be; no property says that a run on an arbitrary
      source ends without a [RecursionError].
    - Python's [float] type, the conversion [float(text)] of a decimal
      numeral and the formatting of a float inside an f-string are not
      code of this repository: they are the parameters [pyfloat],
      [float_of_numeral] and [str_of_float] of the development. *)

From Stdlib Require Import ZArith Ascii String List Lia.
From stdpp Require Import base strings gmap list pretty.

#[local] Set Warnings "-register-all".

(** ** Outcomes *)

Inductive result (A : Type) : Type :=
  | Ok (a : A)
  | Err (msg : string)
  | OutOfFuel.
Arguments Ok {A} a.
Arguments Err {A} msg.
Arguments OutOfFuel {A}.

#[global] Instance result_ret : MRet result := @Ok.

#[global] Instance result_bind : MBind result := λ A B k r,
  match r with
  | Ok a => k a
  | Err msg => Err msg
  | OutOfFuel => OutOfFuel
  end.

(** ** Python built-ins used by the sources *)

(** [ord(c)] *)
Definition ord (c : ascii) : nat := nat_of_ascii c.

Definition between (lo hi : nat) (c : ascii) : bool :=
  (lo <=? ord c)%nat && (ord c <=? hi)%nat.

(** The decimal digits [0]..[9]. *)
Definition isdecimal (c : ascii) : bool := between 48 57 c.

(** [str.isdigit]: the decimal digits and the superscripts 2, 3 and 1. *)
Definition isdigit (c : ascii) : bool :=
  between 48 57 c || between 178 179 c || (ord c =? 185)%nat.

(** [str.isalpha] *)
Definition isalpha (c : ascii) : bool :=
  between 65 90 c || between 97 122 c || (ord c =? 170)%nat
  || (ord c =? 181)%nat || (ord c =? 186)%nat || between 192 214 c
  || between 216 246 c || between 248 255 c.

(** [str.isalnum] *)
Definition isalnum (c : ascii) : bool :=
  isalpha c || isdigit c || between 188 190 c.

(** [str.isspace] *)
Definition isspace (c : ascii) : bool :=
  between 9 13 c || between 28 32 c || (ord c =? 133)%nat
  || (ord c =? 160)%nat.

Definition lower_char (c : ascii) : ascii :=
  if between 65 90 c then ascii_of_nat (ord c + 32)
  else if between 192 222 c && negb (ord c =? 215)%nat
       then ascii_of_nat (ord c + 32)
  else c.

(** [str.lower] *)
Fixpoint lower (s : string) : string :=
  match s with
  | EmptyString => EmptyString
  | String c s' => String (lower_char c) (lower s')
  end.

Definition upper_char (c : ascii) : ascii :=
  if between 97 122 c then ascii_of_nat (ord c - 32)
  else if between 224 254 c && negb (ord c =? 247)%nat
       then ascii_of_nat (ord c - 32)
  else c.

(** [str.upper], on text whose upper-case form stays below code point 256
    (all ASCII text does; of the Latin-1 letters only the sharp s, the
    micro sign and the y with diaeresis do not, and are left as they are). *)
Fixpoint upper (s : string) : string :=
  match s with
  | EmptyString => EmptyString
  | String c s' => String (upper_char c) (upper s')
  end.

Fixpoint string_forallb (p : ascii → bool) (s : string) : bool :=
  match s with
  | EmptyString => true
  | String c s' => p c && string_forallb p s'
  end.

Fixpoint string_existsb (p : ascii → bool) (s : string) : bool :=
  match s with
  | EmptyString => false
  | String c s' => p c || string_existsb p s'
  end.

Definition digit_value (c : ascii) : Z := Z.of_nat (ord c - 48).

Fixpoint digits_value (acc : Z) (s : string) : Z :=
  match s with
  | EmptyString => acc
  | String c s' => digits_value (10 * acc + digit_value c) s'
  end.

Definition str_of_nat (n : nat) : string := pretty n.
Definition str_of_Z (z : Z) : string := pretty z.
Definition str_of_bool (b : bool) : string := if b then "True" else "False".

(** The number of decimal digits that [text] starts with. *)
Fixpoint leading_decimals (text : string) : nat :=
  match text with
  | EmptyString => 0
  | String c s' => if isdecimal c then S (leading_decimals s') else 0
  end.

(** [sys.get_int_max_str_digits()], as the interpreter starts. *)
Definition int_max_str_digits : nat := 4300.

(** [int(text)] for the texts [Lexer.number] builds (characters accepted
    by [isdigit]). The conversion first counts the decimal digits at the
    front of the text and raises a [ValueError] when there are more than
    the interpreter's limit, before it looks at what follows them; then
    it gives the value of a non-empty run of decimal digits, and raises a
    [ValueError] for any other text. *)
Definition py_int (text : string) : result Z :=
  if (int_max_str_digits <? leading_decimals text)%nat then
    Err ("Exceeds the limit (4300 digits) for integer string conversion: value has "
         +:+ str_of_nat (leading_decimals text)
         +:+ " digits; use sys.set_int_max_str_digits() to increase the limit")
  else
    match text with
    | EmptyString => Err ("invalid literal for int() with base 10: '" +:+ text +:+ "'")
    | _ =>
        if string_forallb isdecimal text then Ok (digits_value 0 text)
        else Err ("invalid literal for int() with base 10: '" +:+ text +:+ "'")
    end.

Definition is_dot (c : ascii) : bool := (ord c =? 46)%nat.

Fixpoint count_dots (s : string) : nat :=
  match s with
  | EmptyString => 0
  | String c s' => (if is_dot c then 1 else 0) + count_dots s'
  end.

(** The texts [float()] accepts among those [Lexer.number] builds (the
    characters accepted by [isdigit], and dots): decimal digits with at
    most one dot, and at least one decimal digit. *)
Definition float_numeral_ok (text : string) : bool :=
  string_forallb (fun c => isdecimal c || is_dot c) text
  && string_existsb isdecimal text
  && (count_dots text <=? 1)%nat.

Definition newline : ascii := ascii_of_nat 10.
Definition nl : string := String newline EmptyString.

(** ** lexer.py *)

Inductive TokenType : Type :=
  | PROGRAM | VAR | BEGIN | END | IF | THEN | ELSE | WHILE | DO | READ | WRITE
  | INTEGER | REAL | BOOLEAN | AND | OR | NOT
  | ID | NUMBER | BOOLEAN_LIT
  | ASSIGN | EQ | NEQ | LT | GT | LTE | GTE | PLUS | MINUS | MULT | DIV
  | LPAREN | RPAREN | SEMI | COLON | COMMA | DOT
  | EOF.

#[global] Instance TokenType_eq_dec : EqDecision TokenType.
Proof. solve_decision. Defined.

(** The string each [TokenType] attribute holds. *)
Definition type_name_of (t : TokenType) : string :=
  match t with
  | PROGRAM => "PROGRAM" | VAR => "VAR" | BEGIN => "BEGIN" | END => "END"
  | IF => "IF" | THEN => "THEN" | ELSE => "ELSE" | WHILE => "WHILE"
  | DO => "DO" | READ => "READ" | WRITE => "WRITE" | INTEGER => "INTEGER"
  | REAL => "REAL" | BOOLEAN => "BOOLEAN" | AND => "AND" | OR => "OR"
  | NOT => "NOT" | ID => "ID" | NUMBER => "NUMBER"
  | BOOLEAN_LIT => "BOOLEAN_LIT" | ASSIGN => "ASSIGN" | EQ => "EQ"
  | NEQ => "NEQ" | LT => "LT" | GT => "GT" | LTE => "LTE" | GTE => "GTE"
  | PLUS => "PLUS" | MINUS => "MINUS" | MULT => "MULT" | DIV => "DIV"
  | LPAREN => "LPAREN" | RPAREN => "RPAREN" | SEMI => "SEMI"
  | COLON => "COLON" | COMMA => "COMMA" | DOT => "DOT" | EOF => "EOF"
  end.

Definition type_in (t : TokenType) (ts : list TokenType) : bool :=
  bool_decide (t ∈ ts).

(** [Lexer.keywords] *)
Definition keywords : list (string * TokenType) :=
  [ ("program", PROGRAM); ("var", VAR); ("begin", BEGIN); ("end", END);
    ("if", IF); ("then", THEN); ("else", ELSE); ("while", WHILE);
    ("do", DO); ("read", READ); ("write", WRITE); ("integer", INTEGER);
    ("real", REAL); ("boolean", BOOLEAN); ("and", AND); ("or", OR);
    ("not", NOT); ("true", BOOLEAN_LIT); ("false", BOOLEAN_LIT) ].

Fixpoint dict_get {V : Type} (d : list (string * V)) (k : string) (default : V) : V :=
  match d with
  | [] => default
  | (k', v) :: d' => if String.eqb k' k then v else dict_get d' k default
  end.

(** The single character tokens of [get_next_token]. *)
Definition token_types : list (string * TokenType) :=
  [ ("+", PLUS); ("-", MINUS); ("*", MULT); ("/", DIV); ("=", EQ);
    ("(", LPAREN); (")", RPAREN); (";", SEMI); (",", COMMA); (".", DOT) ].

Fixpoint dict_find {V : Type} (d : list (string * V)) (k : string) : option V :=
  match d with
  | [] => None
  | (k', v) :: d' => if String.eqb k' k then Some v else dict_find d' k
  end.

Section MiniLang.

#[local] Set Default Proof Using "Type".

(** Python's float type with its two conversions (see the header). *)
Variable pyfloat : Type.
Variable float_of_numeral : string → pyfloat.
Variable str_of_float : pyfloat → string.

(** [float(text)] *)
Definition py_float (text : string) : result pyfloat :=
  if float_numeral_ok text then Ok (float_of_numeral text)
  else Err ("could not convert string to float: '" +:+ text +:+ "'").

(** What a token's [value] attribute holds: the text of an identifier,
    keyword or operator, an [int], a [float], or [None] at end of input. *)
Inductive pyvalue : Type :=
  | VStr (s : string)
  | VInt (n : Z)
  | VFloat (f : pyfloat)
  | VNone.

(** [str(value)], as an f-string formats it. *)
Definition str_of_value (v : pyvalue) : string :=
  match v with
  | VStr s => s
  | VInt n => str_of_Z n
  | VFloat f => str_of_float f
  | VNone => "None"
  end.

Record Token : Type := mkToken {
  tok_type : TokenType;
  tok_value : pyvalue;
  tok_line : nat;
  tok_column : nat
}.

(** [Token.__str__] *)
Definition Token_str (t : Token) : string :=
  "Token(" +:+ type_name_of (tok_type t) +:+ ", '" +:+ str_of_value (tok_value t)
  +:+ "', line=" +:+ str_of_nat (tok_line t) +:+ ", col="
  +:+ str_of_nat (tok_column t) +:+ ")".

(** The scanner's cursor. [lx_rest] is [text[pos:]]: [current_char] is its
    first character, or [None] once [pos >= len(text)]. *)
Record Lexer : Type := mkLexer {
  lx_rest : string;
  lx_line : nat;
  lx_column : nat
}.

(** [Lexer.__init__] *)
Definition Lexer_init (text : string) : Lexer :=
  {| lx_rest := text; lx_line := 1; lx_column := 1 |}.

Definition current_char (lx : Lexer) : option ascii :=
  match lx_rest lx with
  | EmptyString => None
  | String c _ => Some c
  end.

Definition Lexer_error {A : Type} (lx : Lexer) (message : string) : result A :=
  Err ("Lexical error at line " +:+ str_of_nat (lx_line lx) +:+ ", column "
       +:+ str_of_nat (lx_column lx) +:+ ": " +:+ message).

Definition advance (lx : Lexer) : Lexer :=
  let '(line, column) :=
    match current_char lx with
    | Some c => if Ascii.eqb c newline then (lx_line lx + 1, 0) else (lx_line lx, lx_column lx)
    | None => (lx_line lx, lx_column lx)
    end in
  {| lx_rest := match lx_rest lx with EmptyString => EmptyString | String _ r => r end;
     lx_line := line;
     lx_column := column + 1 |}.

(** [while self.current_char is not None and cond(self.current_char):
       result += self.current_char; self.advance()]
    The loop runs at most [len(text) - pos] times, which is the budget
    its callers pass. *)
Fixpoint advance_while (cond : ascii → bool) (n : nat) (result : string) (lx : Lexer)
  : string * Lexer :=
  match n with
  | O => (result, lx)
  | S n' =>
      match current_char lx with
      | Some c =>
          if cond c
          then advance_while cond n' (result +:+ String c EmptyString) (advance lx)
          else (result, lx)
      | None => (result, lx)
      end
  end.

Definition remaining (lx : Lexer) : nat := String.length (lx_rest lx).

Definition skip_whitespace (lx : Lexer) : Lexer :=
  snd (advance_while isspace (remaining lx) "" lx).

Definition skip_comment (lx : Lexer) : Lexer :=
  advance (snd (advance_while (fun c => negb (Ascii.eqb c newline)) (remaining lx) "" lx)).

Definition number (lx : Lexer) : result (Token * Lexer) :=
  let '(result, lx1) := advance_while isdigit (remaining lx) "" lx in
  match current_char lx1 with
  | Some c =>
      if is_dot c then
        let result := result +:+ String c EmptyString in
        let lx2 := advance lx1 in
        let '(result, lx3) := advance_while isdigit (remaining lx2) result lx2 in
        f ← py_float result ;
        Ok (mkToken NUMBER (VFloat f) (lx_line lx3) (lx_column lx3), lx3)
      else
        n ← py_int result ;
        Ok (mkToken NUMBER (VInt n) (lx_line lx1) (lx_column lx1), lx1)
  | None =>
      n ← py_int result ;
      Ok (mkToken NUMBER (VInt n) (lx_line lx1) (lx_column lx1), lx1)
  end.

Definition is_underscore (c : ascii) : bool := (ord c =? 95)%nat.

Definition identifier (lx : Lexer) : Token * Lexer :=
  let '(result, lx1) :=
    advance_while (fun c => isalnum c || is_underscore c) (remaining lx) "" lx in
  let token_type := dict_get keywords (lower result) ID in
  (mkToken token_type (VStr result) (lx_line lx1) (lx_column lx1), lx1).

Definition tok_here (ty : TokenType) (text : string) (lx : Lexer) : result (Token * Lexer) :=
  Ok (mkToken ty (VStr text) (lx_line lx) (lx_column lx), lx).

Definition char_is (lx : Lexer) (c : string) : bool :=
  match current_char lx with
  | Some c' => String.eqb (String c' EmptyString) c
  | None => false
  end.

(** The body of [get_next_token]; [n] bounds the passes of its outer
    [while], each of which either returns or consumes a character. *)
Fixpoint get_next_token_loop (n : nat) (lx : Lexer) : result (Token * Lexer) :=
  match n with
  | O => OutOfFuel
  | S n' =>
      match current_char lx with
      | None => Ok (mkToken EOF VNone (lx_line lx) (lx_column lx), lx)
      | Some c =>
          if isspace c then get_next_token_loop n' (skip_whitespace lx)
          else if char_is lx "{" then get_next_token_loop n' (skip_comment lx)
          else if isalpha c || is_underscore c then Ok (identifier lx)
          else if isdigit c then number lx
          else if char_is lx ":" then
            let lx := advance lx in
            if char_is lx "=" then tok_here ASSIGN ":=" (advance lx)
            else tok_here COLON ":" lx
          else if char_is lx "<" then
            let lx := advance lx in
            if char_is lx "=" then tok_here LTE "<=" (advance lx)
            else if char_is lx ">" then tok_here NEQ "<>" (advance lx)
            else tok_here LT "<" lx
          else if char_is lx ">" then
            let lx := advance lx in
            if char_is lx "=" then tok_here GTE ">=" (advance lx)
            else tok_here GT ">" lx
          else
            let char := String c EmptyString in
            match dict_find token_types char with
            | Some ty => tok_here ty char (advance lx)
            | None => Lexer_error lx ("Unexpected character: '" +:+ char +:+ "'")
            end
      end
  end.

Definition get_next_token (lx : Lexer) : result (Token * Lexer) :=
  get_next_token_loop (S (remaining lx)) lx.

(** ** ast_nodes.py

    The node classes, as the closed variant the parser builds: expression
    nodes, statement nodes (a branch or a body is a Python list of
    statement nodes), declarations and the program root. The operator of
    a [BinOpNode] or [UnaryOpNode] is the operator's [Token]. *)

Inductive expr : Type :=
  | BinOpNode (left : expr) (op : Token) (right : expr)
  | UnaryOpNode (op : Token) (e : expr)
  | VarNode (var_name : string)
  | NumNode (value : pyvalue)
  | BooleanNode (value : bool).

Inductive stmt : Type :=
  | AssignmentNode (var_name : string) (expression : expr)
  | IfNode (condition : expr) (then_branch else_branch : list stmt)
  | WhileNode (condition : expr) (body : list stmt)
  | ReadNode (var_name : string)
  | WriteNode (expression : expr).

Record TypeNode : Type := mkTypeNode { type_name : string }.

Record DeclarationNode : Type := mkDeclarationNode {
  identifiers : list string;
  type_node : TypeNode
}.

Record ProgramNode : Type := mkProgramNode {
  prog_name : string;
  prog_declarations : list DeclarationNode;
  prog_statements : list stmt
}.

(** ** parser.py: SymbolTable *)

Record Symbol : Type := mkSymbol {
  sym_type : string;
  sym_initialized : bool;
  sym_line_declared : nat
}.

(** [symbols] is the dict; [st_current_token] is the attribute
    [Parser.__init__] attaches to the table (the first token of the
    source) and nothing updates afterwards. *)
Record SymbolTable : Type := mkSymbolTable {
  symbols : gmap string Symbol;
  st_current_token : Token
}.

Definition is_declared (name : string) (st : SymbolTable) : bool :=
  bool_decide (is_Some (symbols st !! name)).

Definition declare (name type_name : string) (st : SymbolTable) : result SymbolTable :=
  if is_declared name st then
    Err ("Semantic error: Variable '" +:+ name +:+ "' already declared at line "
         +:+ str_of_nat (tok_line (st_current_token st)))
  else
    Ok {| symbols :=
            <[name := {| sym_type := type_name;
                         sym_initialized := false;
                         sym_line_declared := tok_line (st_current_token st) |}]>
            (symbols st);
          st_current_token := st_current_token st |}.

Definition get_type (name : string) (st : SymbolTable) : option string :=
  if is_declared name st then sym_type <$> (symbols st !! name) else None.

Definition set_initialized (name : string) (st : SymbolTable) : SymbolTable :=
  if is_declared name st then
    {| symbols :=
         alter (fun s => {| sym_type := sym_type s;
                            sym_initialized := true;
                            sym_line_declared := sym_line_declared s |})
               name (symbols st);
       st_current_token := st_current_token st |}
  else st.

(** ** parser.py: Parser *)

Record Parser : Type := mkParser {
  lexer : Lexer;
  current_token : Token;
  symbol_table : SymbolTable
}.

(** [Parser.__init__] *)
Definition Parser_init (lx : Lexer) : result Parser :=
  '(tok, lx') ← get_next_token lx;
  Ok {| lexer := lx';
        current_token := tok;
        symbol_table := {| symbols := ∅; st_current_token := tok |} |}.

Definition Parser_error {A : Type} (p : Parser) (message : string) : result A :=
  Err ("Syntax error at line " +:+ str_of_nat (tok_line (current_token p)) +:+ ": "
       +:+ message +:+ nl +:+ "Current token: " +:+ Token_str (current_token p)).

Definition eat (token_type : TokenType) (p : Parser) : result Parser :=
  if bool_decide (tok_type (current_token p) = token_type) then
    '(tok, lx') ← get_next_token (lexer p);
    Ok {| lexer := lx'; current_token := tok; symbol_table := symbol_table p |}
  else
    let expected := type_name_of token_type in
    let found := type_name_of (tok_type (current_token p)) in
    let line := tok_line (current_token p) in
    Parser_error p ("Expected '" +:+ expected +:+ "', but found '" +:+ found
                    +:+ "' at line " +:+ str_of_nat line).

Definition peek (token_type : TokenType) (p : Parser) : bool :=
  bool_decide (tok_type (current_token p) = token_type).

(** [sep.join(items)] *)
Fixpoint join (sep : string) (items : list string) : string :=
  match items with
  | [] => ""
  | [x] => x
  | x :: rest => x +:+ sep +:+ join sep rest
  end.

Definition expect_in (expected_types : list TokenType) (context : string) (p : Parser)
  : result unit :=
  if negb (type_in (tok_type (current_token p)) expected_types) then
    let expected_str := join "', '" (type_name_of <$> expected_types) in
    let context_msg := if String.eqb context "" then "" else " in " +:+ context in
    Parser_error p ("Expected one of ['" +:+ expected_str +:+ "']" +:+ context_msg)
  else Ok tt.

Definition with_symbol_table (p : Parser) (st : SymbolTable) : Parser :=
  {| lexer := lexer p; current_token := current_token p; symbol_table := st |}.

Definition not_declared_error {A : Type} (line : nat) (var_name : string) : result A :=
  Err ("Semantic error at line " +:+ str_of_nat line +:+ ": "
       +:+ "Variable '" +:+ var_name +:+ "' not declared").

(** The text of an identifier token. The lexer gives every [ID] token a
    [str] value, which this returns unchanged. *)
Definition value_text (t : Token) : string := str_of_value (tok_value t).

(** *** Expressions *)

Definition rel_ops : list TokenType := [EQ; NEQ; LT; GT; LTE; GTE].
Definition add_ops : list TokenType := [PLUS; MINUS; OR].
Definition mul_ops : list TokenType := [MULT; DIV; AND].

Fixpoint expression (fuel : nat) (p : Parser) {struct fuel} : result (expr * Parser) :=
  match fuel with
  | O => OutOfFuel
  | S fuel =>
      '(left_, p) ← simple_expr fuel p;
      expression_rest fuel left_ p
  end

with expression_rest (fuel : nat) (left_ : expr) (p : Parser) {struct fuel}
  : result (expr * Parser) :=
  match fuel with
  | O => OutOfFuel
  | S fuel =>
      if type_in (tok_type (current_token p)) rel_ops then
        let op := current_token p in
        p ← eat (tok_type (current_token p)) p;
        '(right_, p) ← simple_expr fuel p;
        Ok (BinOpNode left_ op right_, p)
      else Ok (left_, p)
  end

with simple_expr (fuel : nat) (p : Parser) {struct fuel} : result (expr * Parser) :=
  match fuel with
  | O => OutOfFuel
  | S fuel =>
      '(left_, p) ← term fuel p;
      simple_expr_rest fuel left_ p
  end

with simple_expr_rest (fuel : nat) (left_ : expr) (p : Parser) {struct fuel}
  : result (expr * Parser) :=
  match fuel with
  | O => OutOfFuel
  | S fuel =>
      if type_in (tok_type (current_token p)) add_ops then
        let op := current_token p in
        p ← eat (tok_type (current_token p)) p;
        '(right_, p) ← term fuel p;
        simple_expr_rest fuel (BinOpNode left_ op right_) p
      else Ok (left_, p)
  end

with term (fuel : nat) (p : Parser) {struct fuel} : result (expr * Parser) :=
  match fuel with
  | O => OutOfFuel
  | S fuel =>
      '(left_, p) ← factor fuel p;
      term_rest fuel left_ p
  end

with term_rest (fuel : nat) (left_ : expr) (p : Parser) {struct fuel}
  : result (expr * Parser) :=
  match fuel with
  | O => OutOfFuel
  | S fuel =>
      if type_in (tok_type (current_token p)) mul_ops then
        let op := current_token p in
        p ← eat (tok_type (current_token p)) p;
        '(right_, p) ← factor fuel p;
        term_rest fuel (BinOpNode left_ op right_) p
      else Ok (left_, p)
  end

with factor (fuel : nat) (p : Parser) {struct fuel} : result (expr * Parser) :=
  match fuel with
  | O => OutOfFuel
  | S fuel =>
      let token := current_token p in
      if peek ID p then
        let var_name := value_text token in
        if negb (is_declared var_name (symbol_table p)) then
          not_declared_error (tok_line token) var_name
        else
          p ← eat ID p;
          Ok (VarNode var_name, p)
      else if peek NUMBER p then
        let value := tok_value token in
        p ← eat NUMBER p;
        Ok (NumNode value, p)
      else if peek LPAREN p then
        p ← eat LPAREN p;
        '(node, p) ← expression fuel p;
        p ← eat RPAREN p;
        Ok (node, p)
      else if peek NOT p then
        p ← eat NOT p;
        '(node, p) ← factor fuel p;
        Ok (UnaryOpNode token node, p)
      else if peek BOOLEAN_LIT p then
        let value := String.eqb (lower (value_text token)) "true" in
        p ← eat BOOLEAN_LIT p;
        Ok (BooleanNode value, p)
      else
        Parser_error p ("Expected factor (identifier, number, or expression), "
                        +:+ "but found '" +:+ type_name_of (tok_type token) +:+ "'")
  end.

(** *** Statements *)

Definition assignment (fuel : nat) (p : Parser) : result (stmt * Parser) :=
  let var_name := value_text (current_token p) in
  let line := tok_line (current_token p) in
  p ← eat ID p;
  p ← eat ASSIGN p;
  '(expr, p) ← expression fuel p;
  if negb (is_declared var_name (symbol_table p)) then
    not_declared_error line var_name
  else
    let p := with_symbol_table p (set_initialized var_name (symbol_table p)) in
    Ok (AssignmentNode var_name expr, p).

Definition read_stmt (p : Parser) : result (stmt * Parser) :=
  p ← eat READ p;
  p ← eat LPAREN p;
  let var_name := value_text (current_token p) in
  let line := tok_line (current_token p) in
  p ← eat ID p;
  p ← eat RPAREN p;
  if negb (is_declared var_name (symbol_table p)) then
    not_declared_error line var_name
  else
    let p := with_symbol_table p (set_initialized var_name (symbol_table p)) in
    Ok (ReadNode var_name, p).

Definition write_stmt (fuel : nat) (p : Parser) : result (stmt * Parser) :=
  p ← eat WRITE p;
  p ← eat LPAREN p;
  '(expr, p) ← expression fuel p;
  p ← eat RPAREN p;
  Ok (WriteNode expr, p).

Definition statement_starts : list TokenType := [ID; IF; WHILE; READ; WRITE].

(** [stop_tokens=None] is the default argument of [statements]. *)
Definition stop_tokens_or_default (stop_tokens : option (list TokenType)) : list TokenType :=
  match stop_tokens with
  | None => [END; ELSE]
  | Some ts => ts
  end.

Fixpoint statements (fuel : nat) (stop_tokens : option (list TokenType)) (p : Parser)
  {struct fuel} : result (list stmt * Parser) :=
  match fuel with
  | O => OutOfFuel
  | S fuel => statements_loop fuel (stop_tokens_or_default stop_tokens) [] p
  end

(** The [while] loop of [statements]; [acc] is the list built so far. *)
with statements_loop (fuel : nat) (stop_tokens : list TokenType) (acc : list stmt)
  (p : Parser) {struct fuel} : result (list stmt * Parser) :=
  match fuel with
  | O => OutOfFuel
  | S fuel =>
      if negb (type_in (tok_type (current_token p)) (stop_tokens ++ [EOF])) then
        '(s, p) ← statement fuel p;
        let acc := acc ++ [s] in
        if peek SEMI p then
          p ← eat SEMI p;
          if type_in (tok_type (current_token p)) stop_tokens then Ok (acc, p)
          else statements_loop fuel stop_tokens acc p
        else
          if type_in (tok_type (current_token p)) stop_tokens then Ok (acc, p)
          else statements_loop fuel stop_tokens acc p
      else Ok (acc, p)
  end

with statement (fuel : nat) (p : Parser) {struct fuel} : result (stmt * Parser) :=
  match fuel with
  | O => OutOfFuel
  | S fuel =>
      _ ← expect_in statement_starts "statement" p;
      if peek ID p then assignment fuel p
      else if peek IF p then if_stmt fuel p
      else if peek WHILE p then while_stmt fuel p
      else if peek READ p then read_stmt p
      else if peek WRITE p then write_stmt fuel p
      else (* not reached: [expect_in] has accepted one of the five *)
        Parser_error p "Expected one of ['ID', 'IF', 'WHILE', 'READ', 'WRITE'] in statement"
  end

with block (fuel : nat) (p : Parser) {struct fuel} : result (list stmt * Parser) :=
  match fuel with
  | O => OutOfFuel
  | S fuel =>
      p ← eat BEGIN p;
      '(stmts, p) ← statements fuel (Some [END]) p;
      p ← eat END p;
      Ok (stmts, p)
  end

with if_stmt (fuel : nat) (p : Parser) {struct fuel} : result (stmt * Parser) :=
  match fuel with
  | O => OutOfFuel
  | S fuel =>
      p ← eat IF p;
      '(condition, p) ← expression fuel p;
      p ← eat THEN p;
      '(then_branch, p) ←
        (if peek BEGIN p then block fuel p
         else '(s, p) ← statement fuel p; Ok ([s], p));
      if peek ELSE p then
        p ← eat ELSE p;
        '(else_branch, p) ←
          (if peek BEGIN p then block fuel p
           else '(s, p) ← statement fuel p; Ok ([s], p));
        Ok (IfNode condition then_branch else_branch, p)
      else Ok (IfNode condition then_branch [], p)
  end

with while_stmt (fuel : nat) (p : Parser) {struct fuel} : result (stmt * Parser) :=
  match fuel with
  | O => OutOfFuel
  | S fuel =>
      p ← eat WHILE p;
      '(condition, p) ← expression fuel p;
      p ← eat DO p;
      '(body, p) ←
        (if peek BEGIN p then block fuel p
         else '(s, p) ← statement fuel p; Ok ([s], p));
      Ok (WhileNode condition body, p)
  end.

(** *** Declarations *)

Definition type (p : Parser) : result (TypeNode * Parser) :=
  _ ← expect_in [INTEGER; REAL; BOOLEAN] "type specification" p;
  if peek INTEGER p then p ← eat INTEGER p; Ok (mkTypeNode "integer", p)
  else if peek REAL p then p ← eat REAL p; Ok (mkTypeNode "real", p)
  else if peek BOOLEAN p then p ← eat BOOLEAN p; Ok (mkTypeNode "boolean", p)
  else (* not reached: [expect_in] has accepted one of the three *)
    Parser_error p "Expected one of ['INTEGER', 'REAL', 'BOOLEAN'] in type specification".

(** The [while] loop of [id_list]. *)
Fixpoint id_list_loop (fuel : nat) (ids : list string) (p : Parser)
  : result (list string * Parser) :=
  match fuel with
  | O => OutOfFuel
  | S fuel =>
      if peek COMMA p then
        p ← eat COMMA p;
        let ids := ids ++ [value_text (current_token p)] in
        p ← eat ID p;
        id_list_loop fuel ids p
      else Ok (ids, p)
  end.

Definition id_list (fuel : nat) (p : Parser) : result (list string * Parser) :=
  let ids := [value_text (current_token p)] in
  p ← eat ID p;
  id_list_loop fuel ids p.

(** [for id_name in ids: self.symbol_table.declare(id_name, type_name)] *)
Fixpoint declare_each (ids : list string) (type_name : string) (st : SymbolTable)
  : result SymbolTable :=
  match ids with
  | [] => Ok st
  | id_name :: ids =>
      st ← declare id_name type_name st;
      declare_each ids type_name st
  end.

Definition declaration (fuel : nat) (p : Parser) : result (DeclarationNode * Parser) :=
  '(ids, p) ← id_list fuel p;
  p ← eat COLON p;
  '(type_node, p) ← type p;
  st ← declare_each ids (type_name type_node) (symbol_table p);
  Ok (mkDeclarationNode ids type_node, with_symbol_table p st).

(** The [while] loop of [declaration_list]. *)
Fixpoint declaration_list_loop (fuel : nat) (decls : list DeclarationNode) (p : Parser)
  : result (list DeclarationNode * Parser) :=
  match fuel with
  | O => OutOfFuel
  | S fuel =>
      if peek SEMI p then
        p ← eat SEMI p;
        if peek BEGIN p then Ok (decls, p)
        else
          '(d, p) ← declaration fuel p;
          declaration_list_loop fuel (decls ++ [d]) p
      else Ok (decls, p)
  end.

Definition declaration_list (fuel : nat) (p : Parser)
  : result (list DeclarationNode * Parser) :=
  '(d, p) ← declaration fuel p;
  declaration_list_loop fuel [d] p.

Definition declarations (fuel : nat) (p : Parser)
  : result (list DeclarationNode * Parser) :=
  if peek VAR p then
    p ← eat VAR p;
    declaration_list fuel p
  else Ok ([], p).

Definition program (fuel : nat) (p : Parser) : result (ProgramNode * Parser) :=
  p ← eat PROGRAM p;
  let program_name := value_text (current_token p) in
  p ← eat ID p;
  p ← eat SEMI p;
  '(decls, p) ← declarations fuel p;
  p ← eat BEGIN p;
  '(stmts, p) ← statements fuel None p;
  p ← eat END p;
  p ← eat DOT p;
  if negb (peek EOF p) then Parser_error p "Unexpected tokens after program end"
  else Ok (mkProgramNode program_name decls stmts, p).

(** [Parser.parse]: run [program], re-raising a failure with a prefix. *)
Definition parse (fuel : nat) (p : Parser) : result ProgramNode :=
  match program fuel p with
  | Ok (ast, _) => Ok ast
  | Err e => Err ("Parsing failed: " +:+ e)
  | OutOfFuel => OutOfFuel
  end.

(** [Parser(Lexer(source)).parse()] *)
Definition parse_source (fuel : nat) (source : string) : result ProgramNode :=
  p ← Parser_init (Lexer_init source);
  parse fuel p.

(** ** semantic.py *)

Definition in_list (x : string) (l : list string) : bool := bool_decide (x ∈ l).

(** [op in ops], for the [value] of an operator token: only a [str]
    compares equal to one of the operator texts. *)
Definition value_in (v : pyvalue) (ops : list string) : bool :=
  match v with
  | VStr s => in_list s ops
  | _ => false
  end.

Definition arithmetic_ops : list string := ["+"; "-"; "*"; "/"].
Definition relational_ops : list string := ["="; "<>"; "<"; ">"; "<="; ">="].
Definition logical_ops : list string := ["and"; "or"].
Definition numeric_types : list string := ["integer"; "real"].

Definition incompatible_types_error {A : Type} (left_type : string) (op : pyvalue)
  (right_type : string) : result A :=
  Err ("Type error: Incompatible types " +:+ left_type +:+ " and " +:+ right_type
       +:+ " for operator " +:+ str_of_value op).

(** [TypeChecker.check_binary_operation] *)
Definition check_binary_operation (left_type : string) (op : pyvalue) (right_type : string)
  : result string :=
  if value_in op arithmetic_ops then
    if in_list left_type numeric_types && in_list right_type numeric_types then
      Ok (if in_list "real" [left_type; right_type] then "real" else "integer")
    else incompatible_types_error left_type op right_type
  else if value_in op relational_ops then
    if String.eqb left_type right_type
       || (in_list left_type numeric_types && in_list right_type numeric_types) then
      Ok "boolean"
    else incompatible_types_error left_type op right_type
  else if value_in op logical_ops then
    if String.eqb left_type "boolean" && String.eqb right_type "boolean" then
      Ok "boolean"
    else incompatible_types_error left_type op right_type
  else incompatible_types_error left_type op right_type.

(** [TypeChecker.check_unary_operation] *)
Definition check_unary_operation (op : pyvalue) (expr_type : string) : result string :=
  if value_in op ["not"] && String.eqb expr_type "boolean" then Ok "boolean"
  else Err ("Type error: Operator '" +:+ str_of_value op
            +:+ "' cannot be applied to type " +:+ expr_type).

Definition sem_not_declared {A : Type} (var_name : string) : result A :=
  Err ("Semantic error: Variable '" +:+ var_name +:+ "' not declared").

(** [analyze_num]: [isinstance(node.value, int)] *)
Definition analyze_num (value : pyvalue) : string :=
  match value with
  | VInt _ => "integer"
  | _ => "real"
  end.

(** [analyze_var] *)
Definition analyze_var (var_name : string) (symbol_table : gmap string string)
  : result string :=
  match symbol_table !! var_name with
  | None => sem_not_declared var_name
  | Some ty => Ok ty
  end.

(** [SemanticAnalyzer.analyze] on the expression nodes ([analyze_binop],
    [analyze_unaryop], [analyze_var], [analyze_num], [analyze_boolean]). *)
Fixpoint analyze_expr (node : expr) (symbol_table : gmap string string) : result string :=
  match node with
  | BinOpNode left_ op right_ =>
      left_type ← analyze_expr left_ symbol_table;
      right_type ← analyze_expr right_ symbol_table;
      check_binary_operation left_type (tok_value op) right_type
  | UnaryOpNode op e =>
      expr_type ← analyze_expr e symbol_table;
      check_unary_operation (tok_value op) expr_type
  | VarNode var_name => analyze_var var_name symbol_table
  | NumNode value => Ok (analyze_num value)
  | BooleanNode _ => Ok "boolean"
  end.

(** The type test of [analyze_assignment], once the declared type of the
    target and the type of the expression are known. *)
Definition check_assignment (var_name var_type expr_type : string) : result unit :=
  if negb (String.eqb var_type expr_type)
     && negb (in_list var_type numeric_types && in_list expr_type numeric_types) then
    Err ("Type error: Cannot assign " +:+ expr_type +:+ " to " +:+ var_type
         +:+ " variable '" +:+ var_name +:+ "'")
  else Ok tt.

(** [SemanticAnalyzer.analyze] on the statement nodes ([analyze_assignment],
    [analyze_if], [analyze_while], and the [ReadNode] and [WriteNode]
    branches). Statements leave the symbol table unchanged. *)
Fixpoint analyze_stmt (node : stmt) (symbol_table : gmap string string) : result unit :=
  let fix analyze_each (stmts : list stmt) : result unit :=
    match stmts with
    | [] => Ok tt
    | s :: stmts => _ ← analyze_stmt s symbol_table; analyze_each stmts
    end in
  match node with
  | AssignmentNode var_name expression =>
      match symbol_table !! var_name with
      | None => sem_not_declared var_name
      | Some var_type =>
          expr_type ← analyze_expr expression symbol_table;
          check_assignment var_name var_type expr_type
      end
  | IfNode condition then_branch else_branch =>
      condition_type ← analyze_expr condition symbol_table;
      if negb (String.eqb condition_type "boolean") then
        Err ("Type error: If condition must be boolean, got " +:+ condition_type)
      else
        _ ← analyze_each then_branch;
        analyze_each else_branch
  | WhileNode condition body =>
      condition_type ← analyze_expr condition symbol_table;
      if negb (String.eqb condition_type "boolean") then
        Err ("Type error: While condition must be boolean, got " +:+ condition_type)
      else analyze_each body
  | ReadNode var_name =>
      match symbol_table !! var_name with
      | None => sem_not_declared var_name
      | Some _ => Ok tt
      end
  | WriteNode expression =>
      _ ← analyze_expr expression symbol_table; Ok tt
  end.

(** [for stmt in stmts: self.analyze(stmt)] *)
Fixpoint analyze_stmts (stmts : list stmt) (symbol_table : gmap string string)
  : result unit :=
  match stmts with
  | [] => Ok tt
  | s :: stmts => _ ← analyze_stmt s symbol_table; analyze_stmts stmts symbol_table
  end.

(** [analyze_declaration] *)
Definition analyze_declaration (node : DeclarationNode) (symbol_table : gmap string string)
  : gmap string string :=
  foldl (fun table identifier => <[identifier := type_name (type_node node)]> table)
        symbol_table (identifiers node).

(** [analyze_program]; the result is the analyzer's symbol table. *)
Definition analyze_program (node : ProgramNode) (symbol_table : gmap string string)
  : result (gmap string string) :=
  let symbol_table :=
    foldl (fun table decl => analyze_declaration decl table)
          symbol_table (prog_declarations node) in
  _ ← analyze_stmts (prog_statements node) symbol_table;
  Ok symbol_table.

(** [SemanticAnalyzer().analyze(program_node)] *)
Definition analyze (node : ProgramNode) : result (gmap string string) :=
  analyze_program node ∅.

(** ** tac.py *)

Record TACGenerator : Type := mkTACGenerator {
  temp_count : nat;
  label_count : nat;
  code : list string
}.

(** [TACGenerator.__init__] *)
Definition TACGenerator_init : TACGenerator :=
  {| temp_count := 0; label_count := 0; code := [] |}.

Definition new_temp (g : TACGenerator) : string * TACGenerator :=
  ("t" +:+ str_of_nat (temp_count g),
   {| temp_count := temp_count g + 1; label_count := label_count g; code := code g |}).

Definition new_label (g : TACGenerator) : string * TACGenerator :=
  ("L" +:+ str_of_nat (label_count g),
   {| temp_count := temp_count g; label_count := label_count g + 1; code := code g |}).

(** [self.code.append(instruction)] *)
Definition emit (instruction : string) (g : TACGenerator) : TACGenerator :=
  {| temp_count := temp_count g; label_count := label_count g;
     code := code g ++ [instruction] |}.

Definition op_map : list (string * string) :=
  [ ("+", "ADD"); ("-", "SUB"); ("*", "MUL"); ("/", "DIV");
    ("=", "EQ"); ("<>", "NE"); ("<", "LT"); (">", "GT"); ("<=", "LE"); (">=", "GE");
    ("and", "AND"); ("or", "OR") ].

(** [op_map.get(node.op.value, node.op.value.upper())]: the default is
    evaluated before the lookup, and only a [str] has [upper]. *)
Definition op_name (v : pyvalue) : result string :=
  match v with
  | VStr s => Ok (dict_get op_map s (upper s))
  | VInt _ => Err "'int' object has no attribute 'upper'"
  | VFloat _ => Err "'float' object has no attribute 'upper'"
  | VNone => Err "'NoneType' object has no attribute 'upper'"
  end.

(** [TACGenerator.generate] on the expression nodes; the result is the name
    that holds the value. *)
Fixpoint generate_expr (node : expr) (g : TACGenerator) : result (string * TACGenerator) :=
  match node with
  | BinOpNode left_ op right_ =>            (* generate_binop *)
      '(left_temp, g) ← generate_expr left_ g;
      '(right_temp, g) ← generate_expr right_ g;
      let '(result_temp, g) := new_temp g in
      op ← op_name (tok_value op);
      Ok (result_temp,
          emit (result_temp +:+ " := " +:+ left_temp +:+ " " +:+ op +:+ " " +:+ right_temp) g)
  | UnaryOpNode op e =>                     (* generate_unary *)
      '(expr_temp, g) ← generate_expr e g;
      let '(result_temp, g) := new_temp g in
      if value_in (tok_value op) ["not"] then
        Ok (result_temp, emit (result_temp +:+ " := NOT " +:+ expr_temp) g)
      else
        Ok (result_temp,
            emit (result_temp +:+ " := " +:+ str_of_value (tok_value op) +:+ " "
                  +:+ expr_temp) g)
  | VarNode var_name => Ok (var_name, g)
  | NumNode value =>
      let '(temp, g) := new_temp g in
      Ok (temp, emit (temp +:+ " := " +:+ str_of_value value) g)
  | BooleanNode value =>
      let '(temp, g) := new_temp g in
      Ok (temp, emit (temp +:+ " := " +:+ (if value then "1" else "0")) g)
  end.

(** [TACGenerator.generate] on the statement nodes ([generate_assignment],
    [generate_if], [generate_while], [generate_read], [generate_write]). *)
Fixpoint generate_stmt (node : stmt) (g : TACGenerator) : result TACGenerator :=
  let fix generate_each (stmts : list stmt) (g : TACGenerator) : result TACGenerator :=
    match stmts with
    | [] => Ok g
    | s :: stmts => g ← generate_stmt s g; generate_each stmts g
    end in
  match node with
  | AssignmentNode var_name expression =>
      let target := var_name in
      '(value_temp, g) ← generate_expr expression g;
      Ok (emit (target +:+ " := " +:+ value_temp) g)
  | IfNode condition then_branch else_branch =>
      '(condition_temp, g) ← generate_expr condition g;
      let '(false_label, g) := new_label g in
      let '(end_label, g) := new_label g in
      let g := emit ("IF_FALSE " +:+ condition_temp +:+ " GOTO " +:+ false_label) g in
      g ← generate_each then_branch g;
      match else_branch with
      | _ :: _ =>
          let g := emit ("GOTO " +:+ end_label) g in
          let g := emit ("LABEL " +:+ false_label) g in
          g ← generate_each else_branch g;
          Ok (emit ("LABEL " +:+ end_label) g)
      | [] => Ok (emit ("LABEL " +:+ false_label) g)
      end
  | WhileNode condition body =>
      let '(start_label, g) := new_label g in
      let '(end_label, g) := new_label g in
      let g := emit ("LABEL " +:+ start_label) g in
      '(condition_temp, g) ← generate_expr condition g;
      let g := emit ("IF_FALSE " +:+ condition_temp +:+ " GOTO " +:+ end_label) g in
      g ← generate_each body g;
      let g := emit ("GOTO " +:+ start_label) g in
      Ok (emit ("LABEL " +:+ end_label) g)
  | ReadNode var_name => Ok (emit ("READ " +:+ var_name) g)
  | WriteNode expression =>
      '(value_temp, g) ← generate_expr expression g;
      Ok (emit ("WRITE " +:+ value_temp) g)
  end.

(** [for stmt in stmts: self.generate(stmt)] *)
Fixpoint generate_stmts (stmts : list stmt) (g : TACGenerator) : result TACGenerator :=
  match stmts with
  | [] => Ok g
  | s :: stmts => g ← generate_stmt s g; generate_stmts stmts g
  end.

(** [generate_program] *)
Definition generate_program (node : ProgramNode) (g : TACGenerator) : result TACGenerator :=
  let g := emit ("PROGRAM " +:+ prog_name node) g in
  g ← generate_stmts (prog_statements node) g;
  Ok (emit "END" g).

(** [TACGenerator.generate] on a [ProgramNode]: the instruction list it
    returns, with the generator's final state. *)
Definition generate (node : ProgramNode) (g : TACGenerator)
  : result (list string * TACGenerator) :=
  g ← generate_program node g;
  Ok (code g, g).

(** *** Generator objects

    The functions above pass the state of one generator along. A run of a
    program can hold several generators, and [generate] returns the list
    of the generator itself, not a copy of it. To tell the objects apart
    they are kept in a store: a generator object holds its two counters
    and the reference of its list of instructions. *)

Record TACGenerator_object : Type := mkTACGenerator_object {
  self_temp_count : nat;
  self_label_count : nat;
  self_code : nat
}.

Record store : Type := mkStore {
  generator_objects : gmap nat TACGenerator_object;
  list_objects : gmap nat (list string);
  next_object : nat
}.

(** [TACGenerator()]: a new object, for which [__init__] sets both counters
    to zero and [self.code] to a new, empty list. *)
Definition TACGenerator_new (s : store) : nat * store :=
  let self := next_object s in
  let code := S (next_object s) in
  (self,
   {| generator_objects :=
        <[self := mkTACGenerator_object 0 0 code]> (generator_objects s);
      list_objects := <[code := []]> (list_objects s);
      next_object := S (S (next_object s)) |}).

(** [self.generate(node)] on a [ProgramNode], for the generator object
    [self]: the program is lowered from the counters the object holds and
    behind the instructions its list holds, the counters and the list are
    updated in place, and the reference of the list is returned. [None] is
    the call on a reference to no generator, which a run of a program
    does not hold. A lowering that raises is [Err], and the state that
    it leaves is not kept. *)
Definition generate_method (self : nat) (node : ProgramNode) (s : store)
  : option (result (nat * store)) :=
  obj ← generator_objects s !! self;
  instructions ← list_objects s !! self_code obj;
  Some ('(_, g) ← generate node
                    {| temp_count := self_temp_count obj;
                       label_count := self_label_count obj;
                       code := instructions |};
        Ok (self_code obj,
            {| generator_objects :=
                 <[self := mkTACGenerator_object (temp_count g) (label_count g)
                             (self_code obj)]> (generator_objects s);
               list_objects := <[self_code obj := code g]> (list_objects s);
               next_object := next_object s |})).

(** ** The pipeline: scanner, parser, analyzer, generator

    [compiler.py] lists the tokens of the whole source, then parses the
    source with a new lexer, analyzes the tree and lowers it with a newly
    constructed generator; the first failure ends the run. *)

Inductive stage : Type :=
  | LexicalAnalysis | SyntaxAnalysis | SemanticAnalysis | CodeGeneration.

Inductive outcome : Type :=
  | Compiled (tac : list string)
  | Failed (at_stage : stage) (msg : string)
  | Unfinished.

(** The token listing of [Compiler.compile]: scan up to and including the
    [EOF] token. *)
Fixpoint tokenize (fuel : nat) (lx : Lexer) : result (list Token) :=
  match fuel with
  | O => OutOfFuel
  | S fuel =>
      '(token, lx) ← get_next_token lx;
      if bool_decide (tok_type token = EOF) then Ok [token]
      else tokens ← tokenize fuel lx; Ok (token :: tokens)
  end.

(** [Compiler().compile(source_code)], without its printing: the stage
    at which an exception is raised and the exception's message, or the
    instruction list that is printed. Between parsing and analysis
    [compile] also prints every declaration and statement of the tree,
    inside its [try] block; the printing is not embedded. *)
Definition compile (fuel : nat) (source_code : string) : outcome :=
  match tokenize fuel (Lexer_init source_code) with
  | Err e => Failed LexicalAnalysis e
  | OutOfFuel => Unfinished
  | Ok _ =>
      match parse_source fuel source_code with
      | Err e => Failed SyntaxAnalysis e
      | OutOfFuel => Unfinished
      | Ok ast =>
          match analyze ast with
          | Err e => Failed SemanticAnalysis e
          | OutOfFuel => Unfinished
          | Ok _ =>
              match generate ast TACGenerator_init with
              | Err e => Failed CodeGeneration e
              | OutOfFuel => Unfinished
              | Ok (tac, _) => Compiled tac
              end
          end
      end
  end.

(** * Notions used in the statements *)

(** The loop stops in front of [tail]: at the end of the text, or at a
    character the condition rejects. *)
Definition halts_at (cond : ascii → bool) (tail : string) : Prop :=
  match tail with
  | EmptyString => True
  | String c _ => cond c = false
  end.

(** A generator with the given counters and an empty instruction list. *)
Definition counters (temps labels : nat) : TACGenerator :=
  {| temp_count := temps; label_count := labels; code := [] |}.

(** The generator with its instruction list emptied. *)
Definition fresh_from (g : TACGenerator) : TACGenerator :=
  counters (temp_count g) (label_count g).

(** The generator with instructions put in front of its list. *)
Definition prepend (pre : list string) (g : TACGenerator) : TACGenerator :=
  {| temp_count := temp_count g; label_count := label_count g; code := pre ++ code g |}.

(** The number of labels the lowering of a statement allocates: two for
    each [IfNode] and each [WhileNode] in it. *)
Fixpoint allocated_labels (s : stmt) : nat :=
  let fix of_each (stmts : list stmt) : nat :=
    match stmts with
    | [] => 0
    | s :: stmts => allocated_labels s + of_each stmts
    end in
  match s with
  | IfNode _ then_branch else_branch => 2 + of_each then_branch + of_each else_branch
  | WhileNode _ body => 2 + of_each body
  | _ => 0
  end.

Fixpoint allocated_labels_each (stmts : list stmt) : nat :=
  match stmts with
  | [] => 0
  | s :: stmts => allocated_labels s + allocated_labels_each stmts
  end.

(** The message of [SymbolTable.declare] for a name that is in the table. *)
Definition already_declared_msg (name : string) (st : SymbolTable) : string :=
  "Semantic error: Variable '" +:+ name +:+ "' already declared at line "
  +:+ str_of_nat (tok_line (st_current_token st)).

(** [name] is listed twice in [ids]. *)
Definition listed_twice (name : string) (ids : list string) : Prop :=
  ∃ l1 l2 l3, ids = l1 ++ name :: l2 ++ name :: l3.



(** [r'] is what [r] is, unless [r] ran out of budget. *)
Definition settles {A : Type} (r r' : result A) : Prop := r = OutOfFuel ∨ r = r'.

(** The line and column [Lexer.advance] reaches from [(line, col)] over
    the characters of [w]: a newline starts the next line at column 1, any
    other character is one column. *)
Fixpoint position_after (w : string) (line col : nat) : nat * nat :=
  match w with
  | EmptyString => (line, col)
  | String c w' =>
      if Ascii.eqb c newline then position_after w' (line + 1) 1
      else position_after w' line (col + 1)
  end.

(** A character that continues an identifier. *)
Definition is_word_char (c : ascii) : bool := isalnum c || is_underscore c.

(** The scanner is at its place in [source]: [before] has been consumed,
    the line is that of the next character, and so is the column as long
    as a character is left. *)
Definition placed_in (source : string) (lx : Lexer) : Prop :=
  ∃ before,
    source = before +:+ lx_rest lx
    ∧ lx_line lx = fst (position_after before 1 1)
    ∧ (lx_rest lx ≠ EmptyString → lx_column lx = snd (position_after before 1 1)).

(** The message of [Lexer.error] for a character that starts no token. *)
Definition unexpected_character_msg (line col : nat) (c : ascii) : string :=
  "Lexical error at line " +:+ str_of_nat line +:+ ", column " +:+ str_of_nat col
  +:+ ": " +:+ "Unexpected character: '" +:+ String c EmptyString +:+ "'".

(** The message of [int()] for a numeral of [digits] digits, more than the
    interpreter converts. *)
Definition digit_limit_msg (digits : nat) : string :=
  "Exceeds the limit (4300 digits) for integer string conversion: value has "
  +:+ str_of_nat digits
  +:+ " digits; use sys.set_int_max_str_digits() to increase the limit".

(** The messages of a numeral that [int()] or [float()] does not convert:
    a text that is no numeral, and a run of more decimal digits than the
    interpreter's limit. *)
Definition conversion_error (m : string) : Prop :=
  (∃ text, m = "invalid literal for int() with base 10: '" +:+ text +:+ "'"
           ∨ m = "could not convert string to float: '" +:+ text +:+ "'")
  ∨ (∃ digits, int_max_str_digits < digits ∧ m = digit_limit_msg digits).

(** What the scanner puts in a token of each kind. *)
Definition token_value_ok (token : Token) : Prop :=
  match tok_type token with
  | NUMBER => (∃ n, tok_value token = VInt n) ∨ (∃ f, tok_value token = VFloat f)
  | EOF => tok_value token = VNone
  | _ => ∃ text, tok_value token = VStr text
  end.

(** The token holds text. *)
Definition holds_text (token : Token) : Prop := ∃ text, tok_value token = VStr text.

(** The kinds of the tokens that the parser makes the operator of a
    [BinOpNode]. *)
Definition binary_operator_kinds : list TokenType := rel_ops ++ add_ops ++ mul_ops.

(** An expression as the parser builds them, over the identifiers [D]:
    every variable is in [D], every operator is an operator token holding
    its text, every numeral holds an int or a float. *)
Fixpoint parsed_expr (D : string → Prop) (e : expr) : Prop :=
  match e with
  | BinOpNode left_ op right_ =>
      parsed_expr D left_
      ∧ tok_type op ∈ binary_operator_kinds ∧ holds_text op
      ∧ parsed_expr D right_
  | UnaryOpNode op e => tok_type op = NOT ∧ holds_text op ∧ parsed_expr D e
  | VarNode var_name => D var_name
  | NumNode value => (∃ n, value = VInt n) ∨ (∃ f, value = VFloat f)
  | BooleanNode _ => True
  end.

(** A statement as the parser builds them, over the identifiers [D]: the
    targets of assignments and reads are in [D], and the expressions are
    as above. *)
Fixpoint parsed_stmt (D : string → Prop) (s : stmt) : Prop :=
  let fix each (stmts : list stmt) : Prop :=
    match stmts with
    | [] => True
    | s :: stmts => parsed_stmt D s ∧ each stmts
    end in
  match s with
  | AssignmentNode var_name expression => D var_name ∧ parsed_expr D expression
  | IfNode condition then_branch else_branch =>
      parsed_expr D condition ∧ each then_branch ∧ each else_branch
  | WhileNode condition body => parsed_expr D condition ∧ each body
  | ReadNode var_name => D var_name
  | WriteNode expression => parsed_expr D expression
  end.

Definition parsed_stmts (D : string → Prop) : list stmt → Prop :=
  fix each (stmts : list stmt) : Prop :=
    match stmts with
    | [] => True
    | s :: stmts => parsed_stmt D s ∧ each stmts
    end.

(** The parser holds a token as the scanner makes them, and every
    identifier of its table is in [D]. *)
Definition ready (D : string → Prop) (p : Parser) : Prop :=
  token_value_ok (current_token p)
  ∧ ∀ x, is_declared x (symbol_table p) = true → D x.

(** The identifiers of a declaration list, in order. *)
Definition declared_identifiers (decls : list DeclarationNode) : list string :=
  concat (identifiers <$> decls).

(** The three type names of the language. *)
Definition type_names : list string := ["integer"; "real"; "boolean"].

(** The parser after the declarations [decls]: no identifier is listed
    twice, its table holds exactly their identifiers, their types are type
    names, and it holds a token as the scanner makes them. *)
Definition declared_so_far (decls : list DeclarationNode) (p : Parser) : Prop :=
  NoDup (declared_identifiers decls)
  ∧ (∀ x, is_declared x (symbol_table p) = true ↔ x ∈ declared_identifiers decls)
  ∧ Forall (fun d => type_name (type_node d) ∈ type_names) decls
  ∧ token_value_ok (current_token p).

(** A message of the analyzer's type checks. *)
Definition type_error (m : string) : Prop := ∃ rest, m = "Type error: " +:+ rest.

(** The instruction defines the temporary numbered [k]. *)
Definition defines_temp (k : nat) (instr : string) : Prop :=
  ∃ rhs, instr = "t" +:+ str_of_nat k +:+ " := " +:+ rhs.

(** The instruction that defines the label numbered [k]. *)
Definition label_definition (k : nat) : string := "LABEL " +:+ "L" +:+ str_of_nat k.

(** How often [instr] occurs in [instrs]. *)
Definition occurrences (instr : string) (instrs : list string) : nat :=
  length (filter (fun i => i = instr) instrs).

(** The instructions [new] define labels numbered from [a] up to, and not
    including, [b] only, and none of them twice. *)
Definition labels_within (a b : nat) (new : list string) : Prop :=
  a ≤ b
  ∧ ∀ k, occurrences (label_definition k) new
         ≤ (if bool_decide (a ≤ k < b) then 1 else 0).

(** The instruction defines no label. *)
Definition not_a_label (instr : string) : Prop := ∀ k, instr ≠ label_definition k.

Definition is_colon (c : ascii) : bool := Ascii.eqb c ":".

(** The rest of the text scans to the end without a lexical error. *)
Definition scannable (lx : Lexer) : Prop := ∃ n tokens, tokenize n lx = Ok tokens.

(** A message of the parser: a syntax error of [Parser.error], or one of
    the semantic errors raised while parsing. *)
Definition parser_failure (e : string) : Prop :=
  ∃ rest, e = "Syntax error at line " +:+ rest ∨ e = "Semantic error" +:+ rest.

(** A step of the parser over a text that scans: it leaves a text that
    scans, or fails with a message of the parser. *)
Definition keeps_scanning {A : Type} (r : result (A * Parser)) : Prop :=
  match r with
  | Ok (_, p) => scannable (lexer p)
  | Err e => parser_failure e
  | OutOfFuel => True
  end.

(** What the parser has left: the characters not yet scanned, and the
    current token unless it is the EOF token. *)
Definition left_to_parse (p : Parser) : nat :=
  remaining (lexer p) + (if bool_decide (tok_type (current_token p) = EOF) then 0 else 1).

(** The step ends, and where it succeeds it leaves less than [b]. *)
Definition ends_below {A : Type} (b : nat) (r : result (A * Parser)) : Prop :=
  match r with
  | Ok (_, p) => left_to_parse p < b
  | Err _ => True
  | OutOfFuel => False
  end.

(** The operands that a loop of the parser takes from [p] on, in the
    order of the text: as long as the current token is an operator of
    [kinds], the loop eats it and parses one operand with [sub]; it stops
    at [p'], in front of a token that is no operator of [kinds]. *)
Inductive operands (sub : nat → Parser → result (expr * Parser)) (kinds : list TokenType)
  : Parser → list (Token * expr) → Parser → Prop :=
  | operands_none (p : Parser) :
      type_in (tok_type (current_token p)) kinds = false →
      operands sub kinds p [] p
  | operands_more (p p1 : Parser) (m : nat) (r : expr) (p2 : Parser)
      (items : list (Token * expr)) (p' : Parser) :
      type_in (tok_type (current_token p)) kinds = true →
      eat (tok_type (current_token p)) p = Ok p1 →
      sub m p1 = Ok (r, p2) →
      operands sub kinds p2 items p' →
      operands sub kinds p ((current_token p, r) :: items) p'.

(** The tree of [l op1 r1 op2 r2 ...] with the operators grouped from the
    left: [((l op1 r1) op2 r2) ...]. *)
Definition grouped_left (l : expr) (items : list (Token * expr)) : expr :=
  foldl (fun acc item => BinOpNode acc (fst item) (snd item)) l items.

(** A message of the scanner: a lexical error of [Lexer.error], or the
    error of a numeral that is not converted. *)
Definition scanner_failure (m : string) : Prop :=
  (∃ rest, m = "Lexical error at line " +:+ rest) ∨ conversion_error m.

(** The messages of the [AttributeError] that [node.op.value.upper()]
    raises when the value is no string. *)
Definition no_upper_error (m : string) : Prop :=
  m = "'int' object has no attribute 'upper'"
  ∨ m = "'float' object has no attribute 'upper'"
  ∨ m = "'NoneType' object has no attribute 'upper'".







(** * Properties *)

(** ** The scanner on numerals *)

Lemma append_cons (c : ascii) (s t : string) : String c s +:+ t = String c (s +:+ t).
Proof. reflexivity. Qed.

Lemma append_nil_l (s : string) : "" +:+ s = s.
Proof. reflexivity. Qed.

Lemma append_nil_r (s : string) : s +:+ "" = s.
Proof.
  induction s as [|c s IH]; [reflexivity |].
  by rewrite append_cons, IH.
Qed.

Lemma append_snoc (acc : string) (c : ascii) (s : string) :
  (acc +:+ String c "") +:+ s = acc +:+ String c s.
Proof.
  induction acc as [|a acc IH]; [reflexivity |].
  by rewrite !append_cons, IH.
Qed.

Lemma length_append (s t : string) :
  String.length (s +:+ t) = String.length s + String.length t.
Proof.
  induction s as [|c s IH]; [reflexivity |].
  rewrite append_cons. simpl. by rewrite IH.
Qed.

Lemma forallb_append (p : ascii → bool) (s t : string) :
  string_forallb p (s +:+ t) = string_forallb p s && string_forallb p t.
Proof.
  induction s as [|c s IH]; [reflexivity |].
  rewrite append_cons. simpl. by rewrite IH, andb_assoc.
Qed.

Lemma forallb_weaken (p q : ascii → bool) (s : string) :
  (∀ c, p c = true → q c = true) →
  string_forallb p s = true → string_forallb q s = true.
Proof.
  intros Hpq. induction s as [|c s IH]; simpl; [done |].
  intros [Hc Hs]%andb_prop. rewrite (Hpq _ Hc). simpl. auto.
Qed.

Lemma existsb_append_l (p : ascii → bool) (s t : string) :
  string_existsb p s = true → string_existsb p (s +:+ t) = true.
Proof.
  induction s as [|c s IH]; [done |].
  rewrite append_cons. simpl.
  intros [Hc | Hs]%orb_prop; [by rewrite Hc | rewrite (IH Hs); apply orb_true_r].
Qed.

Lemma forallb_existsb (p : ascii → bool) (s : string) :
  s ≠ "" → string_forallb p s = true → string_existsb p s = true.
Proof.
  destruct s as [|c s]; [done |]. simpl.
  intros _ [Hc _]%andb_prop. by rewrite Hc.
Qed.

Lemma count_dots_append (s t : string) :
  count_dots (s +:+ t) = count_dots s + count_dots t.
Proof.
  induction s as [|c s IH]; [reflexivity |].
  rewrite append_cons. simpl. rewrite IH. lia.
Qed.

Lemma isdecimal_not_dot (c : ascii) : isdecimal c = true → is_dot c = false.
Proof. destruct c as [[] [] [] [] [] [] [] []]; vm_compute; congruence. Qed.

Lemma count_dots_decimal (s : string) :
  string_forallb isdecimal s = true → count_dots s = 0.
Proof.
  induction s as [|c s IH]; [reflexivity |]. simpl.
  intros [Hc Hs]%andb_prop. by rewrite (isdecimal_not_dot c Hc), IH.
Qed.

Lemma advance_char (c : ascii) (rest : string) (line col : nat) :
  Ascii.eqb c newline = false →
  advance (mkLexer (String c rest) line col) = mkLexer rest line (col + 1).
Proof. intros H. unfold advance, current_char. simpl. by rewrite H. Qed.

(** A run of characters that the condition accepts, none of them a
    newline, is consumed whole and appended to the result. *)
Lemma advance_while_run (cond : ascii → bool) (ds : string) :
  ∀ (n : nat) (acc tail : string) (line col : nat),
    (∀ c, cond c = true → Ascii.eqb c newline = false) →
    string_forallb cond ds = true →
    halts_at cond tail →
    String.length ds ≤ n →
    advance_while cond n acc (mkLexer (ds +:+ tail) line col)
    = (acc +:+ ds, mkLexer tail line (col + String.length ds)).
Proof.
  intros n acc tail line col Hnl. revert n acc col.
  induction ds as [|d ds IH]; intros n acc col Hds Htail Hn;
    rewrite ?append_cons, ?append_nil_l; simpl in *.
  - rewrite append_nil_r, Nat.add_0_r.
    destruct n as [|n]; simpl; [reflexivity |].
    unfold current_char; simpl. destruct tail as [|c tail]; [reflexivity |].
    simpl in Htail. by rewrite Htail.
  - apply andb_prop in Hds as [Hd Hds].
    destruct n as [|n]; [lia |]. simpl. rewrite Hd.
    rewrite advance_char by auto.
    rewrite IH by (auto; lia).
    rewrite append_snoc. do 2 f_equal. lia.
Qed.

Lemma isdigit_not_newline (c : ascii) : isdigit c = true → Ascii.eqb c newline = false.
Proof. destruct c as [[] [] [] [] [] [] [] []]; vm_compute; congruence. Qed.

Lemma isdecimal_isdigit (c : ascii) : isdecimal c = true → isdigit c = true.
Proof. unfold isdigit, isdecimal. intros ->. reflexivity. Qed.

(** What [get_next_token] tests before it reaches the numeral branch. *)
Lemma isdecimal_dispatch (c : ascii) :
  isdecimal c = true →
  isspace c = false ∧ String.eqb (String c "") "{" = false
  ∧ isalpha c || is_underscore c = false ∧ isdigit c = true.
Proof. destruct c as [[] [] [] [] [] [] [] []]; vm_compute; intuition congruence. Qed.

Lemma get_next_token_number (c : ascii) (rest : string) (line col : nat) :
  isdecimal c = true →
  get_next_token (mkLexer (String c rest) line col)
  = number (mkLexer (String c rest) line col).
Proof.
  intros (Hsp & Hbr & Hal & Hdg)%isdecimal_dispatch.
  unfold get_next_token. cbn [get_next_token_loop].
  unfold current_char, char_is, current_char. cbn [lx_rest].
  by rewrite Hsp, Hbr, Hal, Hdg.
Qed.

(** [number] on a run of decimal digits that no dot follows. *)
Lemma leading_decimals_all (ds : string) :
  string_forallb isdecimal ds = true → leading_decimals ds = String.length ds.
Proof.
  induction ds as [|d ds IH]; [done |]. simpl.
  intros [-> Hds]%andb_prop. by rewrite IH.
Qed.

Lemma py_int_decimal (ds : string) :
  ds ≠ "" →
  string_forallb isdecimal ds = true →
  py_int ds = if (int_max_str_digits <? String.length ds)%nat
              then Err (digit_limit_msg (String.length ds))
              else Ok (digits_value 0 ds).
Proof.
  intros Hne Hds. unfold py_int. rewrite (leading_decimals_all ds Hds).
  destruct (_ <? _)%nat; [done |]. destruct ds; [done |]. by rewrite Hds.
Qed.

Lemma number_integer_is (ds tail : string) (line col : nat) :
  ds ≠ "" →
  string_forallb isdecimal ds = true →
  halts_at (fun c => isdigit c || is_dot c) tail →
  number (mkLexer (ds +:+ tail) line col)
  = (n ← py_int ds;
     Ok (mkToken NUMBER (VInt n) line (col + String.length ds),
         mkLexer tail line (col + String.length ds))).
Proof.
  intros Hne Hds Htail. unfold number, remaining. cbn [lx_rest].
  rewrite (advance_while_run isdigit ds); cycle 1.
  - apply isdigit_not_newline.
  - by apply (forallb_weaken isdecimal isdigit), Hds; apply isdecimal_isdigit.
  - destruct tail as [|c tail]; [done |]. simpl in *.
    by apply orb_false_elim in Htail as [? _].
  - rewrite length_append. lia.
  - rewrite append_nil_l. simpl. unfold current_char. cbn [lx_rest].
    destruct tail as [|c tail]; [done |].
    simpl in Htail. apply orb_false_elim in Htail as [_ Hdot].
    by rewrite Hdot.
Qed.

Lemma number_integer (ds tail : string) (line col : nat) :
  ds ≠ "" →
  string_forallb isdecimal ds = true →
  String.length ds ≤ int_max_str_digits →
  halts_at (fun c => isdigit c || is_dot c) tail →
  number (mkLexer (ds +:+ tail) line col)
  = Ok (mkToken NUMBER (VInt (digits_value 0 ds)) line (col + String.length ds),
        mkLexer tail line (col + String.length ds)).
Proof.
  intros Hne Hds Hlen Htail. rewrite number_integer_is, py_int_decimal by done.
  by destruct (Nat.ltb_spec int_max_str_digits (String.length ds)); [lia |].
Qed.

Lemma number_beyond_limit (ds tail : string) (line col : nat) :
  ds ≠ "" →
  string_forallb isdecimal ds = true →
  int_max_str_digits < String.length ds →
  halts_at (fun c => isdigit c || is_dot c) tail →
  number (mkLexer (ds +:+ tail) line col) = Err (digit_limit_msg (String.length ds)).
Proof.
  intros Hne Hds Hlen Htail. rewrite number_integer_is, py_int_decimal by done.
  by destruct (Nat.ltb_spec int_max_str_digits (String.length ds)); [|lia].
Qed.

Lemma number_real (ds fs tail : string) (line col : nat) :
  ds ≠ "" →
  string_forallb isdecimal ds = true →
  string_forallb isdecimal fs = true →
  halts_at isdigit tail →
  number (mkLexer (ds +:+ "." +:+ fs +:+ tail) line col)
  = Ok (mkToken NUMBER (VFloat (float_of_numeral (ds +:+ "." +:+ fs))) line
          (col + String.length ds + 1 + String.length fs),
        mkLexer tail line (col + String.length ds + 1 + String.length fs)).
Proof.
  intros Hne Hds Hfs Htail.
  change ("." +:+ fs +:+ tail) with (String "." (fs +:+ tail)) at 1.
  unfold number, remaining. cbn [lx_rest].
  assert (Hdig : ∀ s, string_forallb isdecimal s = true → string_forallb isdigit s = true).
  { intros s. apply forallb_weaken, isdecimal_isdigit. }
  rewrite (advance_while_run isdigit ds); cycle 1.
  - apply isdigit_not_newline.
  - auto.
  - reflexivity.
  - rewrite length_append. lia.
  - rewrite append_nil_l. simpl.
    change (is_dot ".") with true. cbn iota.
    rewrite advance_char by reflexivity. cbn [lx_rest].
    rewrite (advance_while_run isdigit fs); cycle 1.
    + apply isdigit_not_newline.
    + auto.
    + exact Htail.
    + rewrite length_append. lia.
    + rewrite append_snoc. unfold py_float.
      assert (Hok : float_numeral_ok (ds +:+ "." +:+ fs) = true).
      { unfold float_numeral_ok. repeat (apply andb_true_intro; split).
        - rewrite (forallb_append _ ds). simpl.
          rewrite (forallb_weaken isdecimal _ ds), (forallb_weaken isdecimal _ fs);
            auto; intros c ->; reflexivity.
        - apply existsb_append_l, forallb_existsb; auto.
        - rewrite count_dots_append, (count_dots_decimal ds Hds).
          change (count_dots ("." +:+ fs)) with (1 + count_dots fs).
          by rewrite (count_dots_decimal fs Hfs). }
      change (ds +:+ String "." fs) with (ds +:+ "." +:+ fs).
      rewrite Hok. reflexivity.
Qed.

Lemma get_next_token_numeral (ds rest : string) (line col : nat) :
  ds ≠ "" →
  string_forallb isdecimal ds = true →
  get_next_token (mkLexer (ds +:+ rest) line col) = number (mkLexer (ds +:+ rest) line col).
Proof.
  destruct ds as [|d ds]; [done |]. intros _ [Hd _]%andb_prop.
  rewrite append_cons. by apply get_next_token_number.
Qed.

(** C8, as the code has it. A run of decimal digits that no dot follows,
    of at most as many digits as the interpreter converts (4300), is
    scanned as a NUMBER token holding the integer the digits denote, and
    the analyzer gives the literal built from that value the type
    [integer]; a longer run is not scanned: [int()] raises, and so does
    the scanner. A run of decimal digits, one dot and at least one more
    decimal digit is scanned as a NUMBER token holding the float of that
    text, whatever its length, and the analyzer gives the literal the type
    [real]. The literal node the parser builds from a NUMBER token holds
    the token's value as it is. *)
Theorem numeral_literal_types (ds fs tail : string) (line col : nat)
    (symbol_table : gmap string string) :
  ds ≠ "" →
  string_forallb isdecimal ds = true →
  (halts_at (fun c => isdigit c || is_dot c) tail →
   (String.length ds ≤ int_max_str_digits →
    ∃ tok lx',
      get_next_token (mkLexer (ds +:+ tail) line col) = Ok (tok, lx')
      ∧ tok_type tok = NUMBER
      ∧ tok_value tok = VInt (digits_value 0 ds)
      ∧ lx_rest lx' = tail
      ∧ analyze_expr (NumNode (tok_value tok)) symbol_table = Ok "integer")
   ∧ (int_max_str_digits < String.length ds →
      get_next_token (mkLexer (ds +:+ tail) line col)
      = Err (digit_limit_msg (String.length ds))))
  ∧ (fs ≠ "" →
     string_forallb isdecimal fs = true →
     halts_at isdigit tail →
     ∃ tok lx',
       get_next_token (mkLexer (ds +:+ "." +:+ fs +:+ tail) line col) = Ok (tok, lx')
       ∧ tok_type tok = NUMBER
       ∧ tok_value tok = VFloat (float_of_numeral (ds +:+ "." +:+ fs))
       ∧ lx_rest lx' = tail
       ∧ analyze_expr (NumNode (tok_value tok)) symbol_table = Ok "real")
  ∧ (∀ (fuel : nat) (p p' : Parser),
        peek NUMBER p = true →
        eat NUMBER p = Ok p' →
        factor (1 + fuel) p = Ok (NumNode (tok_value (current_token p)), p')).
Proof.
  intros Hne Hds. split; [|split].
  - intros Htail. split.
    + intros Hlen. eexists _, _.
      rewrite get_next_token_numeral, number_integer by done.
      by repeat split.
    + intros Hlen. by rewrite get_next_token_numeral, number_beyond_limit.
  - intros _ Hfs Htail. eexists _, _.
    rewrite get_next_token_numeral, number_real by done.
    by repeat split.
  - intros fuel p p' Hnum Heat. cbn [Nat.add factor].
    unfold peek in *. apply bool_decide_eq_true_1 in Hnum. rewrite Hnum.
    change (bool_decide (NUMBER = ID)) with false.
    change (bool_decide (NUMBER = NUMBER)) with true. cbn iota.
    by rewrite Heat.
Qed.

(** C9. When a run of decimal digits is followed by a dot and the dot is
    not followed by a digit, the scanner takes the dot into the numeral:
    the token is a NUMBER holding the float of the digits with the dot, and
    the scanner resumes after the dot, so that no DOT token follows. *)
Theorem trailing_dot_absorbed (ds tail : string) (line col : nat) :
  ds ≠ "" →
  string_forallb isdecimal ds = true →
  halts_at isdigit tail →
  get_next_token (mkLexer (ds +:+ "." +:+ tail) line col)
  = Ok (mkToken NUMBER (VFloat (float_of_numeral (ds +:+ "."))) line
          (col + String.length ds + 1),
        mkLexer tail line (col + String.length ds + 1)).
Proof.
  intros Hne Hds Htail.
  rewrite get_next_token_numeral by done.
  pose proof (number_real ds "" tail line col Hne Hds eq_refl Htail) as H.
  rewrite append_nil_l in H. simpl in H.
  rewrite Nat.add_0_r in H. exact H.
Qed.

(** ** The scanner always answers

    The budget [get_next_token] gives its loop is never used up: every
    pass that does not return consumes a character. *)

Lemma remaining_advance (lx : Lexer) : remaining (advance lx) = pred (remaining lx).
Proof.
  unfold remaining, advance.
  destruct (current_char lx) as [c|]; [destruct (Ascii.eqb c newline) |];
    cbn [lx_rest]; by destruct (lx_rest lx).
Qed.

Lemma advance_while_remaining (cond : ascii → bool) (n : nat) :
  ∀ acc lx, remaining (snd (advance_while cond n acc lx)) ≤ remaining lx.
Proof.
  induction n as [|n IH]; intros acc lx; cbn [advance_while]; [done |].
  destruct (current_char lx) as [c|]; [|done].
  destruct (cond c); [|done].
  etrans; [apply IH |]. rewrite remaining_advance. lia.
Qed.

Lemma advance_while_progress (cond : ascii → bool) (acc : string) (lx : Lexer) (c : ascii) :
  current_char lx = Some c →
  cond c = true →
  remaining (snd (advance_while cond (remaining lx) acc lx)) < remaining lx.
Proof.
  intros Hc Hcond.
  assert (Hpos : 0 < remaining lx).
  { unfold remaining, current_char in *. destruct (lx_rest lx); [done | simpl; lia]. }
  destruct (remaining lx) as [|n] eqn:Hn; [lia |].
  cbn [advance_while]. rewrite Hc, Hcond.
  eapply Nat.le_lt_trans; [apply advance_while_remaining |].
  rewrite remaining_advance, Hn. simpl. lia.
Qed.

Lemma number_answers (lx : Lexer) : number lx ≠ OutOfFuel.
Proof.
  unfold number. destruct (advance_while isdigit _ _ lx) as [r1 lx1].
  assert (Hint : ∀ k : Z → result (Token * Lexer),
             (∀ z, k z ≠ OutOfFuel) → (py_int r1 ≫= k) ≠ OutOfFuel).
  { intros k Hk. unfold py_int. destruct (_ <? _)%nat; [done |].
    destruct r1; [done |]. destruct (string_forallb _ _); [apply Hk | done]. }
  destruct (current_char lx1) as [c|]; [|by apply Hint].
  destruct (is_dot c); [|by apply Hint].
  destruct (advance_while isdigit _ _ _) as [r3 lx3].
  unfold py_float. by destruct (float_numeral_ok r3).
Qed.

Lemma get_next_token_loop_answers (n : nat) :
  ∀ lx, remaining lx < n → get_next_token_loop n lx ≠ OutOfFuel.
Proof.
  induction n as [|n IH]; intros lx Hn; [lia |].
  cbn [get_next_token_loop].
  destruct (current_char lx) as [c|] eqn:Hc; [|done].
  destruct (isspace c) eqn:Hspace.
  { apply IH. unfold skip_whitespace.
    pose proof (advance_while_progress isspace "" lx c Hc Hspace). lia. }
  destruct (char_is lx "{") eqn:Hbrace.
  { apply IH. unfold skip_comment. rewrite remaining_advance.
    assert (Hnl : negb (Ascii.eqb c newline) = true).
    { unfold char_is in Hbrace. rewrite Hc in Hbrace.
      apply String.eqb_eq in Hbrace as [= ->]. reflexivity. }
    pose proof (advance_while_progress (fun c => negb (Ascii.eqb c newline)) "" lx c Hc Hnl).
    lia. }
  destruct (isalpha c || is_underscore c); [done |].
  destruct (isdigit c); [apply number_answers |].
  repeat match goal with
         | |- (if ?b then _ else _) ≠ _ => destruct b
         | |- (let _ := _ in _) ≠ _ => cbv zeta
         end; try done.
  destruct (dict_find token_types _); done.
Qed.

(** [get_next_token] returns a token or raises, for every scanner state. *)
Lemma get_next_token_answers (lx : Lexer) : get_next_token lx ≠ OutOfFuel.
Proof. apply get_next_token_loop_answers. lia. Qed.

(** ** The generator *)

(** Induction over statements that reaches the statements of branches and
    bodies. *)
Lemma stmt_nested_ind (P : stmt → Prop) :
  (∀ var_name expression, P (AssignmentNode var_name expression)) →
  (∀ condition then_branch else_branch,
      Forall P then_branch → Forall P else_branch →
      P (IfNode condition then_branch else_branch)) →
  (∀ condition body, Forall P body → P (WhileNode condition body)) →
  (∀ var_name, P (ReadNode var_name)) →
  (∀ expression, P (WriteNode expression)) →
  ∀ s, P s.
Proof.
  intros Hassign Hif Hwhile Hread Hwrite.
  fix IH 1. intros [v e | c t e | c b | v | e].
  - apply Hassign.
  - apply Hif.
    + induction t as [|s t IHt]; constructor; [apply IH | exact IHt].
    + induction e as [|s e IHe]; constructor; [apply IH | exact IHe].
  - apply Hwhile.
    induction b as [|s b IHb]; constructor; [apply IH | exact IHb].
  - apply Hread.
  - apply Hwrite.
Qed.

Lemma prepend_fresh_from (g : TACGenerator) : prepend (code g) (fresh_from g) = g.
Proof. destruct g. unfold prepend, fresh_from. simpl. by rewrite app_nil_r. Qed.

Lemma emit_prepend (i : string) (pre : list string) (g : TACGenerator) :
  emit i (prepend pre g) = prepend pre (emit i g).
Proof. unfold emit, prepend. simpl. by rewrite app_assoc. Qed.

Lemma prepend_prepend (pre1 pre2 : list string) (g : TACGenerator) :
  prepend pre1 (prepend pre2 g) = prepend (pre1 ++ pre2) g.
Proof. unfold prepend. simpl. by rewrite app_assoc. Qed.

(** The equations of [generate_stmt] on branches and bodies, with the loop
    over a statement list written [generate_stmts]. *)
Lemma generate_stmt_if (condition : expr) (then_branch else_branch : list stmt)
    (g : TACGenerator) :
  generate_stmt (IfNode condition then_branch else_branch) g
  = '(condition_temp, g) ← generate_expr condition g;
    let '(false_label, g) := new_label g in
    let '(end_label, g) := new_label g in
    let g := emit ("IF_FALSE " +:+ condition_temp +:+ " GOTO " +:+ false_label) g in
    g ← generate_stmts then_branch g;
    match else_branch with
    | _ :: _ =>
        let g := emit ("GOTO " +:+ end_label) g in
        let g := emit ("LABEL " +:+ false_label) g in
        g ← generate_stmts else_branch g;
        Ok (emit ("LABEL " +:+ end_label) g)
    | [] => Ok (emit ("LABEL " +:+ false_label) g)
    end.
Proof. reflexivity. Qed.

Lemma generate_stmt_while (condition : expr) (body : list stmt) (g : TACGenerator) :
  generate_stmt (WhileNode condition body) g
  = let '(start_label, g) := new_label g in
    let '(end_label, g) := new_label g in
    let g := emit ("LABEL " +:+ start_label) g in
    '(condition_temp, g) ← generate_expr condition g;
    let g := emit ("IF_FALSE " +:+ condition_temp +:+ " GOTO " +:+ end_label) g in
    g ← generate_stmts body g;
    let g := emit ("GOTO " +:+ start_label) g in
    Ok (emit ("LABEL " +:+ end_label) g).
Proof. reflexivity. Qed.

(** Lowering only appends: instructions already in the list stay in front,
    and what is appended does not depend on them. *)
Ltac fold_prepend pre :=
  rewrite <- ?app_assoc;
  repeat match goal with
         | |- context [mkTACGenerator ?a ?b (pre ++ ?c)] =>
             change (mkTACGenerator a b (pre ++ c)) with (prepend pre (mkTACGenerator a b c))
         end.

Ltac step_bind := cbn [mbind result_bind]; cbn beta iota.

Lemma generate_expr_prepend (e : expr) :
  ∀ (g : TACGenerator) (pre : list string),
    generate_expr e (prepend pre g)
    = '(t, g') ← generate_expr e g; Ok (t, prepend pre g').
Proof.
  induction e as [l IHl op r IHr | op e IHe | v | v | b]; intros g pre;
    cbn [generate_expr].
  - rewrite IHl. destruct (generate_expr l g) as [[lt g1]| |]; [|done..]. step_bind.
    rewrite IHr. destruct (generate_expr r g1) as [[rt g2]| |]; [|done..]. step_bind.
    unfold new_temp, emit, prepend. simpl.
    destruct (op_name (tok_value op)); simpl; [|done..].
    by rewrite app_assoc.
  - rewrite IHe. destruct (generate_expr e g) as [[et g1]| |]; [|done..]. step_bind.
    unfold new_temp, emit, prepend. simpl.
    destruct (value_in _ _); simpl; by rewrite app_assoc.
  - reflexivity.
  - unfold new_temp, emit, prepend. simpl. by rewrite app_assoc.
  - unfold new_temp, emit, prepend. simpl. by rewrite app_assoc.
Qed.

Lemma generate_stmts_prepend_of (stmts : list stmt) :
  Forall (fun s => ∀ g pre,
            generate_stmt s (prepend pre g) = g' ← generate_stmt s g; Ok (prepend pre g'))
         stmts →
  ∀ g pre,
    generate_stmts stmts (prepend pre g) = g' ← generate_stmts stmts g; Ok (prepend pre g').
Proof.
  induction 1 as [|s stmts Hs _ IH]; intros g pre; cbn [generate_stmts]; [done |].
  rewrite Hs. destruct (generate_stmt s g) as [g1| |]; [|done..]. step_bind.
  apply IH.
Qed.

Lemma generate_stmt_prepend (s : stmt) :
  ∀ (g : TACGenerator) (pre : list string),
    generate_stmt s (prepend pre g) = g' ← generate_stmt s g; Ok (prepend pre g').
Proof.
  induction s as [v e | c t e Ht He | c b Hb | v | e] using stmt_nested_ind;
    intros g pre.
  - cbn [generate_stmt]. rewrite generate_expr_prepend.
    destruct (generate_expr e g) as [[et g1]| |]; [|done..]. step_bind.
    unfold emit, prepend. simpl. by rewrite app_assoc.
  - rewrite !generate_stmt_if, generate_expr_prepend.
    destruct (generate_expr c g) as [[ct g1]| |]; [|done..]. step_bind.
    unfold new_label, emit. simpl. fold_prepend pre.
    rewrite (generate_stmts_prepend_of t Ht).
    destruct (generate_stmts t _) as [g2| |]; [|done..]. step_bind.
    destruct e as [|s e].
    + unfold prepend. simpl. by rewrite app_assoc.
    + simpl code. fold_prepend pre.
      rewrite (generate_stmts_prepend_of _ He).
      destruct (generate_stmts (s :: e) _) as [g3| |]; [|done..]. step_bind.
      unfold prepend. simpl. by rewrite app_assoc.
  - rewrite !generate_stmt_while.
    unfold new_label, emit. simpl. fold_prepend pre.
    rewrite generate_expr_prepend.
    destruct (generate_expr c _) as [[ct g1]| |]; [|done..]. step_bind.
    simpl code. fold_prepend pre.
    rewrite (generate_stmts_prepend_of b Hb).
    destruct (generate_stmts b _) as [g2| |]; [|done..]. step_bind.
    unfold prepend. simpl. by rewrite <- !app_assoc.
  - cbn [generate_stmt]. unfold emit, prepend. simpl. by rewrite app_assoc.
  - cbn [generate_stmt]. rewrite generate_expr_prepend.
    destruct (generate_expr e g) as [[et g1]| |]; [|done..]. step_bind.
    unfold emit, prepend. simpl. by rewrite app_assoc.
Qed.

Lemma generate_stmts_prepend (stmts : list stmt) (g : TACGenerator) (pre : list string) :
  generate_stmts stmts (prepend pre g) = g' ← generate_stmts stmts g; Ok (prepend pre g').
Proof.
  apply generate_stmts_prepend_of, Forall_forall. intros s _. apply generate_stmt_prepend.
Qed.

(** Expressions allocate no label. *)
Lemma generate_expr_label_count (e : expr) :
  ∀ g t g', generate_expr e g = Ok (t, g') → label_count g' = label_count g.
Proof.
  induction e as [l IHl op r IHr | op e IHe | v | v | b]; intros g t g'; simpl.
  - destruct (generate_expr l g) as [[lt g1]| |] eqn:El; simpl; [|done..].
    destruct (generate_expr r g1) as [[rt g2]| |] eqn:Er; simpl; [|done..].
    destruct (op_name _); simpl; [|done..].
    intros [= _ <-]. simpl. rewrite (IHr _ _ _ Er). eauto.
  - destruct (generate_expr e g) as [[et g1]| |] eqn:Ee; simpl; [|done..].
    destruct (value_in _ _); intros [= _ <-]; simpl; eauto.
  - by intros [= _ <-].
  - by intros [= _ <-].
  - by intros [= _ <-].
Qed.

Lemma generate_stmts_label_count_of (stmts : list stmt) :
  Forall (fun s => ∀ g g', generate_stmt s g = Ok g' →
                           label_count g' = label_count g + allocated_labels s) stmts →
  ∀ g g', generate_stmts stmts g = Ok g' →
          label_count g' = label_count g + allocated_labels_each stmts.
Proof.
  induction 1 as [|s stmts Hs _ IH]; intros g g'; cbn [generate_stmts allocated_labels_each].
  - intros [= <-]. lia.
  - destruct (generate_stmt s g) as [g1| |] eqn:E; [|done..]. step_bind.
    intros H%IH. rewrite H, (Hs _ _ E). lia.
Qed.

Lemma generate_stmt_label_count (s : stmt) :
  ∀ g g', generate_stmt s g = Ok g' →
          label_count g' = label_count g + allocated_labels s.
Proof.
  induction s as [v e | c t e Ht He | c b Hb | v | e] using stmt_nested_ind;
    intros g g'.
  - cbn [generate_stmt allocated_labels].
    destruct (generate_expr e g) as [[et g1]| |] eqn:E; [|done..]. step_bind.
    intros [= <-]. simpl. rewrite (generate_expr_label_count _ _ _ _ E). lia.
  - rewrite generate_stmt_if.
    change (allocated_labels (IfNode c t e))
      with (2 + allocated_labels_each t + allocated_labels_each e).
    destruct (generate_expr c g) as [[ct g1]| |] eqn:E; [|done..]. step_bind.
    apply generate_expr_label_count in E.
    unfold new_label. cbn beta iota.
    destruct (generate_stmts t _) as [g2| |] eqn:Et; [|done..]. step_bind.
    apply (generate_stmts_label_count_of t Ht) in Et. simpl in Et.
    destruct e as [|s e].
    + intros [= <-]. simpl. lia.
    + destruct (generate_stmts (s :: e) _) as [g3| |] eqn:Ee; [|done..]. step_bind.
      apply (generate_stmts_label_count_of _ He) in Ee. simpl in Ee.
      intros [= <-]. simpl. simpl in Ee. lia.
  - rewrite generate_stmt_while.
    change (allocated_labels (WhileNode c b)) with (2 + allocated_labels_each b).
    unfold new_label. cbn beta iota.
    destruct (generate_expr c _) as [[ct g1]| |] eqn:E; [|done..]. step_bind.
    apply generate_expr_label_count in E. simpl in E.
    destruct (generate_stmts b _) as [g2| |] eqn:Eb; [|done..]. step_bind.
    apply (generate_stmts_label_count_of b Hb) in Eb. simpl in Eb.
    intros [= <-]. simpl. lia.
  - cbn [generate_stmt allocated_labels]. intros [= <-]. simpl. lia.
  - cbn [generate_stmt allocated_labels].
    destruct (generate_expr e g) as [[et g1]| |] eqn:E; [|done..]. step_bind.
    intros [= <-]. simpl. rewrite (generate_expr_label_count _ _ _ _ E). lia.
Qed.

(** A run from any generator is the run from the same counters with an
    empty list, put behind the instructions already there. *)
Lemma generate_expr_at (e : expr) (temps labels : nat) (pre : list string) :
  generate_expr e (mkTACGenerator temps labels pre)
  = '(t, g') ← generate_expr e (counters temps labels); Ok (t, prepend pre g').
Proof.
  assert (mkTACGenerator temps labels pre = prepend pre (counters temps labels)) as ->
    by (unfold prepend, counters; simpl; by rewrite app_nil_r).
  apply generate_expr_prepend.
Qed.

Lemma generate_stmts_at (stmts : list stmt) (temps labels : nat) (pre : list string) :
  generate_stmts stmts (mkTACGenerator temps labels pre)
  = g' ← generate_stmts stmts (counters temps labels); Ok (prepend pre g').
Proof.
  assert (mkTACGenerator temps labels pre = prepend pre (counters temps labels)) as ->
    by (unfold prepend, counters; simpl; by rewrite app_nil_r).
  apply generate_stmts_prepend.
Qed.

(** C1, as the code has it. For an [IfNode] whose else-branch is empty the
    generator appends exactly: the instructions of the condition, one
    [IF_FALSE] jump to the false label, the instructions of the
    then-branch, and the definition of the false label. No instruction
    names the end label, but the end label is allocated with the false
    label before the jump is emitted: the label counter advances by two,
    plus what the statements of the then-branch allocate. *)
Theorem if_without_else_lowering (condition : expr) (then_branch : list stmt)
    (g : TACGenerator) :
  generate_stmt (IfNode condition then_branch []) g
  = ('(condition_temp, gc) ← generate_expr condition (fresh_from g);
     gt ← generate_stmts then_branch (counters (temp_count gc) (label_count g + 2));
     Ok {| temp_count := temp_count gt;
           label_count := label_count gt;
           code := code g ++ code gc
                   ++ ["IF_FALSE " +:+ condition_temp +:+ " GOTO "
                       +:+ "L" +:+ str_of_nat (label_count g)]
                   ++ code gt
                   ++ ["LABEL " +:+ "L" +:+ str_of_nat (label_count g)] |})
  ∧ (∀ g', generate_stmt (IfNode condition then_branch []) g = Ok g' →
           label_count g' = label_count g + 2 + allocated_labels_each then_branch).
Proof.
  split.
  - rewrite generate_stmt_if.
    destruct g as [temps labels pre]. rewrite generate_expr_at.
    unfold fresh_from. cbn [temp_count label_count code].
    destruct (generate_expr condition (counters temps labels)) as [[ct gc]| |] eqn:E;
      [|done..].
    step_bind. apply generate_expr_label_count in E. simpl in E.
    unfold new_label, emit, prepend.
    cbn [temp_count label_count code]. cbn beta iota.
    rewrite generate_stmts_at, E.
    replace (labels + 1 + 1) with (labels + 2) by lia.
    destruct (generate_stmts then_branch _) as [gt| |]; [|done..]. step_bind.
    unfold prepend. cbn [temp_count label_count code].
    by rewrite <- !app_assoc.
  - intros g' H. apply generate_stmt_label_count in H. rewrite H.
    change (allocated_labels (IfNode condition then_branch []))
      with (2 + allocated_labels_each then_branch + 0). lia.
Qed.

(** C2. For a [WhileNode] the generator appends exactly: the definition of
    the start label, the instructions of the condition, one [IF_FALSE]
    jump to the end label, the instructions of the body, a jump to the
    start label, and the definition of the end label. The instructions of
    the condition occur once, between the start label and the jump. *)
Theorem while_lowering (condition : expr) (body : list stmt) (g : TACGenerator) :
  generate_stmt (WhileNode condition body) g
  = ('(condition_temp, gc) ←
       generate_expr condition (counters (temp_count g) (label_count g + 2));
     gb ← generate_stmts body (fresh_from gc);
     Ok {| temp_count := temp_count gb;
           label_count := label_count gb;
           code := code g
                   ++ ["LABEL " +:+ "L" +:+ str_of_nat (label_count g)]
                   ++ code gc
                   ++ ["IF_FALSE " +:+ condition_temp +:+ " GOTO "
                       +:+ "L" +:+ str_of_nat (label_count g + 1)]
                   ++ code gb
                   ++ ["GOTO " +:+ "L" +:+ str_of_nat (label_count g);
                       "LABEL " +:+ "L" +:+ str_of_nat (label_count g + 1)] |}).
Proof.
  rewrite generate_stmt_while.
  destruct g as [temps labels pre].
  unfold new_label, emit. cbn [temp_count label_count code]. cbn beta iota.
  rewrite generate_expr_at.
  replace (labels + 1 + 1) with (labels + 2) by lia.
  destruct (generate_expr condition _) as [[ct gc]| |]; [|done..]. step_bind.
  unfold prepend at 1. cbn [temp_count label_count code].
  rewrite generate_stmts_at. unfold fresh_from.
  destruct (generate_stmts body _) as [gb| |]; [|done..]. step_bind.
  unfold prepend. cbn [temp_count label_count code].
  by rewrite <- !app_assoc.
Qed.

(** C10. A [BooleanNode] is lowered by taking the next temporary and
    appending one instruction that assigns it [1] for true and [0] for
    false; the temporary differs from every temporary taken before. *)
Theorem boolean_literal_lowering (value : bool) (g : TACGenerator) :
  generate_expr (BooleanNode value) g
  = Ok ("t" +:+ str_of_nat (temp_count g),
        {| temp_count := temp_count g + 1;
           label_count := label_count g;
           code := code g ++ ["t" +:+ str_of_nat (temp_count g) +:+ " := "
                              +:+ (if value then "1" else "0")] |})
  ∧ (∀ n, n < temp_count g →
          "t" +:+ str_of_nat n ≠ "t" +:+ str_of_nat (temp_count g)).
Proof.
  split; [reflexivity |].
  intros n Hn H. unfold str_of_nat in H.
  apply (inj (String.append "t")), (inj pretty) in H. lia.
Qed.

(** ** The analyzer *)

Lemma in_list_true (x : string) (l : list string) : x ∈ l → in_list x l = true.
Proof. intros H. unfold in_list. by apply bool_decide_eq_true. Qed.

Lemma in_list_false (x : string) (l : list string) : x ∉ l → in_list x l = false.
Proof. intros H. unfold in_list. by apply bool_decide_eq_false. Qed.

Lemma both_numeric_false (left_type right_type : string) :
  ¬ (left_type ∈ numeric_types ∧ right_type ∈ numeric_types) →
  in_list left_type numeric_types && in_list right_type numeric_types = false.
Proof.
  intros H. unfold in_list.
  destruct (bool_decide_reflect (left_type ∈ numeric_types)); [|done].
  destruct (bool_decide_reflect (right_type ∈ numeric_types)); [|done].
  by destruct H.
Qed.

Lemma numeric_cases (t : string) : t ∈ numeric_types → t = "integer" ∨ t = "real".
Proof.
  unfold numeric_types. rewrite !elem_of_cons, elem_of_nil.
  intros [? | [? | []]]; auto.
Qed.

(** C5. Under [+], [-], [*] and [/], with both operand types among
    [integer] and [real], the result type is [real] when an operand type
    is [real] and [integer] when both are [integer]; when an operand type
    is not numeric the check fails with the incompatible-types error that
    names both types and the operator. The analyzer applies this check to
    the types of the operands of a [BinOpNode]. *)
Theorem arithmetic_result_type (op left_type right_type : string) :
  op ∈ arithmetic_ops →
  (left_type ∈ numeric_types → right_type ∈ numeric_types →
   check_binary_operation left_type (VStr op) right_type
   = Ok (if bool_decide (left_type = "real" ∨ right_type = "real")
         then "real" else "integer"))
  ∧ (¬ (left_type ∈ numeric_types ∧ right_type ∈ numeric_types) →
     check_binary_operation left_type (VStr op) right_type
     = Err ("Type error: Incompatible types " +:+ left_type +:+ " and "
            +:+ right_type +:+ " for operator " +:+ op))
  ∧ (∀ (left_ right_ : expr) (tok : Token) (symbol_table : gmap string string),
       tok_value tok = VStr op →
       analyze_expr left_ symbol_table = Ok left_type →
       analyze_expr right_ symbol_table = Ok right_type →
       analyze_expr (BinOpNode left_ tok right_) symbol_table
       = check_binary_operation left_type (VStr op) right_type).
Proof.
  intros Hop. split; [|split].
  - intros [-> | ->]%numeric_cases [-> | ->]%numeric_cases;
      unfold check_binary_operation, value_in; rewrite (in_list_true _ _ Hop);
      reflexivity.
  - intros Hnot. unfold check_binary_operation, value_in.
    rewrite (in_list_true _ _ Hop), (both_numeric_false _ _ Hnot). reflexivity.
  - intros l r tok st Hv Hl Hr. cbn [analyze_expr]. by rewrite Hl, Hr, Hv.
Qed.

(** C4. An assignment whose target is declared with a type that differs
    from the type of the expression, the two not both numeric, fails in
    the analyzer with the error that names the expression's type, the
    declared type and the variable; it passes when both types are numeric
    or the types are equal. Assigning a boolean expression to an integer
    variable is such a failure, and the parser accepts the program that
    the analyzer then rejects. *)
Theorem assignment_type_rule (var_name : string) (expression : expr)
    (symbol_table : gmap string string) (var_type expr_type : string) :
  symbol_table !! var_name = Some var_type →
  analyze_expr expression symbol_table = Ok expr_type →
  (var_type ≠ expr_type →
   ¬ (var_type ∈ numeric_types ∧ expr_type ∈ numeric_types) →
   analyze_stmt (AssignmentNode var_name expression) symbol_table
   = Err ("Type error: Cannot assign " +:+ expr_type +:+ " to " +:+ var_type
          +:+ " variable '" +:+ var_name +:+ "'"))
  ∧ (var_type ∈ numeric_types → expr_type ∈ numeric_types →
     analyze_stmt (AssignmentNode var_name expression) symbol_table = Ok tt)
  ∧ (var_type = expr_type →
     analyze_stmt (AssignmentNode var_name expression) symbol_table = Ok tt)
  ∧ (var_type = "integer" → expr_type = "boolean" →
     analyze_stmt (AssignmentNode var_name expression) symbol_table
     = Err ("Type error: Cannot assign boolean to integer variable '"
            +:+ var_name +:+ "'"))
  ∧ (∃ ast,
       parse_source 8 "program p; var x: integer; begin x := true end." = Ok ast
       ∧ prog_statements ast = [AssignmentNode "x" (BooleanNode true)]
       ∧ analyze ast = Err "Type error: Cannot assign boolean to integer variable 'x'").
Proof.
  intros Hvar Hexpr.
  assert (Hstep : analyze_stmt (AssignmentNode var_name expression) symbol_table
                  = check_assignment var_name var_type expr_type).
  { cbn [analyze_stmt]. by rewrite Hvar, Hexpr. }
  rewrite Hstep. unfold check_assignment. repeat split.
  - intros Hne Hnot. rewrite (both_numeric_false _ _ Hnot).
    by apply String.eqb_neq in Hne as ->.
  - intros Hv He. rewrite (in_list_true _ _ Hv), (in_list_true _ _ He).
    by rewrite andb_false_r.
  - intros <-. by rewrite String.eqb_refl.
  - by intros -> ->.
  - eexists. split; [vm_compute; reflexivity |]. split; [reflexivity |].
    vm_compute. reflexivity.
Qed.

Lemma analyze_declaration_lookup (node : DeclarationNode)
    (symbol_table : gmap string string) (x : string) :
  analyze_declaration node symbol_table !! x
  = if bool_decide (x ∈ identifiers node) then Some (type_name (type_node node))
    else symbol_table !! x.
Proof.
  clear pyfloat float_of_numeral str_of_float.
  unfold analyze_declaration. generalize (type_name (type_node node)) as ty.
  intros ty. revert symbol_table.
  induction (identifiers node) as [|i ids IH] using rev_ind; intros st.
  - reflexivity.
  - rewrite foldl_snoc. destruct (decide (x = i)) as [-> | Hne].
    + rewrite lookup_insert_eq, bool_decide_eq_true_2; [done |].
      apply elem_of_app. right. by apply list_elem_of_singleton.
    + rewrite lookup_insert_ne by done. rewrite IH.
      apply (f_equal (fun b : bool => if b then _ else _)).
      apply bool_decide_ext. rewrite elem_of_app, list_elem_of_singleton.
      split; [by left | by intros [? | ?]].
Qed.

(** The analyzer's table after a declaration list: an identifier has the
    type of the last declaration that lists it. *)
Lemma analyze_declarations_last (before after : list DeclarationNode)
    (node : DeclarationNode) (symbol_table : gmap string string) (x : string) :
  x ∈ identifiers node →
  Forall (fun later => x ∉ identifiers later) after →
  foldl (fun table decl => analyze_declaration decl table) symbol_table
        (before ++ node :: after) !! x
  = Some (type_name (type_node node)).
Proof.
  intros Hx Hafter. rewrite foldl_app. cbn [foldl].
  set (table := analyze_declaration node _).
  assert (Htable : table !! x = Some (type_name (type_node node))).
  { unfold table. rewrite analyze_declaration_lookup. by rewrite bool_decide_eq_true_2. }
  clearbody table. revert table Htable.
  induction Hafter as [|later after Hlater _ IH]; intros table Htable; [done |].
  cbn [foldl]. apply IH. rewrite analyze_declaration_lookup.
  by rewrite bool_decide_eq_false_2.
Qed.

(** ** The parser's declaration table *)

Lemma listed_twice_cons_in (name : string) (ids : list string) :
  name ∈ ids → listed_twice name (name :: ids).
Proof.
  intros (l2 & l3 & ->)%list_elem_of_split. by exists [], l2, l3.
Qed.

Lemma listed_twice_cons (name other : string) (ids : list string) :
  listed_twice name ids → listed_twice name (other :: ids).
Proof. intros (l1 & l2 & l3 & ->). by exists (other :: l1), l2, l3. Qed.

Lemma declare_declared (name type_name : string) (st : SymbolTable) :
  is_declared name st = true →
  declare name type_name st = Err (already_declared_msg name st).
Proof. intros H. unfold declare. by rewrite H. Qed.

Lemma declare_fresh (name type_name : string) (st : SymbolTable) :
  is_declared name st = false →
  ∃ st', declare name type_name st = Ok st'
         ∧ st_current_token st' = st_current_token st
         ∧ ∀ x, is_declared x st' = true ↔ x = name ∨ is_declared x st = true.
Proof.
  intros H. unfold declare. rewrite H. eexists. split; [reflexivity |].
  split; [reflexivity |]. intros x. unfold is_declared. cbn [symbols].
  rewrite !bool_decide_eq_true. destruct (decide (x = name)) as [-> | Hne].
  - rewrite lookup_insert_eq. split; eauto.
  - rewrite lookup_insert_ne by done. split; [eauto | by intros [? | ?]].
Qed.

(** The loop of [declaration] fails at the first identifier that is in the
    table already or was listed before in the same declaration. *)
Lemma declare_each_duplicate (ids : list string) (type_name : string) :
  ∀ st : SymbolTable,
    (¬ NoDup ids ∨ ∃ x, x ∈ ids ∧ is_declared x st = true) →
    ∃ y, y ∈ ids
         ∧ (is_declared y st = true ∨ listed_twice y ids)
         ∧ declare_each ids type_name st = Err (already_declared_msg y st).
Proof.
  induction ids as [|a ids IH]; intros st Hdup.
  - destruct Hdup as [Hdup | (x & Hx & _)]; [destruct Hdup; constructor |].
    by apply elem_of_nil in Hx.
  - cbn [declare_each].
    destruct (is_declared a st) eqn:Ha.
    + exists a. rewrite declare_declared by done.
      split; [apply elem_of_cons; by left |]. split; [by left | done].
    + destruct (declare_fresh a type_name st Ha) as (st' & -> & Htok & Hdom).
      cbn [mbind result_bind].
      destruct (IH st') as (y & Hy & Hwhy & Herr).
      { destruct (decide (a ∈ ids)) as [Hin | Hnin].
        - right. exists a. split; [done |]. apply Hdom. by left.
        - destruct Hdup as [Hdup | (x & Hx & Hdecl)].
          + left. intros Hnd. apply Hdup. by apply NoDup_cons.
          + right. exists x. apply elem_of_cons in Hx as [-> | Hx]; [congruence |].
            split; [done |]. apply Hdom. by right. }
      exists y. split; [apply elem_of_cons; by right |]. split.
      * destruct Hwhy as [Hdecl | Htwice].
        -- apply Hdom in Hdecl as [-> | Hdecl]; [|by left].
           right. by apply listed_twice_cons_in.
        -- right. by apply listed_twice_cons.
      * rewrite Herr. unfold already_declared_msg. by rewrite Htok.
Qed.

Lemma declare_each_declared (ids : list string) (type_name : string) :
  ∀ st st' : SymbolTable,
    declare_each ids type_name st = Ok st' →
    ∀ x, is_declared x st' = true ↔ x ∈ ids ∨ is_declared x st = true.
Proof.
  induction ids as [|a ids IH]; intros st st'; cbn [declare_each].
  - intros [= <-] x. rewrite elem_of_nil. split; [by right | by intros [[] | ?]].
  - destruct (is_declared a st) eqn:Ha.
    + by rewrite declare_declared.
    + destruct (declare_fresh a type_name st Ha) as (st1 & -> & _ & Hdom).
      cbn [mbind result_bind]. intros H x.
      rewrite (IH _ _ H), Hdom, elem_of_cons.
      split; [intros [? | [? | ?]] | intros [[? | ?] | ?]]; auto.
Qed.

(** Consuming tokens leaves the table as it is. *)
Lemma eat_symbol_table (token_type : TokenType) (p p' : Parser) :
  eat token_type p = Ok p' → symbol_table p' = symbol_table p.
Proof.
  unfold eat. destruct (bool_decide _); [|done].
  destruct (get_next_token (lexer p)) as [[tok lx]| |]; [|done..].
  by intros [= <-].
Qed.

Lemma id_list_loop_symbol_table (fuel : nat) :
  ∀ ids p ids' p',
    id_list_loop fuel ids p = Ok (ids', p') → symbol_table p' = symbol_table p.
Proof.
  induction fuel as [|fuel IH]; intros ids p ids' p'; cbn [id_list_loop]; [done |].
  destruct (peek COMMA p); [|by intros [= _ <-]].
  destruct (eat COMMA p) as [p1| |] eqn:E1; [|done..]. step_bind.
  destruct (eat ID p1) as [p2| |] eqn:E2; [|done..]. step_bind.
  intros H%IH. rewrite H, (eat_symbol_table _ _ _ E2). by apply eat_symbol_table in E1.
Qed.

Lemma id_list_symbol_table (fuel : nat) (p : Parser) (ids : list string) (p' : Parser) :
  id_list fuel p = Ok (ids, p') → symbol_table p' = symbol_table p.
Proof.
  unfold id_list. destruct (eat ID p) as [p1| |] eqn:E1; [|done..]. step_bind.
  intros H%id_list_loop_symbol_table. rewrite H. by apply eat_symbol_table in E1.
Qed.

Lemma type_symbol_table (p : Parser) (node : TypeNode) (p' : Parser) :
  type p = Ok (node, p') → symbol_table p' = symbol_table p.
Proof.
  unfold type. destruct (expect_in _ _ p); [|done..]. step_bind.
  repeat (destruct (peek _ p);
          [match goal with
           | |- context [eat ?t p] =>
               destruct (eat t p) as [p1| |] eqn:E; [|done..]; step_bind;
               intros [= _ <-]; by apply eat_symbol_table in E
           end |]).
  done.
Qed.

Lemma declaration_unfold (fuel : nat) (p : Parser) (ids : list string)
    (p1 p2 : Parser) (node : TypeNode) (p3 : Parser) :
  id_list fuel p = Ok (ids, p1) →
  eat COLON p1 = Ok p2 →
  type p2 = Ok (node, p3) →
  symbol_table p3 = symbol_table p
  ∧ declaration fuel p
    = (st ← declare_each ids (type_name node) (symbol_table p);
       Ok (mkDeclarationNode ids node, with_symbol_table p3 st)).
Proof.
  intros Hids Hcolon Htype.
  assert (Hst : symbol_table p3 = symbol_table p).
  { rewrite (type_symbol_table _ _ _ Htype), (eat_symbol_table _ _ _ Hcolon).
    by apply id_list_symbol_table in Hids. }
  split; [done |].
  unfold declaration. rewrite Hids. step_bind. rewrite Hcolon. step_bind.
  rewrite Htype. step_bind. by rewrite Hst.
Qed.

Lemma declaration_declared (fuel : nat) (p : Parser) (d : DeclarationNode) (p' : Parser) :
  declaration fuel p = Ok (d, p') →
  ∀ x, is_declared x (symbol_table p') = true
       ↔ x ∈ identifiers d ∨ is_declared x (symbol_table p) = true.
Proof.
  unfold declaration.
  destruct (id_list fuel p) as [[ids p1]| |] eqn:Hids; [|done..]. step_bind.
  destruct (eat COLON p1) as [p2| |] eqn:Hcolon; [|done..]. step_bind.
  destruct (type p2) as [[node p3]| |] eqn:Htype; [|done..]. step_bind.
  destruct (declare_each _ _ _) as [st| |] eqn:Hdecl; [|done..]. step_bind.
  intros [= <- <-] x. cbn [symbol_table with_symbol_table identifiers].
  rewrite (declare_each_declared _ _ _ _ Hdecl).
  rewrite (type_symbol_table _ _ _ Htype), (eat_symbol_table _ _ _ Hcolon).
  by rewrite (id_list_symbol_table _ _ _ _ Hids).
Qed.

(** C3. In the parser, a declaration whose identifier list names an
    identifier that the table holds already (from an earlier declaration,
    since a parsed declaration puts its identifiers in the table) or that
    it lists twice, fails with the already-declared error that names such
    an identifier; so do the two forms of a duplicate in a source text.
    The analyzer does not check: given a program node, it gives each
    identifier the type of the last declaration that lists it, whatever
    came before, and fails only if a statement does. *)
Theorem duplicate_declaration :
  (∀ (fuel : nat) (p : Parser) (ids : list string) (p1 p2 : Parser)
     (node : TypeNode) (p3 : Parser),
      id_list fuel p = Ok (ids, p1) →
      eat COLON p1 = Ok p2 →
      type p2 = Ok (node, p3) →
      (¬ NoDup ids ∨ ∃ x, x ∈ ids ∧ is_declared x (symbol_table p) = true) →
      ∃ y, y ∈ ids
           ∧ (is_declared y (symbol_table p) = true ∨ listed_twice y ids)
           ∧ declaration fuel p = Err (already_declared_msg y (symbol_table p)))
  ∧ (∀ (fuel : nat) (p : Parser) (d : DeclarationNode) (p' : Parser),
        declaration fuel p = Ok (d, p') →
        ∀ x, is_declared x (symbol_table p') = true
             ↔ x ∈ identifiers d ∨ is_declared x (symbol_table p) = true)
  ∧ parse_source 8 "program p; var x, x: integer; begin end."
    = Err "Parsing failed: Semantic error: Variable 'x' already declared at line 1"
  ∧ parse_source 8 "program p; var x: integer; y: real; x: boolean; begin end."
    = Err "Parsing failed: Semantic error: Variable 'x' already declared at line 1"
  ∧ (∀ (name : string) (before after : list DeclarationNode) (node : DeclarationNode)
       (stmts : list stmt) (x : string),
        x ∈ identifiers node →
        Forall (fun later => x ∉ identifiers later) after →
        ∃ table : gmap string string,
          table !! x = Some (type_name (type_node node))
          ∧ analyze (mkProgramNode name (before ++ node :: after) stmts)
            = (_ ← analyze_stmts stmts table; Ok table)
          ∧ analyze (mkProgramNode name (before ++ node :: after) []) = Ok table).
Proof.
  split; [|split; [|split; [|split]]].
  - intros fuel p ids p1 p2 node p3 Hids Hcolon Htype Hdup.
    destruct (declaration_unfold _ _ _ _ _ _ _ Hids Hcolon Htype) as [_ ->].
    destruct (declare_each_duplicate ids (type_name node) (symbol_table p) Hdup)
      as (y & Hy & Hwhy & ->).
    by exists y.
  - apply declaration_declared.
  - vm_compute. reflexivity.
  - vm_compute. reflexivity.
  - intros name before after node stmts x Hx Hafter.
    eexists. split; [by apply (analyze_declarations_last before after node ∅ x) |].
    split; reflexivity.
Qed.

Lemma peek_type (token_type : TokenType) (p : Parser) :
  peek token_type p = true → tok_type (current_token p) = token_type.
Proof. unfold peek. apply bool_decide_eq_true_1. Qed.


(** ** The parser's budget

    A run that ends within its budget ends the same way within any larger
    one: the outcome of parsing does not depend on the budget. *)

Lemma settles_refl {A : Type} (r : result A) : settles r r.
Proof. by right. Qed.

Lemma settles_out {A : Type} (r : result A) : settles OutOfFuel r.
Proof. by left. Qed.

Lemma settles_bind {A B : Type} (r r' : result A) (k k' : A → result B) :
  settles r r' → (∀ a, settles (k a) (k' a)) → settles (r ≫= k) (r' ≫= k').
Proof.
  intros [-> | ->] Hk; [by left |].
  destruct r' as [a| |]; cbn [mbind result_bind]; [apply Hk | by right | by left].
Qed.

Lemma settles_Ok {A : Type} (r r' : result A) (a : A) :
  settles r r' → r = Ok a → r' = Ok a.
Proof. intros [-> | ->]; [done | auto]. Qed.

Ltac settle :=
  repeat first
    [ apply settles_refl
    | apply settles_out
    | match goal with H : _ |- _ => apply H end
    | apply settles_bind; [| intros ?]
    | match goal with
      | |- settles (match ?x with _ => _ end) _ => destruct x
      | |- settles (let '(_, _) := ?x in _) _ => destruct x
      end ].

Lemma expression_settles (n : nat) :
  ∀ m, n ≤ m →
    (∀ p, settles (expression n p) (expression m p))
    ∧ (∀ l p, settles (expression_rest n l p) (expression_rest m l p))
    ∧ (∀ p, settles (simple_expr n p) (simple_expr m p))
    ∧ (∀ l p, settles (simple_expr_rest n l p) (simple_expr_rest m l p))
    ∧ (∀ p, settles (term n p) (term m p))
    ∧ (∀ l p, settles (term_rest n l p) (term_rest m l p))
    ∧ (∀ p, settles (factor n p) (factor m p)).
Proof.
  induction n as [|n IH]; intros m Hle.
  - repeat split; intros; apply settles_out.
  - destruct m as [|m]; [lia |].
    destruct (IH m ltac:(lia)) as (He & Her & Hs & Hsr & Ht & Htr & Hf).
    clear IH.
    repeat split; intros;
      cbn [expression expression_rest simple_expr simple_expr_rest term term_rest factor];
      settle.
Qed.

Lemma expression_mono (n m : nat) (p : Parser) :
  n ≤ m → settles (expression n p) (expression m p).
Proof. intros H. by apply expression_settles. Qed.

Lemma assignment_mono (n m : nat) (p : Parser) :
  n ≤ m → settles (assignment n p) (assignment m p).
Proof.
  intros H. pose proof (expression_mono n m) as He. unfold assignment. settle.
Qed.

Lemma write_stmt_mono (n m : nat) (p : Parser) :
  n ≤ m → settles (write_stmt n p) (write_stmt m p).
Proof.
  intros H. pose proof (expression_mono n m) as He. unfold write_stmt. settle.
Qed.

Lemma statements_settles (n : nat) :
  ∀ m, n ≤ m →
    (∀ stop p, settles (statements n stop p) (statements m stop p))
    ∧ (∀ stop acc p, settles (statements_loop n stop acc p) (statements_loop m stop acc p))
    ∧ (∀ p, settles (statement n p) (statement m p))
    ∧ (∀ p, settles (block n p) (block m p))
    ∧ (∀ p, settles (if_stmt n p) (if_stmt m p))
    ∧ (∀ p, settles (while_stmt n p) (while_stmt m p)).
Proof.
  induction n as [|n IH]; intros m Hle.
  - repeat split; intros; apply settles_out.
  - destruct m as [|m]; [lia |].
    destruct (IH m ltac:(lia)) as (Hs & Hl & Hst & Hb & Hi & Hw).
    clear IH.
    pose proof (λ p, expression_mono n m p ltac:(lia)) as He.
    pose proof (λ p, assignment_mono n m p ltac:(lia)) as Ha.
    pose proof (λ p, write_stmt_mono n m p ltac:(lia)) as Hwr.
    repeat split; intros;
      cbn [statements statements_loop statement block if_stmt while_stmt];
      settle.
Qed.

Lemma id_list_loop_mono (n : nat) :
  ∀ m ids p, n ≤ m → settles (id_list_loop n ids p) (id_list_loop m ids p).
Proof.
  induction n as [|n IH]; intros m ids p Hle; [apply settles_out |].
  destruct m as [|m]; [lia |].
  pose proof (λ ids p, IH m ids p ltac:(lia)) as IH'. clear IH.
  cbn [id_list_loop]. settle.
Qed.

Lemma declaration_mono (n m : nat) (p : Parser) :
  n ≤ m → settles (declaration n p) (declaration m p).
Proof.
  intros H. pose proof (λ ids p, id_list_loop_mono n m ids p H) as Hi.
  unfold declaration, id_list. settle.
Qed.

Lemma declaration_list_loop_mono (n : nat) :
  ∀ m decls p, n ≤ m →
    settles (declaration_list_loop n decls p) (declaration_list_loop m decls p).
Proof.
  induction n as [|n IH]; intros m decls p Hle; [apply settles_out |].
  destruct m as [|m]; [lia |].
  pose proof (λ decls p, IH m decls p ltac:(lia)) as IH'. clear IH.
  pose proof (λ p, declaration_mono n m p ltac:(lia)) as Hd.
  cbn [declaration_list_loop]. settle.
Qed.

Lemma program_mono (n m : nat) (p : Parser) :
  n ≤ m → settles (program n p) (program m p).
Proof.
  intros H.
  pose proof (λ p, declaration_mono n m p H) as Hd.
  pose proof (λ decls p, declaration_list_loop_mono n m decls p H) as Hl.
  destruct (statements_settles n m H) as (Hs & _).
  unfold program, declarations, declaration_list. settle.
Qed.

Lemma parse_source_mono (n m : nat) (source : string) :
  n ≤ m → settles (parse_source n source) (parse_source m source).
Proof.
  intros H. unfold parse_source. apply settles_bind; [apply settles_refl |].
  intros p. unfold parse. destruct (program_mono n m p H) as [-> | ->]; [by left | by right].
Qed.

(** Two parses of a source that both end give the same tree. *)
Lemma parse_source_functional (n m : nat) (source : string) (ast1 ast2 : ProgramNode) :
  parse_source n source = Ok ast1 → parse_source m source = Ok ast2 → ast1 = ast2.
Proof.
  intros H1 H2.
  pose proof (settles_Ok _ _ _ (parse_source_mono n (n `max` m) source ltac:(lia)) H1) as E1.
  pose proof (settles_Ok _ _ _ (parse_source_mono m (n `max` m) source ltac:(lia)) H2) as E2.
  congruence.
Qed.

Lemma generate_appends (node : ProgramNode) (g : TACGenerator) (tac : list string)
    (g' : TACGenerator) :
  generate node g = Ok (tac, g') →
  code g' = tac ∧ ∃ more, tac = code g ++ more ∧ more ≠ [].
Proof.
  unfold generate, generate_program, emit. destruct g as [temps labels pre].
  cbn [temp_count label_count code]. rewrite generate_stmts_at.
  destruct (generate_stmts _ _) as [gb| |]; [|done..]. step_bind.
  unfold prepend. cbn [temp_count label_count code]. intros [= <- <-].
  split; [done |]. rewrite <- !app_assoc. eexists. split; [done |]. done.
Qed.

Lemma generate_method_run (self : nat) (node : ProgramNode) (s : store) (r : nat)
    (s' : store) :
  generate_method self node s = Some (Ok (r, s')) →
  ∃ obj instructions tac g',
    generator_objects s !! self = Some obj
    ∧ list_objects s !! self_code obj = Some instructions
    ∧ generate node {| temp_count := self_temp_count obj;
                       label_count := self_label_count obj;
                       code := instructions |} = Ok (tac, g')
    ∧ r = self_code obj
    ∧ generator_objects s'
      = <[self := mkTACGenerator_object (temp_count g') (label_count g') (self_code obj)]>
          (generator_objects s)
    ∧ list_objects s' = <[self_code obj := tac]> (list_objects s)
    ∧ next_object s' = next_object s.
Proof.
  unfold generate_method.
  destruct (generator_objects s !! self) as [obj|] eqn:Hobj; [|done]. cbn.
  destruct (list_objects s !! self_code obj) as [instructions|] eqn:Hlist; [|done]. cbn.
  destruct (generate node _) as [[tac g']| |] eqn:Hgen; [|done..]. cbn.
  intros [= <- <-]. destruct (generate_appends _ _ _ _ Hgen) as [Hcode _].
  exists obj, instructions, tac, g'. cbn. rewrite Hcode. by repeat split.
Qed.

(** C6. Lowering a tree with two generators that are both newly
    constructed gives two lists with the same instructions, whatever the
    run held before: each generator has its own counters, set to zero,
    and its own list, so the second lowering neither sees nor changes
    what the first one left, and both lists hold what lowering the tree
    from zero counters and an empty list gives. State is carried by the
    generator and by nothing else: a second lowering with the same
    generator returns the same list, which then holds the instructions of
    the first lowering and, behind them, those of the second. Two parses
    of one source give the same tree, and two runs of
    [Compiler().compile] on one source that both end with an instruction
    list end with the same list. *)
Theorem generation_deterministic :
  (∀ (ast : ProgramNode) (s0 : store) (g1 : nat) (s1 : store) (r1 : nat) (s2 : store)
     (g2 : nat) (s3 : store) (r2 : nat) (s4 : store),
      TACGenerator_new s0 = (g1, s1) →
      generate_method g1 ast s1 = Some (Ok (r1, s2)) →
      TACGenerator_new s2 = (g2, s3) →
      generate_method g2 ast s3 = Some (Ok (r2, s4)) →
      ∃ tac g',
        generate ast TACGenerator_init = Ok (tac, g')
        ∧ r1 ≠ r2
        ∧ list_objects s2 !! r1 = Some tac
        ∧ list_objects s4 !! r1 = Some tac
        ∧ list_objects s4 !! r2 = Some tac)
  ∧ (∀ (ast : ProgramNode) (s0 : store) (g1 : nat) (s1 : store) (r1 : nat) (s2 : store)
       (r2 : nat) (s3 : store),
        TACGenerator_new s0 = (g1, s1) →
        generate_method g1 ast s1 = Some (Ok (r1, s2)) →
        generate_method g1 ast s2 = Some (Ok (r2, s3)) →
        r2 = r1
        ∧ ∃ tac more,
            list_objects s2 !! r1 = Some tac
            ∧ list_objects s3 !! r1 = Some (tac ++ more)
            ∧ tac ≠ [] ∧ more ≠ [])
  ∧ (∀ (n m : nat) (source : string) (ast1 ast2 : ProgramNode),
        parse_source n source = Ok ast1 →
        parse_source m source = Ok ast2 →
        ast1 = ast2)
  ∧ (∀ (n m : nat) (source : string) (tac1 tac2 : list string),
        compile n source = Compiled tac1 →
        compile m source = Compiled tac2 →
        tac1 = tac2).
Proof.
  split; [|split; [|split]]; cycle 1.
  - intros ast s0 g1 s1 r1 s2 r2 s3 [= <- <-] Hrun1 Hrun2.
    apply generate_method_run in Hrun1
      as (obj1 & i1 & tac1 & g1' & Hobj1 & Hl1 & Hgen1 & -> & Hobjs2 & Hlists2 & _).
    apply generate_method_run in Hrun2
      as (obj2 & i2 & tac2 & g2' & Hobj2 & Hl2 & Hgen2 & -> & _ & Hlists3 & _).
    cbn [generator_objects list_objects next_object] in *.
    rewrite lookup_insert_eq in Hobj1. injection Hobj1 as <-.
    cbn [self_code self_temp_count self_label_count] in *.
    rewrite Hobjs2, lookup_insert_eq in Hobj2. injection Hobj2 as <-.
    cbn [self_code self_temp_count self_label_count] in *.
    rewrite lookup_insert_eq in Hl1. injection Hl1 as <-.
    rewrite Hlists2, lookup_insert_eq in Hl2. injection Hl2 as <-.
    destruct (generate_appends _ _ _ _ Hgen1) as (_ & more1 & Htac1 & Hmore1).
    destruct (generate_appends _ _ _ _ Hgen2) as (_ & more2 & Htac2 & Hmore2).
    cbn [code] in Htac1, Htac2. split; [done |].
    exists tac1, more2. rewrite Hlists3, Hlists2, !lookup_insert_eq, <- Htac2.
    repeat split; [|done]. by rewrite Htac1.
  - intros n m source ast1 ast2 H1 H2. by eapply parse_source_functional.
  - intros n m source tac1 tac2. unfold compile.
    destruct (tokenize n _); [|done..]. destruct (tokenize m _); [|done..].
    destruct (parse_source n source) as [ast1| |] eqn:H1; [|done..].
    destruct (parse_source m source) as [ast2| |] eqn:H2; [|done..].
    rewrite (parse_source_functional _ _ _ _ _ H1 H2).
    destruct (analyze ast2); [|done..].
    destruct (generate ast2 TACGenerator_init) as [[tac g]| |]; [|done..].
    congruence.
  - intros ast s0 g1 s1 r1 s2 g2 s3 r2 s4 [= <- <-] Hrun1 [= <- <-] Hrun2.
    apply generate_method_run in Hrun1
      as (obj1 & i1 & tac1 & g1' & Hobj1 & Hl1 & Hgen1 & -> & _ & Hlists2 & Hnext2).
    apply generate_method_run in Hrun2
      as (obj2 & i2 & tac2 & g2' & Hobj2 & Hl2 & Hgen2 & -> & _ & Hlists4 & _).
    cbn [generator_objects list_objects next_object] in *.
    rewrite lookup_insert_eq in Hobj1. injection Hobj1 as <-.
    rewrite lookup_insert_eq in Hobj2. injection Hobj2 as <-.
    cbn [self_code self_temp_count self_label_count] in *.
    rewrite lookup_insert_eq in Hl1. injection Hl1 as <-.
    rewrite lookup_insert_eq in Hl2. injection Hl2 as <-.
    change {| temp_count := 0; label_count := 0; code := [] |}
      with TACGenerator_init in *.
    rewrite Hgen1 in Hgen2. injection Hgen2 as <- <-.
    exists tac1, g1'. rewrite Hlists4, Hlists2, Hnext2.
    repeat split; [done | lia | by rewrite lookup_insert_eq | | by rewrite lookup_insert_eq].
    rewrite lookup_insert_ne, lookup_insert_ne, lookup_insert_eq by lia. done.
Qed.

(** ** The scanner on blanks, comments and words *)

Lemma advance_step (c : ascii) (rest : string) (line col : nat) :
  advance (mkLexer (String c rest) line col)
  = mkLexer rest (fst (position_after (String c EmptyString) line col))
      (snd (position_after (String c EmptyString) line col)).
Proof.
  unfold advance, current_char. simpl. by destruct (Ascii.eqb c newline).
Qed.

Lemma position_after_app (w v : string) :
  ∀ line col,
    position_after (w +:+ v) line col
    = position_after v (fst (position_after w line col)) (snd (position_after w line col)).
Proof.
  induction w as [|c w IH]; intros line col; [reflexivity |].
  rewrite append_cons. simpl. destruct (Ascii.eqb c newline); apply IH.
Qed.

(** A run of characters that the condition accepts is consumed whole,
    newlines included. *)
Lemma advance_while_span (cond : ascii → bool) (w : string) :
  ∀ (n : nat) (acc tail : string) (line col : nat),
    string_forallb cond w = true →
    halts_at cond tail →
    String.length w ≤ n →
    advance_while cond n acc (mkLexer (w +:+ tail) line col)
    = (acc +:+ w,
       mkLexer tail (fst (position_after w line col)) (snd (position_after w line col))).
Proof.
  induction w as [|c w IH]; intros n acc tail line col Hw Htail Hn;
    rewrite ?append_cons, ?append_nil_l; simpl in *.
  - rewrite append_nil_r.
    destruct n as [|n]; simpl; [reflexivity |].
    destruct tail as [|d tail]; [reflexivity |]. simpl in *. by rewrite Htail.
  - apply andb_prop in Hw as [Hc Hw].
    destruct n as [|n]; [lia |]. simpl. rewrite Hc.
    rewrite advance_step, IH by (auto; lia).
    rewrite append_snoc. simpl. by destruct (Ascii.eqb c newline).
Qed.

(** The budget of the loop of [get_next_token] does not matter once it
    exceeds what is left of the text. *)
Lemma get_next_token_loop_enough (n : nat) :
  ∀ m lx, remaining lx < n → remaining lx < m →
          get_next_token_loop n lx = get_next_token_loop m lx.
Proof.
  induction n as [|n IH]; intros m lx Hn Hm; [lia |].
  destruct m as [|m]; [lia |].
  cbn [get_next_token_loop].
  destruct (current_char lx) as [c|] eqn:Hc; [|done].
  destruct (isspace c) eqn:Hspace.
  { pose proof (advance_while_progress isspace "" lx c Hc Hspace).
    apply IH; unfold skip_whitespace; lia. }
  destruct (char_is lx "{") eqn:Hbrace; [|done].
  assert (Hnl : negb (Ascii.eqb c newline) = true).
  { unfold char_is in Hbrace. rewrite Hc in Hbrace.
    apply String.eqb_eq in Hbrace as [= ->]. reflexivity. }
  pose proof (advance_while_progress (fun c => negb (Ascii.eqb c newline)) "" lx c Hc Hnl).
  apply IH; unfold skip_comment; rewrite remaining_advance; lia.
Qed.

Lemma get_next_token_loop_is (n : nat) (lx : Lexer) :
  remaining lx < n → get_next_token_loop n lx = get_next_token lx.
Proof. intros H. apply get_next_token_loop_enough; [done | lia]. Qed.

(** X1. Blanks before a token are skipped: the token is the one scanned at
    the first character that is not a blank, from the line and column
    reached over the blanks (a newline among them starts a line). *)
Theorem blanks_skipped (w tail : string) (line col : nat) :
  w ≠ "" →
  string_forallb isspace w = true →
  halts_at isspace tail →
  get_next_token (mkLexer (w +:+ tail) line col)
  = get_next_token
      (mkLexer tail (fst (position_after w line col)) (snd (position_after w line col))).
Proof.
  intros Hne Hw Htail.
  destruct w as [|c w]; [done |]. clear Hne.
  pose proof Hw as Hw'. simpl in Hw'. apply andb_prop in Hw' as [Hc _].
  unfold get_next_token at 1. cbn [get_next_token_loop].
  unfold current_char. rewrite append_cons. cbn [lx_rest]. rewrite Hc.
  unfold skip_whitespace, remaining. cbn [lx_rest].
  rewrite <- append_cons.
  rewrite (advance_while_span isspace (String c w)) by (auto; rewrite length_append; lia).
  cbn [snd]. apply get_next_token_loop_is.
  unfold remaining. cbn [lx_rest]. rewrite length_append. simpl. lia.
Qed.

Lemma not_newline_span (body : string) :
  string_forallb (fun c => negb (Ascii.eqb c newline)) body = true →
  ∀ line col, position_after body line col = (line, col + String.length body).
Proof.
  induction body as [|c body IH]; intros Hbody line col; simpl in *.
  - by rewrite Nat.add_0_r.
  - apply andb_prop in Hbody as [Hc Hbody].
    apply negb_true_iff in Hc. rewrite Hc, IH by done. f_equal. lia.
Qed.

(** X2. An opening brace starts a comment that runs to the end of the
    line, whatever it holds (a closing brace does not end it): the token is
    the one scanned at the start of the next line. A comment on the last
    line, with no newline after it, is followed by the end of the input. *)
Theorem comment_runs_to_end_of_line (body tail : string) (line col : nat) :
  string_forallb (fun c => negb (Ascii.eqb c newline)) body = true →
  get_next_token (mkLexer ("{" +:+ body +:+ nl +:+ tail) line col)
  = get_next_token (mkLexer tail (line + 1) 1)
  ∧ get_next_token (mkLexer ("{" +:+ body) line col)
    = Ok (mkToken EOF VNone line (col + 1 + String.length body + 1),
          mkLexer "" line (col + 1 + String.length body + 1)).
Proof.
  intros Hbody.
  assert (Hrun : string_forallb (fun c => negb (Ascii.eqb c newline)) ("{" +:+ body) = true).
  { rewrite append_cons, append_nil_l. simpl. exact Hbody. }
  assert (Hlen : String.length ("{" +:+ body) = 1 + String.length body).
  { by rewrite length_append. }
  split.
  - unfold get_next_token at 1. cbn [get_next_token_loop].
    unfold current_char, char_is, current_char.
    rewrite append_cons, append_nil_l. cbn [lx_rest].
    change (isspace "{") with false. change (String.eqb "{" "{") with true. cbn iota.
    unfold skip_comment, remaining. cbn [lx_rest].
    replace (String "{" (body +:+ nl +:+ tail)) with (("{" +:+ body) +:+ (nl +:+ tail)).
    2:{ rewrite append_cons, append_nil_l. reflexivity. }
    rewrite (advance_while_span _ ("{" +:+ body)); [| done | reflexivity |].
    2:{ rewrite !length_append. lia. }
    cbn [snd]. rewrite (not_newline_span _ Hrun). cbn [fst snd].
    change (nl +:+ tail) with (String newline tail).
    rewrite advance_step. change (Ascii.eqb newline newline) with true. cbn [fst snd].
    apply get_next_token_loop_is. unfold remaining. cbn [lx_rest].
    rewrite !length_append. simpl. lia.
  - unfold get_next_token at 1. cbn [get_next_token_loop].
    unfold current_char, char_is, current_char.
    rewrite append_cons, append_nil_l. cbn [lx_rest].
    change (isspace "{") with false. change (String.eqb "{" "{") with true. cbn iota.
    unfold skip_comment, remaining. cbn [lx_rest].
    replace (String "{" body) with (("{" +:+ body) +:+ "").
    2:{ rewrite append_nil_r, append_cons, append_nil_l. reflexivity. }
    rewrite (advance_while_span _ ("{" +:+ body)); [| done | reflexivity |].
    2:{ rewrite !length_append. lia. }
    cbn [snd]. rewrite (not_newline_span _ Hrun). cbn [fst snd].
    rewrite Hlen. unfold advance, current_char. cbn [lx_rest lx_line lx_column].
    rewrite length_append, Hlen. cbn [Nat.add get_next_token_loop].
    unfold current_char. cbn [lx_rest lx_line lx_column].
    by replace (col + S (String.length body) + 1) with (col + 1 + String.length body + 1)
      by lia.
Qed.

Lemma word_start_dispatch (c : ascii) :
  isalpha c || is_underscore c = true →
  isspace c = false ∧ String.eqb (String c "") "{" = false ∧ is_word_char c = true.
Proof. destruct c as [[] [] [] [] [] [] [] []]; vm_compute; intuition congruence. Qed.

Lemma word_char_not_newline (c : ascii) :
  is_word_char c = true → negb (Ascii.eqb c newline) = true.
Proof. destruct c as [[] [] [] [] [] [] [] []]; vm_compute; congruence. Qed.

(** No keyword of the table is looked up as [ID]: a word is an identifier
    exactly when its lower-case form is not a key. *)
Lemma keyword_lookup_ID (k : string) :
  dict_get keywords k ID = ID ↔ dict_find keywords k = None.
Proof.
  unfold keywords. cbn [dict_get dict_find].
  repeat match goal with
         | |- context [String.eqb ?a k] => destruct (String.eqb a k); [done |]
         end.
  done.
Qed.

(** X3. A word (a letter or underscore, then letters, digits and
    underscores, up to the first other character) is scanned whole. Its
    token holds the text as written; its kind is the keyword that the
    lower-case form of the text names, whatever the case of its letters,
    and [ID] exactly when the lower-case form is no keyword. The token's
    column is the column after the word. *)
Theorem word_scanned (c : ascii) (w tail : string) (line col : nat) :
  isalpha c || is_underscore c = true →
  string_forallb is_word_char w = true →
  halts_at is_word_char tail →
  get_next_token (mkLexer (String c w +:+ tail) line col)
  = Ok (mkToken (dict_get keywords (lower (String c w)) ID) (VStr (String c w))
          line (col + String.length (String c w)),
        mkLexer tail line (col + String.length (String c w)))
  ∧ (dict_get keywords (lower (String c w)) ID = ID
     ↔ dict_find keywords (lower (String c w)) = None).
Proof.
  intros Hc Hw Htail. split; [|apply keyword_lookup_ID].
  destruct (word_start_dispatch c Hc) as (Hspace & Hbrace & Hword).
  assert (Hrun : string_forallb is_word_char (String c w) = true).
  { simpl. by rewrite Hword, Hw. }
  unfold get_next_token. cbn [get_next_token_loop].
  unfold current_char, char_is, current_char. rewrite append_cons. cbn [lx_rest].
  rewrite Hspace, Hbrace, Hc. rewrite <- append_cons.
  unfold identifier, remaining. cbn [lx_rest].
  change (fun c0 : ascii => isalnum c0 || is_underscore c0) with is_word_char.
  rewrite (advance_while_span is_word_char (String c w));
    [| done | done | rewrite length_append; lia].
  rewrite (not_newline_span (String c w)).
  2:{ revert Hrun. apply forallb_weaken, word_char_not_newline. }
  rewrite append_nil_l. reflexivity.
Qed.

(** ** What a token holds, and what a token consumes *)

Lemma keyword_lookup_kind (k : string) :
  dict_get keywords k ID ≠ NUMBER ∧ dict_get keywords k ID ≠ EOF.
Proof.
  unfold keywords. cbn [dict_get].
  repeat match goal with
         | |- context [String.eqb ?a k] => destruct (String.eqb a k); [done |]
         end.
  done.
Qed.

Lemma number_kind (lx : Lexer) (token : Token) (lx' : Lexer) :
  number lx = Ok (token, lx') →
  tok_type token = NUMBER
  ∧ ((∃ n, tok_value token = VInt n) ∨ (∃ f, tok_value token = VFloat f))
  ∧ remaining lx' ≤ remaining lx.
Proof.
  unfold number.
  pose proof (advance_while_remaining isdigit (remaining lx) "" lx) as H1.
  destruct (advance_while isdigit _ _ lx) as [r1 lx1]. cbn [snd] in H1.
  assert (Hint : (py_int r1 ≫= λ n, Ok (mkToken NUMBER (VInt n) (lx_line lx1) (lx_column lx1), lx1))
                 = Ok (token, lx') →
                 tok_type token = NUMBER
                 ∧ ((∃ n, tok_value token = VInt n) ∨ (∃ f, tok_value token = VFloat f))
                 ∧ remaining lx' ≤ remaining lx).
  { destruct (py_int r1) as [n| |]; [|done..]. intros [= <- <-]. eauto 6. }
  destruct (current_char lx1) as [c|]; [|exact Hint].
  destruct (is_dot c); [|exact Hint].
  pose proof (advance_while_remaining isdigit (remaining (advance lx1))
                (r1 +:+ String c "") (advance lx1)) as H3.
  destruct (advance_while isdigit _ _ (advance lx1)) as [r3 lx3]. cbn [snd] in H3.
  rewrite remaining_advance in H3.
  destruct (py_float r3) as [f| |]; [|done..]. intros [= <- <-].
  split; [done |]. split; [eauto |]. lia.
Qed.

Lemma get_next_token_kind (lx : Lexer) (token : Token) (lx' : Lexer) :
  get_next_token lx = Ok (token, lx') →
  match tok_type token with
  | NUMBER => (∃ n, tok_value token = VInt n) ∨ (∃ f, tok_value token = VFloat f)
  | EOF => tok_value token = VNone ∧ lx_rest lx' = EmptyString
  | _ => ∃ text, tok_value token = VStr text
  end
  ∧ (tok_type token ≠ EOF → remaining lx' < remaining lx).
Proof.
  unfold get_next_token. generalize (S (remaining lx)) as n.
  intros n. revert lx.
  induction n as [|n IH]; intros lx; [done |].
  cbn [get_next_token_loop].
  destruct (current_char lx) as [c|] eqn:Hc.
  2:{ intros [= <- <-]. cbn [tok_type tok_value].
      unfold current_char in Hc. destruct (lx_rest lx); done. }
  assert (Hpos : 0 < remaining lx).
  { unfold current_char, remaining in *. destruct (lx_rest lx); [done | simpl; lia]. }
  destruct (isspace c) eqn:Hspace.
  { intros H. apply IH in H as [H1 H2]. split; [done |].
    intros Hne. specialize (H2 Hne). unfold skip_whitespace in H2.
    pose proof (advance_while_remaining isspace (remaining lx) "" lx). lia. }
  destruct (char_is lx "{") eqn:Hbrace.
  { intros H. apply IH in H as [H1 H2]. split; [done |].
    intros Hne. specialize (H2 Hne). unfold skip_comment in H2.
    rewrite remaining_advance in H2.
    pose proof (advance_while_remaining (fun c => negb (Ascii.eqb c newline))
                  (remaining lx) "" lx). lia. }
  destruct (isalpha c || is_underscore c) eqn:Hword.
  { unfold identifier.
    destruct (word_start_dispatch c Hword) as (_ & _ & Hwc).
    pose proof (advance_while_progress (fun c => isalnum c || is_underscore c) "" lx c Hc Hwc)
      as Hprog.
    destruct (advance_while _ _ _ lx) as [r lx1]. cbn [snd] in Hprog.
    generalize (keyword_lookup_kind (lower r)).
    generalize (dict_get keywords (lower r) ID) as ty.
    intros ty [Hn He] [= <- <-]. cbn [tok_type tok_value].
    split; [|done].
    destruct ty; try done; eauto. }
  destruct (isdigit c) eqn:Hdigit.
  { intros H. pose proof H as H'. apply number_kind in H as (Hty & Hval & Hle).
    rewrite Hty. split; [done |]. intros _.
    unfold number in H'.
    pose proof (advance_while_progress isdigit "" lx c Hc Hdigit) as Hprog.
    destruct (advance_while isdigit _ _ lx) as [r1 lx1]. cbn [snd] in Hprog.
    destruct (current_char lx1) as [d|].
    - destruct (is_dot d).
      + pose proof (advance_while_remaining isdigit (remaining (advance lx1))
                      (r1 +:+ String d "") (advance lx1)) as H3.
        destruct (advance_while isdigit _ _ (advance lx1)) as [r3 lx3]. cbn [snd] in H3.
        rewrite remaining_advance in H3.
        destruct (py_float r3); [|done..]. injection H' as _ <-. lia.
      + destruct (py_int r1); [|done..]. by injection H' as _ <-.
    - destruct (py_int r1); [|done..]. by injection H' as _ <-. }
  unfold tok_here.
  repeat match goal with
         | |- context [char_is ?l ?s] => destruct (char_is l s)
         | |- (let _ := _ in _) = _ → _ => cbv zeta
         end;
    try (intros [= <- <-]; cbn [tok_type tok_value]; split; [eauto |];
         intros _; rewrite ?remaining_advance; lia).
  destruct (dict_find token_types (String c "")) as [ty|] eqn:Hty; [|done].
  intros [= <- <-]. cbn [tok_type tok_value]. rewrite remaining_advance.
  assert (ty ≠ NUMBER ∧ ty ≠ EOF) as [Hn He].
  { revert Hty. unfold token_types. cbn [dict_find].
    repeat match goal with
           | |- context [String.eqb ?a ?b] => destruct (String.eqb a b); [by intros [= <-] |]
           end.
    done. }
  split; [|intros _; lia].
  destruct ty; try done; eauto.
Qed.

(** ** Where a lexical error is reported *)

Lemma placed_in_init (source : string) : placed_in source (Lexer_init source).
Proof. exists "". by repeat split. Qed.

Lemma placed_in_advance (source : string) (lx : Lexer) :
  placed_in source lx → placed_in source (advance lx).
Proof.
  intros (before & Hsrc & Hline & Hcol). destruct lx as [[|c rest] line col].
  - exists before. unfold advance, current_char. cbn [lx_rest lx_line lx_column] in *.
    by repeat split.
  - cbn [lx_rest lx_line lx_column] in *. rewrite advance_step.
    exists (before +:+ String c ""). cbn [lx_rest lx_line lx_column].
    rewrite append_snoc, position_after_app.
    rewrite <- Hline, <- (Hcol ltac:(done)).
    by repeat split.
Qed.

Lemma placed_in_advance_while (source : string) (cond : ascii → bool) (n : nat) :
  ∀ acc lx, placed_in source lx → placed_in source (snd (advance_while cond n acc lx)).
Proof.
  induction n as [|n IH]; intros acc lx Hlx; cbn [advance_while]; [done |].
  destruct (current_char lx) as [c|]; [|done].
  destruct (cond c); [|done].
  by apply IH, placed_in_advance.
Qed.

Lemma placed_in_number (source : string) (lx : Lexer) (token : Token) (lx' : Lexer) :
  placed_in source lx → number lx = Ok (token, lx') → placed_in source lx'.
Proof.
  intros Hlx. unfold number.
  pose proof (placed_in_advance_while source isdigit (remaining lx) "" lx Hlx) as H1.
  destruct (advance_while isdigit _ _ lx) as [r1 lx1]. cbn [snd] in H1.
  assert (Hint : (py_int r1 ≫= λ n, Ok (mkToken NUMBER (VInt n) (lx_line lx1) (lx_column lx1), lx1))
                 = Ok (token, lx') → placed_in source lx').
  { destruct (py_int r1); [|done..]. by intros [= _ <-]. }
  destruct (current_char lx1) as [c|]; [|exact Hint].
  destruct (is_dot c); [|exact Hint].
  pose proof (placed_in_advance_while source isdigit (remaining (advance lx1))
                (r1 +:+ String c "") (advance lx1) (placed_in_advance _ _ H1)) as H3.
  destruct (advance_while isdigit _ _ (advance lx1)) as [r3 lx3]. cbn [snd] in H3.
  destruct (py_float r3); [|done..]. by intros [= _ <-].
Qed.

Lemma number_error (lx : Lexer) (m : string) : number lx = Err m → conversion_error m.
Proof.
  unfold number. destruct (advance_while isdigit _ _ lx) as [r1 lx1].
  assert (Hint : ∀ k : Z → result (Token * Lexer),
             (∀ z, k z ≠ Err m) → (py_int r1 ≫= k) = Err m → conversion_error m).
  { intros k Hk. unfold py_int.
    destruct (Nat.ltb_spec int_max_str_digits (leading_decimals r1)) as [Hlimit | _].
    { intros [= <-]. right. by exists (leading_decimals r1). }
    destruct r1 as [|d r1]; [intros [= <-]; left; exists ""; by left |].
    destruct (string_forallb _ _); [intros H; by apply Hk in H |].
    intros [= <-]. left. exists (String d r1). by left. }
  destruct (current_char lx1) as [c|]; [|by apply Hint].
  destruct (is_dot c); [|by apply Hint].
  destruct (advance_while isdigit _ _ (advance lx1)) as [r3 lx3].
  unfold py_float. destruct (float_numeral_ok r3); [done |].
  intros [= <-]. left. exists r3. by right.
Qed.

Lemma get_next_token_loop_placed (source : string) (n : nat) :
  ∀ lx, placed_in source lx →
    match get_next_token_loop n lx with
    | Ok (_, lx') => placed_in source lx'
    | Err m =>
        conversion_error m
        ∨ ∃ before c rest,
            source = before +:+ String c rest
            ∧ m = unexpected_character_msg (fst (position_after before 1 1))
                    (snd (position_after before 1 1)) c
    | OutOfFuel => True
    end.
Proof.
  induction n as [|n IH]; intros lx Hlx; [done |].
  cbn [get_next_token_loop].
  destruct (current_char lx) as [c|] eqn:Hc; [|done].
  destruct (isspace c).
  { apply IH. by apply placed_in_advance_while. }
  destruct (char_is lx "{").
  { apply IH. by apply placed_in_advance, placed_in_advance_while. }
  destruct (isalpha c || is_underscore c).
  { unfold identifier.
    pose proof (placed_in_advance_while source (fun c => isalnum c || is_underscore c)
                  (remaining lx) "" lx Hlx) as H1.
    by destruct (advance_while _ _ _ lx). }
  destruct (isdigit c).
  { destruct (number lx) as [[token lx']| m |] eqn:Hnum; [| |done].
    - by eapply placed_in_number.
    - left. by eapply number_error. }
  unfold tok_here.
  repeat match goal with
         | |- context [char_is ?l ?s] => destruct (char_is l s)
         | |- match (let _ := _ in _) with _ => _ end => cbv zeta
         end;
    try (by repeat apply placed_in_advance).
  destruct (dict_find token_types (String c "")); [by apply placed_in_advance |].
  right. destruct Hlx as (before & Hsrc & Hline & Hcol).
  unfold current_char in Hc. destruct (lx_rest lx) as [|d rest] eqn:Hrest; [done |].
  injection Hc as ->. exists before, c, rest. split; [done |].
  unfold Lexer_error, unexpected_character_msg. by rewrite Hline, (Hcol ltac:(done)).
Qed.

(** X5. A lexical error of the token listing is reported where it is: for
    a character that starts no token, the message gives the character, its
    line (one more than the newlines before it) and its column (one more
    than the characters before it on its line). The only other failures of
    the scanner are the conversions of a numeral that [int()] or [float()]
    rejects: a text that is no numeral, or an integer of more digits than
    the interpreter converts. *)
Theorem lexical_error_position (source : string) (n : nat) (m : string) :
  tokenize n (Lexer_init source) = Err m →
  conversion_error m
  ∨ ∃ before c rest,
      source = before +:+ String c rest
      ∧ m = unexpected_character_msg (fst (position_after before 1 1))
              (snd (position_after before 1 1)) c.
Proof.
  generalize (placed_in_init source). generalize (Lexer_init source) as lx.
  induction n as [|n IH]; intros lx Hlx; [done |].
  cbn [tokenize].
  pose proof (get_next_token_loop_placed source (S (remaining lx)) lx Hlx) as Hstep.
  fold (get_next_token lx) in Hstep.
  destruct (get_next_token lx) as [[token lx']| e |]; [| |done].
  - step_bind. destruct (bool_decide _); [done |].
    specialize (IH lx' Hstep).
    destruct (tokenize n lx'); [done | |done].
    step_bind. intros [= <-]. by apply IH.
  - by intros [= <-].
Qed.

Lemma get_next_token_value_ok (lx : Lexer) (token : Token) (lx' : Lexer) :
  get_next_token lx = Ok (token, lx') → token_value_ok token.
Proof.
  intros [H _]%get_next_token_kind. unfold token_value_ok.
  destruct (tok_type token); try done. by destruct H.
Qed.

(** X4. What a token holds: a NUMBER token holds an int or a float, the
    EOF token holds [None], and every other token holds the text it was
    scanned from. What a token consumes: the EOF token is returned with
    nothing left to scan, and every other token takes at least one
    character. *)
Theorem token_kinds_and_progress (lx : Lexer) (token : Token) (lx' : Lexer) :
  get_next_token lx = Ok (token, lx') →
  token_value_ok token
  ∧ (tok_type token = EOF → lx_rest lx' = EmptyString)
  ∧ (tok_type token ≠ EOF → remaining lx' < remaining lx).
Proof.
  intros H. split; [by eapply get_next_token_value_ok |].
  apply get_next_token_kind in H as [H1 H2]. split; [|done].
  intros Heof. rewrite Heof in H1. by destruct H1.
Qed.

(** X6. The token listing of a source ends, within a budget above the
    length of what is left to scan: it fails, or it returns tokens of which
    the last, and only the last, is the EOF token; there are at most as
    many tokens before it as there are characters. *)
Theorem token_listing_shape (n : nat) (lx : Lexer) :
  remaining lx < n →
  match tokenize n lx with
  | Ok tokens =>
      ∃ front eof,
        tokens = front ++ [eof]
        ∧ tok_type eof = EOF
        ∧ Forall (fun token => tok_type token ≠ EOF) front
        ∧ length front ≤ remaining lx
  | Err _ => True
  | OutOfFuel => False
  end.
Proof.
  revert lx. induction n as [|n IH]; intros lx Hn; [lia |].
  cbn [tokenize].
  pose proof (get_next_token_answers lx) as Hans.
  destruct (get_next_token lx) as [[token lx']| e |] eqn:Hnext; [| done | done].
  step_bind. apply get_next_token_kind in Hnext as [_ Hprog].
  destruct (bool_decide_reflect (tok_type token = EOF)) as [Heof | Hne].
  - exists [], token. repeat split; [done | constructor | simpl; lia].
  - specialize (Hprog Hne). specialize (IH lx' ltac:(lia)).
    destruct (tokenize n lx') as [tokens| |]; [| done | done].
    step_bind. destruct IH as (front & eof & -> & Heof & Hfront & Hlen).
    exists (token :: front), eof. repeat split; [done | by constructor | simpl; lia].
Qed.

(** ** What the parser builds *)

Lemma eat_ready (D : string → Prop) (token_type : TokenType) (p p' : Parser) :
  (∀ x, is_declared x (symbol_table p) = true → D x) →
  eat token_type p = Ok p' →
  ready D p' ∧ symbol_table p' = symbol_table p.
Proof.
  intros HD. unfold eat. destruct (bool_decide _); [|done].
  destruct (get_next_token (lexer p)) as [[token lx]| |] eqn:Hnext; [|done..].
  step_bind. intros [= <-]. split; [|done]. split; [|done].
  by eapply get_next_token_value_ok.
Qed.

Lemma parsed_operator (p : Parser) (kinds : list TokenType) :
  token_value_ok (current_token p) →
  type_in (tok_type (current_token p)) kinds = true →
  NUMBER ∉ kinds → EOF ∉ kinds →
  holds_text (current_token p).
Proof.
  unfold token_value_ok, type_in, holds_text.
  intros Hok Hin%bool_decide_eq_true_1 Hnum Heof.
  destruct (tok_type (current_token p)); done.
Qed.

Ltac bind_ok E :=
  match goal with
  | |- (?r ≫= _) = Ok _ → _ =>
      destruct r as [[? ?]| |] eqn:E; [step_bind | done | done]
  end.

Ltac bind_eat E :=
  match goal with
  | |- (eat ?t ?p ≫= _) = Ok _ → _ =>
      destruct (eat t p) as [?| |] eqn:E; [step_bind | done | done]
  end.

Lemma expression_parsed (D : string → Prop) (n : nat) :
  (∀ p e p', ready D p → expression n p = Ok (e, p') →
             ready D p' ∧ symbol_table p' = symbol_table p ∧ parsed_expr D e)
  ∧ (∀ l p e p', ready D p → parsed_expr D l → expression_rest n l p = Ok (e, p') →
                 ready D p' ∧ symbol_table p' = symbol_table p ∧ parsed_expr D e)
  ∧ (∀ p e p', ready D p → simple_expr n p = Ok (e, p') →
               ready D p' ∧ symbol_table p' = symbol_table p ∧ parsed_expr D e)
  ∧ (∀ l p e p', ready D p → parsed_expr D l → simple_expr_rest n l p = Ok (e, p') →
                 ready D p' ∧ symbol_table p' = symbol_table p ∧ parsed_expr D e)
  ∧ (∀ p e p', ready D p → term n p = Ok (e, p') →
               ready D p' ∧ symbol_table p' = symbol_table p ∧ parsed_expr D e)
  ∧ (∀ l p e p', ready D p → parsed_expr D l → term_rest n l p = Ok (e, p') →
                 ready D p' ∧ symbol_table p' = symbol_table p ∧ parsed_expr D e)
  ∧ (∀ p e p', ready D p → factor n p = Ok (e, p') →
               ready D p' ∧ symbol_table p' = symbol_table p ∧ parsed_expr D e).
Proof.
  induction n as [|n (He & Her & Hs & Hsr & Ht & Htr & Hf)]; [by repeat split |].
  assert (Hop : ∀ (kinds : list TokenType) (sub : nat → Parser → result (expr * Parser))
                  (again : expr → Parser → result (expr * Parser)) l p e p',
             kinds ⊆ binary_operator_kinds →
             (∀ p e p', ready D p → sub n p = Ok (e, p') →
                        ready D p' ∧ symbol_table p' = symbol_table p ∧ parsed_expr D e) →
             (∀ l p e p', ready D p → parsed_expr D l → again l p = Ok (e, p') →
                          ready D p' ∧ symbol_table p' = symbol_table p ∧ parsed_expr D e) →
             ready D p → parsed_expr D l →
             (if type_in (tok_type (current_token p)) kinds
              then let op := current_token p in
                   eat (tok_type (current_token p)) p ≫= λ p,
                     sub n p ≫= λ '(right_, p), again (BinOpNode l op right_) p
              else Ok (l, p)) = Ok (e, p') →
             ready D p' ∧ symbol_table p' = symbol_table p ∧ parsed_expr D e).
  { intros kinds sub again l p e p' Hkinds Hsub Hagain [Htok HD] Hl.
    destruct (type_in _ kinds) eqn:Hin; [|by intros [= <- <-]].
    cbv zeta. bind_eat E1. bind_ok E2.
    destruct (eat_ready D _ _ _ HD E1) as [Hr1 Hst1].
    destruct (Hsub _ _ _ Hr1 E2) as (Hr2 & Hst2 & Hright).
    intros H. apply Hagain in H as (Hr3 & Hst3 & He3); [| done |].
    - repeat split; [apply Hr3 | apply Hr3 | congruence | done].
    - repeat split; [done | | | done].
      + apply Hkinds. by apply bool_decide_eq_true_1 in Hin.
      + apply (parsed_operator p binary_operator_kinds); [done | | |].
        * apply bool_decide_eq_true_2, Hkinds. by apply bool_decide_eq_true_1 in Hin.
        * compute_done.
        * compute_done. }
  assert (Hsub : ∀ kinds : list TokenType,
             kinds = rel_ops ∨ kinds = add_ops ∨ kinds = mul_ops →
             kinds ⊆ binary_operator_kinds).
  { intros kinds [-> | [-> | ->]] k Hk; unfold binary_operator_kinds;
      rewrite !elem_of_app; auto. }
  assert (Hchain : ∀ (first : nat → Parser → result (expr * Parser))
                     (rest : nat → expr → Parser → result (expr * Parser)) p e p',
             (∀ p e p', ready D p → first n p = Ok (e, p') →
                        ready D p' ∧ symbol_table p' = symbol_table p ∧ parsed_expr D e) →
             (∀ l p e p', ready D p → parsed_expr D l → rest n l p = Ok (e, p') →
                          ready D p' ∧ symbol_table p' = symbol_table p ∧ parsed_expr D e) →
             ready D p →
             (first n p ≫= λ '(left_, p), rest n left_ p) = Ok (e, p') →
             ready D p' ∧ symbol_table p' = symbol_table p ∧ parsed_expr D e).
  { intros first rest p e p' Hfirst Hrest Hp. bind_ok E1. intros H.
    destruct (Hfirst _ _ _ Hp E1) as (Hr1 & Hst1 & Hl).
    destruct (Hrest _ _ _ _ Hr1 Hl H) as (Hr2 & Hst2 & He2).
    repeat split; [apply Hr2 | apply Hr2 | congruence | done]. }
  split; [|split; [|split; [|split; [|split; [|split]]]]].
  - intros p e p' Hp. cbn [expression]. by apply Hchain.
  - intros l p e p' Hp Hl. cbn [expression_rest].
    apply (Hop rel_ops simple_expr (λ e p, Ok (e, p))); auto.
    intros l0 p0 e0 p0' Hp0 Hl0 [= <- <-]. by repeat split; try apply Hp0.
  - intros p e p' Hp. cbn [simple_expr]. by apply Hchain.
  - intros l p e p' Hp Hl. cbn [simple_expr_rest].
    apply (Hop add_ops term (simple_expr_rest n)); auto.
  - intros p e p' Hp. cbn [term]. by apply Hchain.
  - intros l p e p' Hp Hl. cbn [term_rest].
    apply (Hop mul_ops factor (term_rest n)); auto.
  - intros p e p' [Htok HD]. cbn [factor].
    destruct (peek ID p) eqn:Hid.
    { destruct (is_declared _ _) eqn:Hdecl; [|done]. cbn [negb].
      bind_eat E1. intros [= <- <-].
      destruct (eat_ready D _ _ _ HD E1) as [Hr1 Hst1].
      repeat split; [apply Hr1 | apply Hr1 | done | by apply HD]. }
    destruct (peek NUMBER p) eqn:Hnum.
    { bind_eat E1. intros [= <- <-].
      destruct (eat_ready D _ _ _ HD E1) as [Hr1 Hst1].
      repeat split; [apply Hr1 | apply Hr1 | done |].
      apply peek_type in Hnum. unfold token_value_ok in Htok. by rewrite Hnum in Htok. }
    destruct (peek LPAREN p) eqn:Hpar.
    { bind_eat E1. bind_ok E2. bind_eat E3. intros [= <- <-].
      destruct (eat_ready D _ _ _ HD E1) as [Hr1 Hst1].
      destruct (He _ _ _ Hr1 E2) as (Hr2 & Hst2 & He2).
      destruct (eat_ready D _ _ _ (proj2 Hr2) E3) as [Hr3 Hst3].
      repeat split; [apply Hr3 | apply Hr3 | congruence | done]. }
    destruct (peek NOT p) eqn:Hnot.
    { bind_eat E1. bind_ok E2. intros [= <- <-].
      destruct (eat_ready D _ _ _ HD E1) as [Hr1 Hst1].
      destruct (Hf _ _ _ Hr1 E2) as (Hr2 & Hst2 & He2).
      apply peek_type in Hnot.
      repeat split; [apply Hr2 | apply Hr2 | congruence | done | | done].
      unfold token_value_ok in Htok. by rewrite Hnot in Htok. }
    destruct (peek BOOLEAN_LIT p) eqn:Hbool; [|done].
    bind_eat E1. intros [= <- <-].
    destruct (eat_ready D _ _ _ HD E1) as [Hr1 Hst1].
    repeat split; [apply Hr1 | apply Hr1 | done].
Qed.

Lemma parsed_stmt_if (D : string → Prop) (c : expr) (t e : list stmt) :
  parsed_stmt D (IfNode c t e) = (parsed_expr D c ∧ parsed_stmts D t ∧ parsed_stmts D e).
Proof. reflexivity. Qed.

Lemma parsed_stmt_while (D : string → Prop) (c : expr) (b : list stmt) :
  parsed_stmt D (WhileNode c b) = (parsed_expr D c ∧ parsed_stmts D b).
Proof. reflexivity. Qed.

Lemma parsed_stmts_snoc (D : string → Prop) (stmts : list stmt) (s : stmt) :
  parsed_stmts D stmts → parsed_stmt D s → parsed_stmts D (stmts ++ [s]).
Proof.
  induction stmts as [|s0 stmts IH]; simpl; [done |].
  intros [H0 Hs] H. split; [done | by apply IH].
Qed.

Lemma is_declared_set_initialized (x name : string) (st : SymbolTable) :
  is_declared x (set_initialized name st) = is_declared x st.
Proof.
  unfold set_initialized. destruct (is_declared name st) eqn:Hname; [|done].
  unfold is_declared. cbn [symbols]. apply bool_decide_ext.
  rewrite lookup_alter. case_decide; [|done].
  subst. rewrite fmap_is_Some. done.
Qed.

Lemma ready_set_initialized (D : string → Prop) (p : Parser) (name : string) :
  ready D p → ready D (with_symbol_table p (set_initialized name (symbol_table p))).
Proof.
  intros [Htok HD]. split; [done |]. intros x.
  cbn [symbol_table with_symbol_table]. rewrite is_declared_set_initialized. apply HD.
Qed.

Lemma expression_ready (D : string → Prop) (n : nat) (p : Parser) (e : expr) (p' : Parser) :
  ready D p → expression n p = Ok (e, p') →
  ready D p' ∧ symbol_table p' = symbol_table p ∧ parsed_expr D e.
Proof. apply expression_parsed. Qed.

Lemma assignment_parsed (D : string → Prop) (n : nat) (p : Parser) (s : stmt) (p' : Parser) :
  ready D p → assignment n p = Ok (s, p') → ready D p' ∧ parsed_stmt D s.
Proof.
  intros [Htok HD]. unfold assignment. bind_eat E1. bind_eat E2. bind_ok E3.
  destruct (eat_ready D _ _ _ HD E1) as [Hr1 Hst1].
  destruct (eat_ready D _ _ _ (proj2 Hr1) E2) as [Hr2 Hst2].
  destruct (expression_ready D _ _ _ _ Hr2 E3) as (Hr3 & Hst3 & He).
  destruct (is_declared _ _) eqn:Hdecl; [|done]. cbn [negb]. intros [= <- <-].
  split; [by apply ready_set_initialized |].
  split; [|done]. by apply Hr3.
Qed.

Lemma read_stmt_parsed (D : string → Prop) (p : Parser) (s : stmt) (p' : Parser) :
  ready D p → read_stmt p = Ok (s, p') → ready D p' ∧ parsed_stmt D s.
Proof.
  intros [Htok HD]. unfold read_stmt. bind_eat E1. bind_eat E2. bind_eat E3. bind_eat E4.
  destruct (eat_ready D _ _ _ HD E1) as [Hr1 Hst1].
  destruct (eat_ready D _ _ _ (proj2 Hr1) E2) as [Hr2 Hst2].
  destruct (eat_ready D _ _ _ (proj2 Hr2) E3) as [Hr3 Hst3].
  destruct (eat_ready D _ _ _ (proj2 Hr3) E4) as [Hr4 Hst4].
  destruct (is_declared _ _) eqn:Hdecl; [|done]. cbn [negb]. intros [= <- <-].
  split; [by apply ready_set_initialized |]. by apply Hr4.
Qed.

Lemma write_stmt_parsed (D : string → Prop) (n : nat) (p : Parser) (s : stmt) (p' : Parser) :
  ready D p → write_stmt n p = Ok (s, p') → ready D p' ∧ parsed_stmt D s.
Proof.
  intros [Htok HD]. unfold write_stmt. bind_eat E1. bind_eat E2. bind_ok E3. bind_eat E4.
  destruct (eat_ready D _ _ _ HD E1) as [Hr1 Hst1].
  destruct (eat_ready D _ _ _ (proj2 Hr1) E2) as [Hr2 Hst2].
  destruct (expression_ready D _ _ _ _ Hr2 E3) as (Hr3 & Hst3 & He).
  destruct (eat_ready D _ _ _ (proj2 Hr3) E4) as [Hr4 Hst4].
  by intros [= <- <-].
Qed.

Lemma statements_parsed (D : string → Prop) (n : nat) :
  (∀ stop p ss p', ready D p → statements n stop p = Ok (ss, p') →
                   ready D p' ∧ parsed_stmts D ss)
  ∧ (∀ stop acc p ss p', ready D p → parsed_stmts D acc →
                         statements_loop n stop acc p = Ok (ss, p') →
                         ready D p' ∧ parsed_stmts D ss)
  ∧ (∀ p s p', ready D p → statement n p = Ok (s, p') → ready D p' ∧ parsed_stmt D s)
  ∧ (∀ p ss p', ready D p → block n p = Ok (ss, p') → ready D p' ∧ parsed_stmts D ss)
  ∧ (∀ p s p', ready D p → if_stmt n p = Ok (s, p') → ready D p' ∧ parsed_stmt D s)
  ∧ (∀ p s p', ready D p → while_stmt n p = Ok (s, p') → ready D p' ∧ parsed_stmt D s).
Proof.
  induction n as [|n (Hss & Hloop & Hs & Hb & Hi & Hw)]; [by repeat split |].
  assert (Hbody : ∀ p ss p', ready D p →
             (if peek BEGIN p then block n p
              else statement n p ≫= λ '(s, p), Ok ([s], p)) = Ok (ss, p') →
             ready D p' ∧ parsed_stmts D ss).
  { intros p ss p' Hp. destruct (peek BEGIN p); [by apply Hb |].
    bind_ok E. intros [= <- <-].
    destruct (Hs _ _ _ Hp E) as [Hr1 H1]. split; [done | by split]. }
  split; [|split; [|split; [|split; [|split]]]].
  - intros stop p ss p' Hp. cbn [statements]. by apply Hloop.
  - intros stop acc p ss p' Hp Hacc. cbn [statements_loop].
    destruct (negb _); [|by intros [= <- <-]].
    bind_ok E1. destruct (Hs _ _ _ Hp E1) as [Hr1 H1].
    pose proof (parsed_stmts_snoc D acc _ Hacc H1) as Hacc'.
    destruct (peek SEMI _).
    + bind_eat E2. destruct (eat_ready D _ _ _ (proj2 Hr1) E2) as [Hr2 _].
      destruct (type_in _ _); [by intros [= <- <-] | by apply Hloop].
    + destruct (type_in _ _); [by intros [= <- <-] | by apply Hloop].
  - intros p s p' Hp. cbn [statement].
    destruct (expect_in _ _ p); [|done..]. step_bind.
    destruct (peek ID p); [by apply assignment_parsed |].
    destruct (peek IF p); [by apply Hi |].
    destruct (peek WHILE p); [by apply Hw |].
    destruct (peek READ p); [by apply read_stmt_parsed |].
    destruct (peek WRITE p); [by apply write_stmt_parsed | done].
  - intros p ss p' [Htok HD]. cbn [block]. bind_eat E1. bind_ok E2. bind_eat E3.
    destruct (eat_ready D _ _ _ HD E1) as [Hr1 _].
    destruct (Hss _ _ _ _ Hr1 E2) as [Hr2 H2].
    destruct (eat_ready D _ _ _ (proj2 Hr2) E3) as [Hr3 _].
    by intros [= <- <-].
  - intros p s p' [Htok HD]. cbn [if_stmt]. bind_eat E1. bind_ok E2. bind_eat E3.
    destruct (eat_ready D _ _ _ HD E1) as [Hr1 _].
    destruct (expression_ready D _ _ _ _ Hr1 E2) as (Hr2 & _ & Hc).
    destruct (eat_ready D _ _ _ (proj2 Hr2) E3) as [Hr3 _].
    bind_ok E4. destruct (Hbody _ _ _ Hr3 E4) as [Hr4 Hthen].
    destruct (peek ELSE _).
    + bind_eat E5. destruct (eat_ready D _ _ _ (proj2 Hr4) E5) as [Hr5 _].
      bind_ok E6. destruct (Hbody _ _ _ Hr5 E6) as [Hr6 Helse].
      intros [= <- <-]. by rewrite parsed_stmt_if.
    + intros [= <- <-]. by rewrite parsed_stmt_if.
  - intros p s p' [Htok HD]. cbn [while_stmt]. bind_eat E1. bind_ok E2. bind_eat E3.
    destruct (eat_ready D _ _ _ HD E1) as [Hr1 _].
    destruct (expression_ready D _ _ _ _ Hr1 E2) as (Hr2 & _ & Hc).
    destruct (eat_ready D _ _ _ (proj2 Hr2) E3) as [Hr3 _].
    bind_ok E4. destruct (Hbody _ _ _ Hr3 E4) as [Hr4 Hbody'].
    intros [= <- <-]. by rewrite parsed_stmt_while.
Qed.

Lemma declare_each_fresh (ids : list string) (type_name : string) :
  ∀ st st' : SymbolTable,
    declare_each ids type_name st = Ok st' →
    NoDup ids ∧ ∀ x, x ∈ ids → is_declared x st = false.
Proof.
  induction ids as [|a ids IH]; intros st st'; cbn [declare_each].
  - intros _. split; [constructor |]. intros x Hx. by apply elem_of_nil in Hx.
  - destruct (is_declared a st) eqn:Ha; [by rewrite declare_declared |].
    destruct (declare_fresh a type_name st Ha) as (st1 & -> & _ & Hdom).
    cbn [mbind result_bind]. intros H. destruct (IH _ _ H) as [Hnd Hfresh].
    assert (Hnin : a ∉ ids).
    { intros Hin. specialize (Hfresh a Hin).
      assert (is_declared a st1 = true) by (apply Hdom; by left). congruence. }
    split; [by apply NoDup_cons |].
    intros x [-> | Hx]%elem_of_cons; [done |].
    specialize (Hfresh x Hx). destruct (is_declared x st) eqn:Hxst; [|done].
    assert (is_declared x st1 = true) by (apply Hdom; by right). congruence.
Qed.

Lemma type_names_only (p : Parser) (node : TypeNode) (p' : Parser) :
  type p = Ok (node, p') →
  type_name node ∈ type_names ∧ token_value_ok (current_token p').
Proof.
  unfold type. destruct (expect_in _ _ p); [|done..]. step_bind.
  repeat (destruct (peek _ p);
          [match goal with
           | |- context [eat ?t p] =>
               destruct (eat t p) as [p1| |] eqn:E; [|done..]; step_bind;
               intros [= <- <-];
               destruct (eat_ready (fun _ => True) _ _ _ (fun _ _ => I) E) as [[Htok _] _];
               split; [compute_done | done]
           end |]).
  done.
Qed.

Lemma declared_identifiers_snoc (decls : list DeclarationNode) (d : DeclarationNode) :
  declared_identifiers (decls ++ [d]) = declared_identifiers decls ++ identifiers d.
Proof.
  unfold declared_identifiers. rewrite fmap_app, concat_app. simpl. by rewrite app_nil_r.
Qed.

Lemma declared_so_far_eat (decls : list DeclarationNode) (token_type : TokenType)
    (p p' : Parser) :
  declared_so_far decls p → eat token_type p = Ok p' → declared_so_far decls p'.
Proof.
  intros (Hnd & Hdom & Hty & _) E.
  destruct (eat_ready (fun _ => True) _ _ _ (fun _ _ => I) E) as [[Htok _] Hst].
  repeat split; try done; rewrite Hst; apply Hdom.
Qed.

Lemma declaration_step (decls : list DeclarationNode) (n : nat) (p : Parser)
    (d : DeclarationNode) (p' : Parser) :
  declared_so_far decls p →
  declaration n p = Ok (d, p') →
  declared_so_far (decls ++ [d]) p'.
Proof.
  intros (Hnd & Hdom & Hty & Htok) H.
  pose proof (declaration_declared _ _ _ _ H) as Hdom'.
  revert H. unfold declaration.
  destruct (id_list n p) as [[ids p1]| |] eqn:Hids; [|done..]. step_bind.
  destruct (eat COLON p1) as [p2| |] eqn:Hcolon; [|done..]. step_bind.
  destruct (type p2) as [[node p3]| |] eqn:Htype; [|done..]. step_bind.
  destruct (declare_each _ _ _) as [st| |] eqn:Hdecl; [|done..]. step_bind.
  intros [= <- <-]. cbn [identifiers] in Hdom'.
  destruct (declare_each_fresh _ _ _ _ Hdecl) as [Hnd' Hfresh].
  destruct (type_names_only _ _ _ Htype) as [Hname Htok3].
  assert (Hst3 : symbol_table p3 = symbol_table p).
  { rewrite (type_symbol_table _ _ _ Htype), (eat_symbol_table _ _ _ Hcolon).
    by apply id_list_symbol_table in Hids. }
  rewrite Hst3 in Hfresh.
  repeat split.
  - rewrite declared_identifiers_snoc. apply NoDup_app. repeat split; [done | | done].
    intros x Hx Hx'. apply Hdom in Hx. specialize (Hfresh x Hx'). congruence.
  - rewrite declared_identifiers_snoc, elem_of_app, Hdom'. cbn [identifiers].
    rewrite Hdom. intros [? | ?]; auto.
  - rewrite declared_identifiers_snoc, elem_of_app, Hdom'. cbn [identifiers].
    rewrite Hdom. intros [? | ?]; auto.
  - apply Forall_app. split; [done |]. by constructor.
  - done.
Qed.

Lemma declaration_list_loop_step (n : nat) :
  ∀ decls p decls' p',
    declared_so_far decls p →
    declaration_list_loop n decls p = Ok (decls', p') →
    declared_so_far decls' p'.
Proof.
  induction n as [|n IH]; intros decls p decls' p' Hinv; [done |].
  cbn [declaration_list_loop].
  destruct (peek SEMI p); [|by intros [= <- <-]].
  bind_eat E1. pose proof (declared_so_far_eat _ _ _ _ Hinv E1) as H1.
  destruct (peek BEGIN _); [by intros [= <- <-] |].
  bind_ok E2. apply IH. by eapply declaration_step.
Qed.

Lemma declarations_step (n : nat) (p : Parser) (decls : list DeclarationNode) (p' : Parser) :
  declared_so_far [] p →
  declarations n p = Ok (decls, p') →
  declared_so_far decls p'.
Proof.
  intros Hinv. unfold declarations.
  destruct (peek VAR p); [|by intros [= <- <-]].
  bind_eat E1. pose proof (declared_so_far_eat _ _ _ _ Hinv E1) as H1.
  unfold declaration_list. bind_ok E2.
  apply declaration_list_loop_step.
  by apply (declaration_step [] n _ _ _ H1).
Qed.

Lemma Parser_init_declared (lx : Lexer) (p : Parser) :
  Parser_init lx = Ok p → declared_so_far [] p.
Proof.
  unfold Parser_init.
  destruct (get_next_token lx) as [[token lx']| |] eqn:E; [|done..]. step_bind.
  intros [= <-]. repeat split.
  - constructor.
  - unfold is_declared. cbn [symbol_table symbols]. rewrite lookup_empty.
    intros H%bool_decide_eq_true_1. by destruct H.
  - intros H. by apply elem_of_nil in H.
  - constructor.
  - by eapply get_next_token_value_ok.
Qed.

(** The tree of a parse, with the identifiers its declarations list. *)
Lemma program_parsed (n : nat) (p : Parser) (ast : ProgramNode) (p' : Parser) :
  declared_so_far [] p →
  program n p = Ok (ast, p') →
  NoDup (declared_identifiers (prog_declarations ast))
  ∧ Forall (fun d => type_name (type_node d) ∈ type_names) (prog_declarations ast)
  ∧ parsed_stmts (fun x => x ∈ declared_identifiers (prog_declarations ast))
      (prog_statements ast).
Proof.
  intros Hinv. unfold program.
  bind_eat E1. pose proof (declared_so_far_eat _ _ _ _ Hinv E1) as H1.
  bind_eat E2. pose proof (declared_so_far_eat _ _ _ _ H1 E2) as H2.
  bind_eat E3. pose proof (declared_so_far_eat _ _ _ _ H2 E3) as H3.
  bind_ok E4. pose proof (declarations_step _ _ _ _ H3 E4) as H4.
  bind_eat E5. pose proof (declared_so_far_eat _ _ _ _ H4 E5) as H5.
  bind_ok E6.
  match type of H5 with declared_so_far ?decls ?q =>
    assert (Hready : ready (fun x => x ∈ declared_identifiers decls) q)
  end.
  { destruct H5 as (_ & Hdom & _ & Htok). split; [done |]. intros x. apply Hdom. }
  destruct (proj1 (statements_parsed _ n) _ _ _ _ Hready E6) as [Hr6 Hstmts].
  bind_eat E7. bind_eat E8.
  destruct (negb _); [done |]. intros [= <- <-].
  cbn [prog_declarations prog_statements].
  destruct H5 as (Hnd & _ & Hty & _). by repeat split.
Qed.

Lemma parse_source_parsed (n : nat) (source : string) (ast : ProgramNode) :
  parse_source n source = Ok ast →
  NoDup (declared_identifiers (prog_declarations ast))
  ∧ Forall (fun d => type_name (type_node d) ∈ type_names) (prog_declarations ast)
  ∧ parsed_stmts (fun x => x ∈ declared_identifiers (prog_declarations ast))
      (prog_statements ast).
Proof.
  unfold parse_source.
  destruct (Parser_init _) as [p| |] eqn:Hinit; [|done..]. step_bind.
  unfold parse. destruct (program n p) as [[ast' p']| |] eqn:Hprog; [|done..].
  intros [= <-]. eapply program_parsed; [|done]. by eapply Parser_init_declared.
Qed.

(** X7. In the tree of a parsed source no identifier is declared twice,
    within a declaration or across declarations, and every declared type
    is one of [integer], [real] and [boolean]. *)
Theorem parsed_declarations_distinct (n : nat) (source : string) (ast : ProgramNode) :
  parse_source n source = Ok ast →
  NoDup (declared_identifiers (prog_declarations ast))
  ∧ Forall (fun d => type_name (type_node d) ∈ type_names) (prog_declarations ast).
Proof. intros (H1 & H2 & _)%parse_source_parsed. by split. Qed.

(** X8. In the tree of a parsed source every variable that an expression
    refers to, and every target of an assignment or a read, is among the
    declared identifiers; every operator node holds an operator token with
    its text, and every numeral node an int or a float. *)
Theorem parsed_statements_declared (n : nat) (source : string) (ast : ProgramNode) :
  parse_source n source = Ok ast →
  parsed_stmts (fun x => x ∈ declared_identifiers (prog_declarations ast))
    (prog_statements ast).
Proof. by intros (_ & _ & H)%parse_source_parsed. Qed.

(** ** The analyzer and the generator on what the parser builds *)

Lemma analyzer_table_declared (decls : list DeclarationNode) :
  ∀ (symbol_table : gmap string string) (x : string),
    is_Some (foldl (fun table decl => analyze_declaration decl table) symbol_table decls !! x)
    ↔ x ∈ declared_identifiers decls ∨ is_Some (symbol_table !! x).
Proof.
  induction decls as [|d decls IH]; intros st x; cbn [foldl].
  - unfold declared_identifiers. simpl. rewrite elem_of_nil. split; [by right | by intros [[] | ?]].
  - rewrite IH, analyze_declaration_lookup.
    unfold declared_identifiers. cbn [fmap list_fmap concat]. rewrite elem_of_app.
    destruct (bool_decide_reflect (x ∈ identifiers d)) as [Hin | Hnin].
    + split; [intros _; by left; left | intros _; by right].
    + split; [intros [? | ?]; [left; by right | by right] |].
      intros [[? | ?] | ?]; [done | by left | by right].
Qed.

Lemma analyzer_table_type (decls : list DeclarationNode) :
  ∀ (symbol_table : gmap string string) (x ty : string),
    foldl (fun table decl => analyze_declaration decl table) symbol_table decls !! x = Some ty →
    (∃ d, d ∈ decls ∧ x ∈ identifiers d ∧ ty = type_name (type_node d))
    ∨ symbol_table !! x = Some ty.
Proof.
  induction decls as [|d decls IH]; intros st x ty; cbn [foldl]; [by right |].
  intros [(d' & Hd' & Hx & ->) | H]%IH.
  - left. exists d'. split; [by apply elem_of_cons; right | done].
  - rewrite analyze_declaration_lookup in H.
    destruct (bool_decide_reflect (x ∈ identifiers d)) as [Hin | Hnin]; [|by right].
    injection H as <-. left. exists d. split; [by apply elem_of_cons; left | done].
Qed.

Lemma check_binary_operation_error (left_type : string) (op : pyvalue) (right_type m : string) :
  check_binary_operation left_type op right_type = Err m → type_error m.
Proof.
  unfold check_binary_operation, incompatible_types_error.
  repeat match goal with
         | |- (if ?b then _ else _) = _ → _ => destruct b
         end;
    try done; intros [= <-]; by eexists.
Qed.

Lemma check_unary_operation_error (op : pyvalue) (expr_type m : string) :
  check_unary_operation op expr_type = Err m → type_error m.
Proof.
  unfold check_unary_operation. destruct (_ && _); [done |]. intros [= <-]. by eexists.
Qed.

Lemma analyze_expr_parsed (D : string → Prop) (symbol_table : gmap string string) (e : expr) :
  (∀ x, D x → is_Some (symbol_table !! x)) →
  parsed_expr D e →
  match analyze_expr e symbol_table with
  | Ok _ => True
  | Err m => type_error m
  | OutOfFuel => False
  end.
Proof.
  intros HD. induction e as [l IHl op r IHr | op e IHe | x | v | b];
    cbn [parsed_expr analyze_expr].
  - intros (Hl & _ & _ & Hr). specialize (IHl Hl). specialize (IHr Hr).
    destruct (analyze_expr l symbol_table) as [lt| |]; [|done..]. step_bind.
    destruct (analyze_expr r symbol_table) as [rt| |]; [|done..]. step_bind.
    destruct (check_binary_operation lt (tok_value op) rt) as [ty| m |] eqn:E; [done | |].
    + by eapply check_binary_operation_error.
    + revert E. unfold check_binary_operation, incompatible_types_error.
      repeat match goal with
             | |- (if ?b then _ else _) = _ → _ => destruct b
             end; done.
  - intros (_ & _ & He). specialize (IHe He).
    destruct (analyze_expr e symbol_table) as [et| |]; [|done..]. step_bind.
    destruct (check_unary_operation (tok_value op) et) as [ty| m |] eqn:E; [done | |].
    + by eapply check_unary_operation_error.
    + revert E. unfold check_unary_operation. by destruct (_ && _).
  - intros Hx. unfold analyze_var. by destruct (HD x Hx) as [ty ->].
  - done.
  - done.
Qed.

Lemma analyze_stmts_parsed_of (D : string → Prop) (symbol_table : gmap string string)
    (stmts : list stmt) :
  Forall (fun s => parsed_stmt D s →
                   match analyze_stmt s symbol_table with
                   | Ok _ => True
                   | Err m => type_error m
                   | OutOfFuel => False
                   end) stmts →
  parsed_stmts D stmts →
  match analyze_stmts stmts symbol_table with
  | Ok _ => True
  | Err m => type_error m
  | OutOfFuel => False
  end.
Proof.
  induction 1 as [|s stmts Hs _ IH]; cbn [analyze_stmts]; [done |].
  intros [H1 H2]. specialize (Hs H1). specialize (IH H2).
  destruct (analyze_stmt s symbol_table); [|done..]. by step_bind.
Qed.

Lemma analyze_stmt_if (condition : expr) (then_branch else_branch : list stmt)
    (symbol_table : gmap string string) :
  analyze_stmt (IfNode condition then_branch else_branch) symbol_table
  = (condition_type ← analyze_expr condition symbol_table;
     if negb (String.eqb condition_type "boolean") then
       Err ("Type error: If condition must be boolean, got " +:+ condition_type)
     else
       _ ← analyze_stmts then_branch symbol_table;
       analyze_stmts else_branch symbol_table).
Proof.
  cbn [analyze_stmt]. destruct (analyze_expr _ _); [|done..]. step_bind.
  destruct (negb _); [done |].
  assert (Heach : ∀ l, (fix analyze_each (stmts : list stmt) : result unit :=
                          match stmts with
                          | [] => Ok tt
                          | s :: stmts0 =>
                              analyze_stmt s symbol_table ≫= λ _ : (), analyze_each stmts0
                          end) l = analyze_stmts l symbol_table).
  { induction l as [|s l IH]; [done |]. cbn [analyze_stmts]. by rewrite IH. }
  by rewrite !Heach.
Qed.

Lemma analyze_stmt_while (condition : expr) (body : list stmt)
    (symbol_table : gmap string string) :
  analyze_stmt (WhileNode condition body) symbol_table
  = (condition_type ← analyze_expr condition symbol_table;
     if negb (String.eqb condition_type "boolean") then
       Err ("Type error: While condition must be boolean, got " +:+ condition_type)
     else analyze_stmts body symbol_table).
Proof.
  cbn [analyze_stmt]. destruct (analyze_expr _ _); [|done..]. step_bind.
  destruct (negb _); [done |].
  generalize body as l. induction l as [|s l IH]; [done |].
  cbn [analyze_stmts]. by rewrite IH.
Qed.

Lemma analyze_stmt_parsed (D : string → Prop) (symbol_table : gmap string string) (s : stmt) :
  (∀ x, D x → is_Some (symbol_table !! x)) →
  parsed_stmt D s →
  match analyze_stmt s symbol_table with
  | Ok _ => True
  | Err m => type_error m
  | OutOfFuel => False
  end.
Proof.
  intros HD.
  induction s as [v e | c t e Ht He | c b Hb | v | e] using stmt_nested_ind.
  - intros [Hv He]. cbn [analyze_stmt]. destruct (HD v Hv) as [vt ->].
    pose proof (analyze_expr_parsed D symbol_table e HD He) as Hexpr.
    destruct (analyze_expr e symbol_table) as [et| |]; [|done..]. step_bind.
    unfold check_assignment. destruct (_ && _); [by eexists | done].
  - rewrite parsed_stmt_if, analyze_stmt_if. intros (Hc & Hthen & Helse).
    pose proof (analyze_expr_parsed D symbol_table c HD Hc) as Hexpr.
    destruct (analyze_expr c symbol_table) as [ct| |]; [|done..]. step_bind.
    destruct (negb _); [by eexists |].
    pose proof (analyze_stmts_parsed_of D symbol_table t Ht Hthen) as H1.
    destruct (analyze_stmts t symbol_table); [|done..]. step_bind.
    by apply (analyze_stmts_parsed_of D).
  - rewrite parsed_stmt_while, analyze_stmt_while. intros (Hc & Hbody).
    pose proof (analyze_expr_parsed D symbol_table c HD Hc) as Hexpr.
    destruct (analyze_expr c symbol_table) as [ct| |]; [|done..]. step_bind.
    destruct (negb _); [by eexists |].
    by apply (analyze_stmts_parsed_of D).
  - intros Hv. cbn [analyze_stmt]. by destruct (HD v Hv) as [vt ->].
  - intros He. cbn [analyze_stmt].
    pose proof (analyze_expr_parsed D symbol_table e HD He) as Hexpr.
    by destruct (analyze_expr e symbol_table).
Qed.

Lemma analyzer_fails_only_on_types_of (n : nat) (source : string) (ast : ProgramNode) :
  parse_source n source = Ok ast →
  match analyze ast with
  | Ok _ => True
  | Err m => type_error m
  | OutOfFuel => False
  end.
Proof.
  intros (_ & _ & Hstmts)%parse_source_parsed.
  unfold analyze, analyze_program.
  set (table := foldl _ ∅ (prog_declarations ast)).
  assert (HD : ∀ x, x ∈ declared_identifiers (prog_declarations ast) → is_Some (table !! x)).
  { intros x Hx. apply analyzer_table_declared. by left. }
  assert (H : match analyze_stmts (prog_statements ast) table with
              | Ok _ => True
              | Err m => type_error m
              | OutOfFuel => False
              end).
  { apply (analyze_stmts_parsed_of _ table _ (proj2 (Forall_forall _ _)
             (fun s _ => analyze_stmt_parsed _ table s HD)) Hstmts). }
  by destruct (analyze_stmts _ table).
Qed.

Lemma first_characters_differ (c d : ascii) (s t : string) :
  c ≠ d → String c s ≠ String d t.
Proof. intros Hcd [= ? _]. done. Qed.

(** X9. On the tree of a parsed source the analyzer never reports an
    undeclared variable: whatever [analyze] raises there, it is not its
    not-declared error, for any name. *)
Theorem analyzer_never_undeclared (n : nat) (source : string) (ast : ProgramNode) :
  parse_source n source = Ok ast →
  ∀ var_name, analyze ast ≠ sem_not_declared var_name.
Proof.
  intros H var_name Heq. apply analyzer_fails_only_on_types_of in H.
  rewrite Heq in H. destruct H as [rest H]. revert H.
  by apply (first_characters_differ "S" "T").
Qed.

Lemma generate_expr_parsed (D : string → Prop) (e : expr) :
  parsed_expr D e → ∀ g, ∃ t g', generate_expr e g = Ok (t, g').
Proof.
  induction e as [l IHl op r IHr | op e IHe | x | v | b]; cbn [parsed_expr generate_expr].
  - intros (Hl & _ & [text Htext] & Hr) g.
    destruct (IHl Hl g) as (lt & g1 & ->). step_bind.
    destruct (IHr Hr g1) as (rt & g2 & ->). step_bind.
    rewrite Htext. unfold new_temp, op_name. step_bind. eauto.
  - intros (_ & _ & He) g. destruct (IHe He g) as (et & g1 & ->). step_bind.
    unfold new_temp. destruct (value_in _ _); eauto.
  - eauto.
  - unfold new_temp. eauto.
  - unfold new_temp. eauto.
Qed.

Lemma generate_stmts_parsed_of (D : string → Prop) (stmts : list stmt) :
  Forall (fun s => parsed_stmt D s → ∀ g, ∃ g', generate_stmt s g = Ok g') stmts →
  parsed_stmts D stmts → ∀ g, ∃ g', generate_stmts stmts g = Ok g'.
Proof.
  induction 1 as [|s stmts Hs _ IH]; cbn [generate_stmts]; [eauto |].
  intros [H1 H2] g. destruct (Hs H1 g) as [g1 ->]. step_bind. by apply IH.
Qed.

Lemma generate_stmt_parsed (D : string → Prop) (s : stmt) :
  parsed_stmt D s → ∀ g, ∃ g', generate_stmt s g = Ok g'.
Proof.
  induction s as [v e | c t e Ht He | c b Hb | v | e] using stmt_nested_ind.
  - intros [_ He] g. cbn [generate_stmt].
    destruct (generate_expr_parsed D e He g) as (et & g1 & ->). step_bind. eauto.
  - rewrite parsed_stmt_if. intros (Hc & Hthen & Helse) g. rewrite generate_stmt_if.
    destruct (generate_expr_parsed D c Hc g) as (ct & g1 & ->). step_bind.
    unfold new_label. cbn beta iota.
    match goal with
    | |- context [generate_stmts t ?g0] =>
        destruct (generate_stmts_parsed_of D t Ht Hthen g0) as [g2 ->]
    end.
    step_bind. destruct e as [|s e]; [eauto |].
    match goal with
    | |- context [generate_stmts (s :: e) ?g0] =>
        destruct (generate_stmts_parsed_of D (s :: e) He Helse g0) as [g3 ->]
    end.
    step_bind. eauto.
  - rewrite parsed_stmt_while. intros (Hc & Hbody) g. rewrite generate_stmt_while.
    unfold new_label. cbn beta iota.
    match goal with
    | |- context [generate_expr c ?g0] =>
        destruct (generate_expr_parsed D c Hc g0) as (ct & g1 & ->)
    end.
    step_bind.
    match goal with
    | |- context [generate_stmts b ?g0] =>
        destruct (generate_stmts_parsed_of D b Hb Hbody g0) as [g2 ->]
    end.
    step_bind. eauto.
  - cbn [generate_stmt]. eauto.
  - intros He g. cbn [generate_stmt].
    destruct (generate_expr_parsed D e He g) as (et & g1 & ->). step_bind. eauto.
Qed.

Lemma generate_parsed (n : nat) (source : string) (ast : ProgramNode) (g : TACGenerator) :
  parse_source n source = Ok ast → ∃ tac g', generate ast g = Ok (tac, g').
Proof.
  intros (_ & _ & Hstmts)%parse_source_parsed.
  unfold generate, generate_program.
  match goal with
  | |- context [generate_stmts _ ?g0] =>
      destruct (generate_stmts_parsed_of _ _
                  (proj2 (Forall_forall _ _) (fun s _ => generate_stmt_parsed _ s))
                  Hstmts g0) as [g1 ->]
  end.
  step_bind. eauto.
Qed.

(** X10. The generator names a binary operator with
    [op_map.get(value, value.upper())], which evaluates [value.upper()]
    whether the operator is in the map or not, and so raises for a value
    that is no string. On the tree of a parsed source this error does not
    arise, from any generator, and the pipeline does not end with it. *)
Theorem generation_never_lacks_upper (n : nat) (source : string) (ast : ProgramNode) :
  parse_source n source = Ok ast →
  ∀ (g : TACGenerator) (m : string),
    no_upper_error m →
    generate ast g ≠ Err m ∧ compile n source ≠ Failed CodeGeneration m.
Proof.
  intros Hparse g m _. split.
  - by destruct (generate_parsed n source ast g Hparse) as (tac & g' & ->).
  - unfold compile. destruct (tokenize n _); [|done..]. rewrite Hparse.
    destruct (analyze ast); [|done..].
    by destruct (generate_parsed n source ast TACGenerator_init Hparse) as (tac & g' & ->).
Qed.

(** ** The shape of the lowered code *)

(** X11. For an [IfNode] with a non-empty else-branch the generator appends
    exactly: the instructions of the condition, one [IF_FALSE] jump to the
    false label, the instructions of the then-branch, a jump to the end
    label, the definition of the false label, the instructions of the
    else-branch, and the definition of the end label. *)
Theorem if_else_lowering (condition : expr) (then_branch : list stmt)
    (s : stmt) (else_rest : list stmt) (g : TACGenerator) :
  generate_stmt (IfNode condition then_branch (s :: else_rest)) g
  = ('(condition_temp, gc) ← generate_expr condition (fresh_from g);
     gt ← generate_stmts then_branch (counters (temp_count gc) (label_count g + 2));
     ge ← generate_stmts (s :: else_rest) (fresh_from gt);
     Ok {| temp_count := temp_count ge;
           label_count := label_count ge;
           code := code g ++ code gc
                   ++ ["IF_FALSE " +:+ condition_temp +:+ " GOTO "
                       +:+ "L" +:+ str_of_nat (label_count g)]
                   ++ code gt
                   ++ ["GOTO " +:+ "L" +:+ str_of_nat (label_count g + 1);
                       "LABEL " +:+ "L" +:+ str_of_nat (label_count g)]
                   ++ code ge
                   ++ ["LABEL " +:+ "L" +:+ str_of_nat (label_count g + 1)] |}).
Proof.
  rewrite generate_stmt_if.
  destruct g as [temps labels pre]. rewrite generate_expr_at.
  unfold fresh_from. cbn [temp_count label_count code].
  destruct (generate_expr condition (counters temps labels)) as [[ct gc]| |] eqn:E;
    [|done..].
  step_bind. apply generate_expr_label_count in E. simpl in E.
  unfold new_label, emit, prepend.
  cbn [temp_count label_count code]. cbn beta iota.
  rewrite generate_stmts_at, E.
  replace (labels + 1 + 1) with (labels + 2) by lia.
  destruct (generate_stmts then_branch _) as [gt| |]; [|done..]. step_bind.
  unfold prepend. cbn [temp_count label_count code].
  rewrite generate_stmts_at.
  destruct (generate_stmts (s :: else_rest) _) as [ge| |]; [|done..]. step_bind.
  unfold prepend. cbn [temp_count label_count code].
  by rewrite <- !app_assoc.
Qed.

Lemma generate_expr_temporaries (e : expr) :
  ∀ g t g',
    generate_expr e g = Ok (t, g') →
    ∃ new,
      code g' = code g ++ new
      ∧ temp_count g' = temp_count g + length new
      ∧ (∀ i instr, new !! i = Some instr → defines_temp (temp_count g + i) instr)
      ∧ match e with
        | VarNode var_name => t = var_name ∧ new = []
        | _ => t = "t" +:+ str_of_nat (temp_count g' - 1) ∧ new ≠ []
        end.
Proof.
  assert (Hone : ∀ g rhs,
             ∃ new, code g ++ ["t" +:+ str_of_nat (temp_count g) +:+ " := " +:+ rhs]
                    = code g ++ new
                    ∧ temp_count g + 1 = temp_count g + length new
                    ∧ (∀ i instr, new !! i = Some instr →
                                  defines_temp (temp_count g + i) instr)
                    ∧ "t" +:+ str_of_nat (temp_count g)
                      = "t" +:+ str_of_nat (temp_count g + 1 - 1) ∧ new ≠ []).
  { intros g rhs. eexists [_]. split; [done |]. split; [done |]. split.
    - intros [|i] instr; [|done]. intros [= <-]. rewrite Nat.add_0_r. by exists rhs.
    - split; [|done]. by replace (temp_count g + 1 - 1) with (temp_count g) by lia. }
  induction e as [l IHl op r IHr | op e IHe | v | v | b]; intros g t g';
    cbn [generate_expr].
  - destruct (generate_expr l g) as [[lt g1]| |] eqn:El; [|done..]. step_bind.
    destruct (generate_expr r g1) as [[rt g2]| |] eqn:Er; [|done..]. step_bind.
    destruct (IHl _ _ _ El) as (newl & Hcl & Htl & Hdl & _).
    destruct (IHr _ _ _ Er) as (newr & Hcr & Htr & Hdr & _).
    unfold new_temp. cbn beta iota.
    destruct (op_name _) as [name| |]; [|done..]. step_bind.
    intros [= <- <-]. unfold emit. cbn [temp_count label_count code].
    exists (newl ++ newr ++ ["t" +:+ str_of_nat (temp_count g2) +:+ " := "
                             +:+ lt +:+ " " +:+ name +:+ " " +:+ rt]).
    split; [by rewrite Hcr, Hcl, <- !app_assoc |].
    split; [rewrite !length_app; simpl; lia |].
    split.
    + intros i instr [H | [Hi [H | [Hi' H]]%lookup_app_Some]]%lookup_app_Some.
      * by apply Hdl.
      * apply Hdr in H. by replace (temp_count g + i)
          with (temp_count g1 + (i - length newl)) by lia.
      * destruct (i - length newl - length newr) as [|j] eqn:Hj; [|done].
        injection H as <-.
        replace (temp_count g + i) with (temp_count g2) by lia. by eexists.
    + split; [|by destruct newl, newr].
      by replace (temp_count g2 + 1 - 1) with (temp_count g2) by lia.
  - destruct (generate_expr e g) as [[et g1]| |] eqn:Ee; [|done..]. step_bind.
    destruct (IHe _ _ _ Ee) as (newe & Hce & Hte & Hde & _).
    unfold new_temp. cbn beta iota.
    assert (Hgoal : ∀ rhs,
               ∃ new, code g1 ++ ["t" +:+ str_of_nat (temp_count g1) +:+ " := " +:+ rhs]
                      = code g ++ new
                      ∧ temp_count g1 + 1 = temp_count g + length new
                      ∧ (∀ i instr, new !! i = Some instr →
                                    defines_temp (temp_count g + i) instr)
                      ∧ "t" +:+ str_of_nat (temp_count g1)
                        = "t" +:+ str_of_nat (temp_count g1 + 1 - 1) ∧ new ≠ []).
    { intros rhs.
      exists (newe ++ ["t" +:+ str_of_nat (temp_count g1) +:+ " := " +:+ rhs]).
      split; [by rewrite Hce, <- app_assoc |].
      split; [rewrite length_app; simpl; lia |].
      split.
      - intros i instr [H | [Hi H]]%lookup_app_Some; [by apply Hde |].
        destruct (i - length newe) as [|j] eqn:Hj; [|done]. injection H as <-.
        replace (temp_count g + i) with (temp_count g1) by lia. by eexists.
      - split; [|by destruct newe].
        by replace (temp_count g1 + 1 - 1) with (temp_count g1) by lia. }
    destruct (value_in _ _); intros [= <- <-]; unfold emit;
      cbn [temp_count label_count code].
    + apply (Hgoal ("NOT " +:+ et)).
    + apply (Hgoal (str_of_value (tok_value op) +:+ " " +:+ et)).
  - intros [= <- <-]. exists []. rewrite app_nil_r. simpl.
    repeat split; [lia | done].
  - unfold new_temp. cbn beta iota. intros [= <- <-]. unfold emit.
    cbn [temp_count label_count code]. apply Hone.
  - unfold new_temp. cbn beta iota. intros [= <- <-]. unfold emit.
    cbn [temp_count label_count code]. apply Hone.
Qed.

(** X12. Every instruction an expression is lowered to defines a new
    temporary, and they are numbered on from the temporary counter, which
    advances by their number. A variable is lowered to its name with no
    instruction; any other expression to the temporary defined last. *)
Theorem expression_temporaries (e : expr) (g : TACGenerator) (t : string)
    (g' : TACGenerator) :
  generate_expr e g = Ok (t, g') →
  ∃ new,
    code g' = code g ++ new
    ∧ temp_count g' = temp_count g + length new
    ∧ label_count g' = label_count g
    ∧ (∀ i instr, new !! i = Some instr → defines_temp (temp_count g + i) instr)
    ∧ match e with
      | VarNode var_name => t = var_name ∧ new = []
      | _ => t = "t" +:+ str_of_nat (temp_count g' - 1) ∧ new ≠ []
      end.
Proof.
  intros H. destruct (generate_expr_temporaries _ _ _ _ H) as (new & H1 & H2 & H3 & H4).
  exists new. repeat split; try done. by eapply generate_expr_label_count.
Qed.

(** X13. Lowering a program keeps the instructions the generator holds and
    puts behind them the [PROGRAM] line with the program's name, the
    instructions of the statements, which do not depend on what the
    generator held, and [END]. *)
Theorem program_lowering (node : ProgramNode) (g : TACGenerator) :
  generate node g
  = (gb ← generate_stmts (prog_statements node) (fresh_from g);
     let tac := code g ++ ["PROGRAM " +:+ prog_name node] ++ code gb ++ ["END"] in
     Ok (tac, {| temp_count := temp_count gb; label_count := label_count gb;
                 code := tac |})).
Proof.
  unfold generate, generate_program, emit. destruct g as [temps labels pre].
  cbn [temp_count label_count code]. rewrite generate_stmts_at. unfold fresh_from.
  cbn [temp_count label_count code].
  destruct (generate_stmts _ _) as [gb| |]; [|done..]. step_bind.
  unfold prepend. cbn [temp_count label_count code]. cbv zeta.
  by rewrite <- !app_assoc.
Qed.

(** ** Labels *)

Lemma pretty_N_go_decimal (x : N) :
  ∀ s, string_forallb isdecimal s = true →
       string_forallb isdecimal (pretty_N_go x s) = true.
Proof.
  induction (N.lt_wf_0 x) as [x _ IH]; intros s Hs.
  destruct (decide (x = 0)%N) as [-> | Hx]; [by rewrite pretty_N_go_0 |].
  rewrite pretty_N_go_step by lia. apply IH; [apply N.div_lt; lia |].
  simpl. rewrite Hs, andb_true_r.
  unfold pretty_N_char. by repeat case_match.
Qed.

Lemma str_of_nat_decimal (k : nat) : string_forallb isdecimal (str_of_nat k) = true.
Proof.
  unfold str_of_nat, pretty, pretty_nat, pretty, pretty_N.
  case_decide; [done |]. by apply pretty_N_go_decimal.
Qed.

Lemma existsb_append (p : ascii → bool) (s t : string) :
  string_existsb p (s +:+ t) = string_existsb p s || string_existsb p t.
Proof.
  induction s as [|c s IH]; [reflexivity |].
  rewrite append_cons. simpl. by rewrite IH, orb_assoc.
Qed.

Lemma label_definition_no_colon (k : nat) :
  string_existsb is_colon (label_definition k) = false.
Proof.
  unfold label_definition. rewrite !existsb_append.
  change (string_existsb is_colon "LABEL ") with false.
  change (string_existsb is_colon "L") with false. cbn [orb].
  pose proof (str_of_nat_decimal k) as H.
  induction (str_of_nat k) as [|c s IH]; [done |]. simpl in *.
  apply andb_prop in H as [Hc Hs]. rewrite (IH Hs), orb_false_r.
  revert Hc. unfold isdecimal, is_colon, between, ord.
  destruct c as [[] [] [] [] [] [] [] []]; by vm_compute.
Qed.

Lemma label_definition_inj (j k : nat) : label_definition j = label_definition k → j = k.
Proof.
  unfold label_definition, str_of_nat. intros H.
  by apply (inj (String.append "LABEL ")), (inj (String.append "L")), (inj pretty) in H.
Qed.

Lemma not_a_label_first (c : ascii) (rest : string) :
  c ≠ "L"%char → not_a_label (String c rest).
Proof.
  intros Hc k H.
  change (label_definition k) with (String "L" ("ABEL " +:+ "L" +:+ str_of_nat k)) in H.
  by injection H.
Qed.

Lemma not_a_label_assignment (target value : string) :
  not_a_label (target +:+ " := " +:+ value).
Proof.
  intros k H. pose proof (label_definition_no_colon k) as Hk.
  rewrite <- H, existsb_append in Hk.
  change (string_existsb is_colon (" := " +:+ value)) with true in Hk.
  by rewrite orb_true_r in Hk.
Qed.

Lemma occurrences_app (instr : string) (l1 l2 : list string) :
  occurrences instr (l1 ++ l2) = occurrences instr l1 + occurrences instr l2.
Proof. unfold occurrences. by rewrite filter_app, length_app. Qed.

Lemma occurrences_free (k : nat) (l : list string) :
  Forall not_a_label l → occurrences (label_definition k) l = 0.
Proof.
  unfold occurrences. induction 1 as [|i l Hi _ IH]; [done |].
  rewrite filter_cons. destruct (decide _) as [Heq | _]; [by destruct (Hi k) | done].
Qed.

Lemma occurrences_label (j k : nat) :
  occurrences (label_definition k) [label_definition j]
  = if bool_decide (j = k) then 1 else 0.
Proof.
  unfold occurrences. rewrite filter_cons, filter_nil.
  destruct (decide _) as [Heq%label_definition_inj | Hne]; case_bool_decide;
    try done; by subst.
Qed.

Lemma generate_expr_no_label (e : expr) (g : TACGenerator) (t : string) (g' : TACGenerator) :
  generate_expr e g = Ok (t, g') →
  ∃ new, code g' = code g ++ new ∧ Forall not_a_label new
         ∧ label_count g' = label_count g.
Proof.
  intros H. pose proof (generate_expr_label_count _ _ _ _ H) as Hl.
  destruct (generate_expr_temporaries _ _ _ _ H) as (new & Hc & _ & Hd & _).
  exists new. repeat split; try done.
  apply Forall_lookup. intros i instr [rhs ->]%Hd. by apply not_a_label_first.
Qed.

Lemma labels_within_free (a : nat) (l : list string) :
  Forall not_a_label l → labels_within a a l.
Proof. intros H. split; [done |]. intros k. rewrite occurrences_free by done. lia. Qed.

Lemma labels_within_app (a b c : nat) (l1 l2 : list string) :
  labels_within a b l1 → labels_within b c l2 → labels_within a c (l1 ++ l2).
Proof.
  intros [Hab H1] [Hbc H2]. split; [lia |]. intros k.
  specialize (H1 k). specialize (H2 k). rewrite occurrences_app.
  repeat case_bool_decide; lia.
Qed.

Lemma generate_stmts_labels_of (stmts : list stmt) :
  Forall (fun s => ∀ g g', generate_stmt s g = Ok g' →
                           ∃ new, code g' = code g ++ new
                                  ∧ labels_within (label_count g) (label_count g') new)
         stmts →
  ∀ g g', generate_stmts stmts g = Ok g' →
          ∃ new, code g' = code g ++ new
                 ∧ labels_within (label_count g) (label_count g') new.
Proof.
  induction 1 as [|s stmts Hs _ IH]; intros g g'; cbn [generate_stmts].
  - intros [= <-]. exists []. rewrite app_nil_r. split; [done |].
    by apply labels_within_free.
  - destruct (generate_stmt s g) as [g1| |] eqn:E; [|done..]. step_bind.
    intros (new2 & Hc2 & H2)%IH. destruct (Hs _ _ E) as (new1 & Hc1 & H1).
    exists (new1 ++ new2). split; [by rewrite Hc2, Hc1, app_assoc |].
    by eapply labels_within_app.
Qed.

Lemma generate_stmt_labels (s : stmt) :
  ∀ g g', generate_stmt s g = Ok g' →
          ∃ new, code g' = code g ++ new
                 ∧ labels_within (label_count g) (label_count g') new.
Proof.
  induction s as [v e | c t e Ht He | c b Hb | v | e] using stmt_nested_ind;
    intros g g'.
  - cbn [generate_stmt].
    destruct (generate_expr e g) as [[et g1]| |] eqn:E; [|done..]. step_bind.
    destruct (generate_expr_no_label _ _ _ _ E) as (newe & Hce & Hfe & Hle).
    intros [= <-]. unfold emit. cbn [temp_count label_count code].
    exists (newe ++ [v +:+ " := " +:+ et]).
    split; [by rewrite Hce, app_assoc |]. rewrite Hle.
    apply labels_within_free, Forall_app. split; [done |].
    constructor; [apply not_a_label_assignment | constructor].
  - rewrite generate_stmt_if.
    destruct (generate_expr c g) as [[ct g1]| |] eqn:E; [|done..]. step_bind.
    destruct (generate_expr_no_label _ _ _ _ E) as (newc & Hcc & Hfc & Hlc).
    unfold new_label. cbn beta iota.
    destruct (generate_stmts t _) as [g2| |] eqn:Et; [|done..]. step_bind.
    destruct (generate_stmts_labels_of t Ht _ _ Et) as (newt & Hct & [Hlt Hwt]).
    unfold emit in Hct, Hlt, Hwt. cbn [temp_count label_count code] in Hct, Hlt, Hwt.
    destruct e as [|s e].
    + intros [= <-]. unfold emit. cbn [temp_count label_count code].
      exists (newc ++ ["IF_FALSE " +:+ ct +:+ " GOTO " +:+ "L"
                       +:+ str_of_nat (label_count g1)]
              ++ newt ++ [label_definition (label_count g1)]).
      split; [rewrite Hct, Hcc; by rewrite <- !app_assoc |].
      split; [lia |]. intros k. specialize (Hwt k).
      rewrite !occurrences_app, occurrences_label.
      rewrite (occurrences_free k newc) by done.
      rewrite (occurrences_free k [_])
        by (constructor; [by apply not_a_label_first | constructor]).
      repeat case_bool_decide; lia.
    + destruct (generate_stmts (s :: e) _) as [g3| |] eqn:Ee; [|done..]. step_bind.
      destruct (generate_stmts_labels_of _ He _ _ Ee) as (newe & Hce & [Hle Hwe]).
      unfold emit in Hce, Hle, Hwe. cbn [temp_count label_count code] in Hce, Hle, Hwe.
      intros [= <-]. unfold emit. cbn [temp_count label_count code].
      exists (newc ++ ["IF_FALSE " +:+ ct +:+ " GOTO " +:+ "L"
                       +:+ str_of_nat (label_count g1)]
              ++ newt
              ++ ["GOTO " +:+ "L" +:+ str_of_nat (label_count g1 + 1)]
              ++ [label_definition (label_count g1)]
              ++ newe ++ [label_definition (label_count g1 + 1)]).
      split; [rewrite Hce, Hct, Hcc; by rewrite <- !app_assoc |].
      split; [lia |]. intros k. specialize (Hwt k). specialize (Hwe k).
      rewrite !occurrences_app, !occurrences_label.
      rewrite (occurrences_free k newc) by done.
      rewrite !(occurrences_free k [_])
        by (constructor; [by apply not_a_label_first | constructor]).
      repeat case_bool_decide; lia.
  - rewrite generate_stmt_while. unfold new_label. cbn beta iota.
    destruct (generate_expr c _) as [[ct g1]| |] eqn:E; [|done..]. step_bind.
    destruct (generate_expr_no_label _ _ _ _ E) as (newc & Hcc & Hfc & Hlc).
    unfold emit in Hcc, Hlc. cbn [temp_count label_count code] in Hcc, Hlc.
    destruct (generate_stmts b _) as [g2| |] eqn:Eb; [|done..]. step_bind.
    destruct (generate_stmts_labels_of b Hb _ _ Eb) as (newb & Hcb & [Hlb Hwb]).
    unfold emit in Hcb, Hlb, Hwb. cbn [temp_count label_count code] in Hcb, Hlb, Hwb.
    intros [= <-]. unfold emit. cbn [temp_count label_count code].
    exists ([label_definition (label_count g)] ++ newc
            ++ ["IF_FALSE " +:+ ct +:+ " GOTO " +:+ "L"
                +:+ str_of_nat (label_count g + 1)]
            ++ newb
            ++ ["GOTO " +:+ "L" +:+ str_of_nat (label_count g)]
            ++ [label_definition (label_count g + 1)]).
    split; [rewrite Hcb, Hcc; by rewrite <- !app_assoc |].
    split; [lia |]. intros k. specialize (Hwb k).
    rewrite !occurrences_app, !occurrences_label.
    rewrite (occurrences_free k newc) by done.
    rewrite !(occurrences_free k [_])
      by (constructor; [by apply not_a_label_first | constructor]).
    repeat case_bool_decide; lia.
  - cbn [generate_stmt]. intros [= <-]. unfold emit. cbn [temp_count label_count code].
    exists ["READ " +:+ v]. split; [done |].
    apply labels_within_free. constructor; [by apply not_a_label_first | constructor].
  - cbn [generate_stmt].
    destruct (generate_expr e g) as [[et g1]| |] eqn:E; [|done..]. step_bind.
    destruct (generate_expr_no_label _ _ _ _ E) as (newe & Hce & Hfe & Hle).
    intros [= <-]. unfold emit. cbn [temp_count label_count code].
    exists (newe ++ ["WRITE " +:+ et]).
    split; [by rewrite Hce, app_assoc |]. rewrite Hle.
    apply labels_within_free, Forall_app. split; [done |].
    constructor; [by apply not_a_label_first | constructor].
Qed.

(** X14. In the code a program is lowered to no label is defined twice, and
    the labels defined are numbered from the label counter the generator
    started with up to the one it ends with. *)
Theorem labels_defined_once (node : ProgramNode) (g : TACGenerator)
    (tac : list string) (g' : TACGenerator) :
  generate node g = Ok (tac, g') →
  ∃ new,
    tac = code g ++ new
    ∧ ∀ k, occurrences (label_definition k) new ≤ 1
           ∧ (0 < occurrences (label_definition k) new →
              label_count g ≤ k < label_count g').
Proof.
  unfold generate, generate_program.
  destruct (generate_stmts _ _) as [g1| |] eqn:E; [|done..]. step_bind.
  destruct (generate_stmts_labels_of _
              (proj2 (Forall_forall _ _) (fun s _ => generate_stmt_labels s)) _ _ E)
    as (new & Hc & [Hl Hw]).
  unfold emit in Hc, Hl, Hw. cbn [temp_count label_count code] in Hc, Hl, Hw.
  intros [= <- <-]. unfold emit. cbn [temp_count label_count code].
  exists (["PROGRAM " +:+ prog_name node] ++ new ++ ["END"]).
  split; [rewrite Hc; by rewrite <- !app_assoc |].
  intros k. specialize (Hw k). rewrite !occurrences_app.
  rewrite !(occurrences_free k [_])
    by (constructor; [by apply not_a_label_first | constructor]).
  case_bool_decide; lia.
Qed.

(** ** The analyzer's table and operator texts *)

Lemma declared_identifiers_elem (decls : list DeclarationNode) (x : string) :
  x ∈ declared_identifiers decls ↔ ∃ d, d ∈ decls ∧ x ∈ identifiers d.
Proof.
  unfold declared_identifiers. induction decls as [|d0 decls IH].
  - simpl. split; [by intros H%elem_of_nil | by intros (d & H%elem_of_nil & _)].
  - cbn [fmap list_fmap concat]. rewrite elem_of_app, IH. split.
    + intros [H | (d & Hd & Hx)]; [exists d0; split; [by left | done] |].
      exists d. split; [by right | done].
    + intros (d & [-> | Hd]%elem_of_cons & Hx); [by left | right; by exists d].
Qed.

Lemma declared_once (decls : list DeclarationNode) :
  NoDup (declared_identifiers decls) →
  ∀ d d' x, d ∈ decls → d' ∈ decls → x ∈ identifiers d → x ∈ identifiers d' → d = d'.
Proof.
  unfold declared_identifiers.
  induction decls as [|d0 decls IH]; intros Hnd d d' x Hd Hd' Hx Hx';
    [by apply elem_of_nil in Hd |].
  cbn [fmap list_fmap concat] in Hnd. apply NoDup_app in Hnd as (_ & Hdisj & Hrest).
  assert (Hin : ∀ d1, d1 ∈ decls → x ∈ identifiers d1 →
                      x ∈ concat (identifiers <$> decls)).
  { intros d1 H1 Hx1. apply (declared_identifiers_elem decls x). by exists d1. }
  apply elem_of_cons in Hd as [-> | Hd]; apply elem_of_cons in Hd' as [-> | Hd'].
  - done.
  - destruct (Hdisj x Hx). by eapply Hin.
  - destruct (Hdisj x Hx'). by eapply Hin.
  - by eapply IH.
Qed.

(** X15. For a parsed source that the analyzer accepts, the analyzer's
    table gives a name a type exactly when a declaration lists the name
    with that type; this declaration is the only one listing the name, and
    the type is [integer], [real] or [boolean]. *)
Theorem analyzer_table_of_parsed (n : nat) (source : string) (ast : ProgramNode)
    (table : gmap string string) :
  parse_source n source = Ok ast →
  analyze ast = Ok table →
  ∀ x ty,
    (table !! x = Some ty
     ↔ ∃ d, d ∈ prog_declarations ast ∧ x ∈ identifiers d ∧ ty = type_name (type_node d))
    ∧ (table !! x = Some ty → ty ∈ type_names)
    ∧ (∀ d d', d ∈ prog_declarations ast → d' ∈ prog_declarations ast →
               x ∈ identifiers d → x ∈ identifiers d' → d = d').
Proof.
  intros (Hnd & Hty & _)%parse_source_parsed. unfold analyze, analyze_program.
  destruct (analyze_stmts _ _); [|done..]. step_bind. intros [= <-] x ty.
  assert (Hto : foldl (fun table decl => analyze_declaration decl table) ∅
                  (prog_declarations ast) !! x = Some ty →
                ∃ d, d ∈ prog_declarations ast ∧ x ∈ identifiers d
                     ∧ ty = type_name (type_node d)).
  { intros [H | H]%analyzer_table_type; [done | by rewrite lookup_empty in H]. }
  split; [split; [exact Hto |] | split].
  - intros (d & Hd & Hx & ->).
    assert (Hsome : is_Some (foldl (fun table decl => analyze_declaration decl table) ∅
                               (prog_declarations ast) !! x)).
    { apply analyzer_table_declared. left. apply declared_identifiers_elem.
      by exists d. }
    destruct Hsome as [ty' Hty'].
    destruct (analyzer_table_type _ _ _ _ Hty') as [(d' & Hd' & Hx' & ->) | H];
      [|by rewrite lookup_empty in H].
    by rewrite Hty', (declared_once _ Hnd d d' x).
  - intros (d & Hd & _ & ->)%Hto. by apply (proj1 (Forall_forall _ _) Hty).
  - intros d d'. by apply declared_once.
Qed.

Lemma analyze_expr_answers (e : expr) (symbol_table : gmap string string) :
  analyze_expr e symbol_table ≠ OutOfFuel.
Proof.
  induction e as [l IHl op r IHr | op e IHe | x | v | b]; cbn [analyze_expr]; try done.
  - destruct (analyze_expr l symbol_table); [|done..]. step_bind.
    destruct (analyze_expr r symbol_table); [|done..]. step_bind.
    unfold check_binary_operation, incompatible_types_error.
    by repeat match goal with
              | |- (if ?b then _ else _) ≠ _ => destruct b
              end.
  - destruct (analyze_expr e symbol_table); [|done..]. step_bind.
    unfold check_unary_operation. by destruct (_ && _).
  - unfold analyze_var. by destruct (_ !! _).
Qed.

Lemma operator_texts_lower (w : string) :
  w ∈ arithmetic_ops ++ relational_ops ++ logical_ops ++ ["not"] → lower w = w.
Proof.
  intros H. repeat (apply elem_of_cons in H as [-> | H]; [reflexivity |]).
  by apply elem_of_nil in H.
Qed.

(** X16. The analyzer compares the text of an operator as it is written
    with the operator texts in lower case: an operation whose operator
    text is changed by [lower] (a word [and], [or] or [not] written with a
    capital letter, which the scanner takes for the keyword) is rejected,
    whatever the operands are. The generator names such a binary operator
    by its text in upper case. *)
Theorem operator_text_case (w : string) (op : Token) (l r : expr)
    (symbol_table : gmap string string) :
  tok_value op = VStr w →
  lower w ≠ w →
  (∃ m, analyze_expr (BinOpNode l op r) symbol_table = Err m)
  ∧ (∃ m, analyze_expr (UnaryOpNode op r) symbol_table = Err m)
  ∧ op_name (tok_value op) = Ok (upper w).
Proof.
  intros Hv Hw.
  assert (Hnot : ∀ ops,
             (∀ x, x ∈ ops →
                   x ∈ arithmetic_ops ++ relational_ops ++ logical_ops ++ ["not"]) →
             value_in (tok_value op) ops = false).
  { intros ops Hops. rewrite Hv. unfold value_in, in_list.
    apply bool_decide_eq_false_2. intros Hin%Hops. by apply operator_texts_lower in Hin. }
  assert (Ha : value_in (tok_value op) arithmetic_ops = false).
  { apply Hnot. intros x Hx. rewrite !elem_of_app. auto. }
  assert (Hr : value_in (tok_value op) relational_ops = false).
  { apply Hnot. intros x Hx. rewrite !elem_of_app. auto. }
  assert (Hl : value_in (tok_value op) logical_ops = false).
  { apply Hnot. intros x Hx. rewrite !elem_of_app. auto. }
  assert (Hn : value_in (tok_value op) ["not"] = false).
  { apply Hnot. intros x Hx. rewrite !elem_of_app. auto. }
  clear Hnot.
  split; [|split].
  - cbn [analyze_expr].
    pose proof (analyze_expr_answers l symbol_table) as Hleft.
    destruct (analyze_expr l symbol_table); [|by eexists | done]. step_bind.
    pose proof (analyze_expr_answers r symbol_table) as Hright.
    destruct (analyze_expr r symbol_table); [|by eexists | done]. step_bind.
    unfold check_binary_operation. rewrite Ha, Hr, Hl. by eexists.
  - cbn [analyze_expr].
    pose proof (analyze_expr_answers r symbol_table) as Hright.
    destruct (analyze_expr r symbol_table); [|by eexists | done]. step_bind.
    unfold check_unary_operation. rewrite Hn. by eexists.
  - rewrite Hv. unfold op_name. f_equal.
    assert (Hkeys : ∀ k v, (k, v) ∈ op_map → lower k = k).
    { intros k v H. unfold op_map in H.
      repeat (apply elem_of_cons in H as [[= -> ->] | H]; [reflexivity |]).
      by apply elem_of_nil in H. }
    assert (Hget : ∀ m : list (string * string),
               (∀ k v, (k, v) ∈ m → lower k = k) → dict_get m w (upper w) = upper w).
    { induction m as [|[k v] m IH]; intros Hm; [done |]. cbn [dict_get].
      destruct (String.eqb_spec k w) as [-> | Hne].
      - destruct Hw. apply (Hm w v). by left.
      - apply IH. intros k' v' H. apply (Hm k' v'). by right. }
    by apply Hget.
Qed.

(** ** The stage of a failure *)

Lemma scannable_next (lx : Lexer) :
  scannable lx → ∃ token lx', get_next_token lx = Ok (token, lx') ∧ scannable lx'.
Proof.
  intros (n & tokens & H). destruct n as [|n]; [done |]. cbn [tokenize] in H.
  destruct (get_next_token lx) as [[token lx']| |] eqn:Hnext; [|done..].
  exists token, lx'. split; [done |]. revert H. step_bind.
  destruct (bool_decide_reflect (tok_type token = EOF)) as [Heof | Hne].
  - intros _. apply get_next_token_kind in Hnext as [Hk _]. rewrite Heof in Hk.
    destruct Hk as [_ Hrest].
    exists 1, [mkToken EOF VNone (lx_line lx') (lx_column lx')].
    cbn [tokenize]. unfold get_next_token, remaining. rewrite Hrest.
    cbn [String.length get_next_token_loop]. unfold current_char. by rewrite Hrest.
  - destruct (tokenize n lx') as [tokens'| |] eqn:Ht; [|done..]. intros _.
    by exists n, tokens'.
Qed.

Lemma parser_failure_syntax (rest : string) :
  parser_failure ("Syntax error at line " +:+ rest).
Proof. exists rest. by left. Qed.

Lemma parser_failure_semantic (rest : string) :
  parser_failure ("Semantic error" +:+ rest).
Proof. exists rest. by right. Qed.

Lemma Parser_error_scanning {A : Type} (p : Parser) (message : string) :
  keeps_scanning (@Parser_error (A * Parser) p message).
Proof. apply parser_failure_syntax. Qed.

Lemma not_declared_error_scanning {A : Type} (line : nat) (var_name : string) :
  keeps_scanning (@not_declared_error (A * Parser) line var_name).
Proof.
  apply (parser_failure_semantic
           (" at line " +:+ str_of_nat line +:+ ": "
            +:+ "Variable '" +:+ var_name +:+ "' not declared")).
Qed.

Lemma keeps_bind_eat {B : Type} (token_type : TokenType) (p : Parser)
    (k : Parser → result (B * Parser)) :
  scannable (lexer p) →
  (∀ p', scannable (lexer p') → keeps_scanning (k p')) →
  keeps_scanning (eat token_type p ≫= k).
Proof.
  intros (token & lx' & Hnext & Hs)%scannable_next Hk. unfold eat.
  destruct (bool_decide _); [|apply parser_failure_syntax].
  rewrite Hnext. step_bind. by apply Hk.
Qed.

Lemma keeps_bind {A B : Type} (r : result (A * Parser))
    (k : A * Parser → result (B * Parser)) :
  keeps_scanning r →
  (∀ a p', scannable (lexer p') → keeps_scanning (k (a, p'))) →
  keeps_scanning (r ≫= k).
Proof. destruct r as [[a p']| |]; [|done..]. intros Hs Hk. by apply Hk. Qed.

Lemma expect_in_scanning {B : Type} (expected_types : list TokenType) (context : string)
    (p : Parser) (k : unit → result (B * Parser)) :
  keeps_scanning (k tt) →
  keeps_scanning (expect_in expected_types context p ≫= k).
Proof.
  intros Hk. unfold expect_in. destruct (negb _); [apply parser_failure_syntax | done].
Qed.

Ltac scan_eat :=
  apply keeps_bind_eat; [done | let p := fresh "p" in let H := fresh "Hs" in
                                intros p H; cbn beta iota].

Ltac scan_bind L :=
  apply keeps_bind; [by apply L | let a := fresh "a" in let p := fresh "p" in
                                  let H := fresh "Hs" in intros a p H; cbn beta iota].

Lemma expression_scanning (n : nat) :
  (∀ p, scannable (lexer p) → keeps_scanning (expression n p))
  ∧ (∀ l p, scannable (lexer p) → keeps_scanning (expression_rest n l p))
  ∧ (∀ p, scannable (lexer p) → keeps_scanning (simple_expr n p))
  ∧ (∀ l p, scannable (lexer p) → keeps_scanning (simple_expr_rest n l p))
  ∧ (∀ p, scannable (lexer p) → keeps_scanning (term n p))
  ∧ (∀ l p, scannable (lexer p) → keeps_scanning (term_rest n l p))
  ∧ (∀ p, scannable (lexer p) → keeps_scanning (factor n p)).
Proof.
  induction n as [|n (He & Her & Hs & Hsr & Ht & Htr & Hf)]; [by repeat split |].
  split; [|split; [|split; [|split; [|split; [|split]]]]].
  - intros p Hp. cbn [expression]. scan_bind Hs. by apply Her.
  - intros l p Hp. cbn [expression_rest]. destruct (type_in _ _); [|done]. cbv zeta.
    scan_eat. scan_bind Hs. done.
  - intros p Hp. cbn [simple_expr]. scan_bind Ht. by apply Hsr.
  - intros l p Hp. cbn [simple_expr_rest]. destruct (type_in _ _); [|done]. cbv zeta.
    scan_eat. scan_bind Ht. by apply Hsr.
  - intros p Hp. cbn [term]. scan_bind Hf. by apply Htr.
  - intros l p Hp. cbn [term_rest]. destruct (type_in _ _); [|done]. cbv zeta.
    scan_eat. scan_bind Hf. by apply Htr.
  - intros p Hp. cbn [factor]. cbv zeta.
    destruct (peek ID p).
    { destruct (negb _); [apply not_declared_error_scanning |]. scan_eat. done. }
    destruct (peek NUMBER p); [scan_eat; done |].
    destruct (peek LPAREN p); [scan_eat; scan_bind He; scan_eat; done |].
    destruct (peek NOT p); [scan_eat; scan_bind Hf; done |].
    destruct (peek BOOLEAN_LIT p); [scan_eat; done |].
    apply Parser_error_scanning.
Qed.

Lemma assignment_scanning (n : nat) (p : Parser) :
  scannable (lexer p) → keeps_scanning (assignment n p).
Proof.
  intros Hp. unfold assignment. cbv zeta. scan_eat. scan_eat.
  scan_bind (proj1 (expression_scanning n)).
  destruct (negb _); [apply not_declared_error_scanning | done].
Qed.

Lemma read_stmt_scanning (p : Parser) :
  scannable (lexer p) → keeps_scanning (read_stmt p).
Proof.
  intros Hp. unfold read_stmt. scan_eat. scan_eat. cbv zeta. scan_eat. scan_eat.
  destruct (negb _); [apply not_declared_error_scanning | done].
Qed.

Lemma write_stmt_scanning (n : nat) (p : Parser) :
  scannable (lexer p) → keeps_scanning (write_stmt n p).
Proof.
  intros Hp. unfold write_stmt. scan_eat. scan_eat.
  scan_bind (proj1 (expression_scanning n)). scan_eat. done.
Qed.

Lemma statements_scanning (n : nat) :
  (∀ stop p, scannable (lexer p) → keeps_scanning (statements n stop p))
  ∧ (∀ stop acc p, scannable (lexer p) → keeps_scanning (statements_loop n stop acc p))
  ∧ (∀ p, scannable (lexer p) → keeps_scanning (statement n p))
  ∧ (∀ p, scannable (lexer p) → keeps_scanning (block n p))
  ∧ (∀ p, scannable (lexer p) → keeps_scanning (if_stmt n p))
  ∧ (∀ p, scannable (lexer p) → keeps_scanning (while_stmt n p)).
Proof.
  induction n as [|n (Hss & Hloop & Hs & Hb & Hi & Hw)]; [by repeat split |].
  assert (Hbody : ∀ p, scannable (lexer p) →
             keeps_scanning (if peek BEGIN p then block n p
                             else statement n p ≫= λ '(s, p), Ok ([s], p))).
  { intros p Hp. destruct (peek BEGIN p); [by apply Hb |]. scan_bind Hs. done. }
  split; [|split; [|split; [|split; [|split]]]].
  - intros stop p Hp. cbn [statements]. by apply Hloop.
  - intros stop acc p Hp. cbn [statements_loop].
    destruct (negb _); [|done]. scan_bind Hs. cbv zeta.
    destruct (peek SEMI _).
    + scan_eat. destruct (type_in _ _); [done | by apply Hloop].
    + destruct (type_in _ _); [done | by apply Hloop].
  - intros p Hp. cbn [statement]. apply expect_in_scanning.
    destruct (peek ID p); [by apply assignment_scanning |].
    destruct (peek IF p); [by apply Hi |].
    destruct (peek WHILE p); [by apply Hw |].
    destruct (peek READ p); [by apply read_stmt_scanning |].
    destruct (peek WRITE p); [by apply write_stmt_scanning |].
    apply Parser_error_scanning.
  - intros p Hp. cbn [block]. scan_eat. scan_bind Hss. scan_eat. done.
  - intros p Hp. cbn [if_stmt]. scan_eat.
    scan_bind (proj1 (expression_scanning n)). scan_eat. scan_bind Hbody.
    destruct (peek ELSE _); [|done]. scan_eat. scan_bind Hbody. done.
  - intros p Hp. cbn [while_stmt]. scan_eat.
    scan_bind (proj1 (expression_scanning n)). scan_eat. scan_bind Hbody. done.
Qed.

Lemma type_scanning (p : Parser) : scannable (lexer p) → keeps_scanning (type p).
Proof.
  intros Hp. unfold type. apply expect_in_scanning.
  destruct (peek INTEGER p); [scan_eat; done |].
  destruct (peek REAL p); [scan_eat; done |].
  destruct (peek BOOLEAN p); [scan_eat; done |].
  apply Parser_error_scanning.
Qed.

Lemma id_list_loop_scanning (n : nat) :
  ∀ ids p, scannable (lexer p) → keeps_scanning (id_list_loop n ids p).
Proof.
  induction n as [|n IH]; intros ids p Hp; [done |]. cbn [id_list_loop].
  destruct (peek COMMA p); [|done]. scan_eat. cbv zeta. scan_eat. by apply IH.
Qed.

Lemma declare_each_failure (ids : list string) (type_name : string) :
  ∀ st, match declare_each ids type_name st with
        | Ok _ => True
        | Err e => parser_failure e
        | OutOfFuel => False
        end.
Proof.
  induction ids as [|a ids IH]; intros st; cbn [declare_each]; [done |].
  unfold declare. destruct (is_declared a st).
  - apply (parser_failure_semantic
             (": Variable '" +:+ a +:+ "' already declared at line "
              +:+ str_of_nat (tok_line (st_current_token st)))).
  - step_bind. apply IH.
Qed.

Lemma declaration_scanning (n : nat) (p : Parser) :
  scannable (lexer p) → keeps_scanning (declaration n p).
Proof.
  intros Hp. unfold declaration, id_list. cbv zeta.
  apply keeps_bind.
  { scan_eat. by apply id_list_loop_scanning. }
  intros ids p1 H1. cbn beta iota. scan_eat. scan_bind type_scanning.
  pose proof (declare_each_failure ids (type_name a) (symbol_table p2)) as Hd.
  by destruct (declare_each _ _ _).
Qed.

Lemma declaration_list_loop_scanning (n : nat) :
  ∀ decls p, scannable (lexer p) → keeps_scanning (declaration_list_loop n decls p).
Proof.
  induction n as [|n IH]; intros decls p Hp; [done |]. cbn [declaration_list_loop].
  destruct (peek SEMI p); [|done]. scan_eat.
  destruct (peek BEGIN _); [done |]. scan_bind declaration_scanning. by apply IH.
Qed.

Lemma program_scanning (n : nat) (p : Parser) :
  scannable (lexer p) → keeps_scanning (program n p).
Proof.
  intros Hp. unfold program. scan_eat. cbv zeta. scan_eat. scan_eat.
  apply keeps_bind.
  { unfold declarations. destruct (peek VAR _); [|done]. scan_eat.
    unfold declaration_list. scan_bind declaration_scanning.
    by apply declaration_list_loop_scanning. }
  intros decls pd Hd. cbn beta iota. scan_eat.
  scan_bind (proj1 (statements_scanning n)). scan_eat. scan_eat.
  destruct (negb _); [apply Parser_error_scanning | done].
Qed.

Lemma failure_stages_of (n : nat) (source : string) (at_stage : stage) (m : string) :
  compile n source = Failed at_stage m →
  match at_stage with
  | SyntaxAnalysis => ∃ e, m = "Parsing failed: " +:+ e ∧ parser_failure e
  | SemanticAnalysis => type_error m
  | _ => True
  end.
Proof.
  unfold compile.
  destruct (tokenize n (Lexer_init source)) as [tokens| |] eqn:Htok;
    [| by intros [= <- <-] | done].
  destruct (parse_source n source) as [ast| e |] eqn:Hparse; [| | done].
  - pose proof (analyzer_fails_only_on_types_of n source ast Hparse) as Hsem.
    destruct (analyze ast) as [table| e |]; [| by intros [= <- <-] | done].
    destruct (generate ast TACGenerator_init) as [[tac g]| |]; [done | | done].
    by intros [= <- <-].
  - intros [= <- <-]. revert Hparse. unfold parse_source.
    assert (Hs : scannable (Lexer_init source)) by (by exists n, tokens).
    apply scannable_next in Hs as (token & lx' & Hnext & Hs).
    unfold Parser_init. rewrite Hnext. step_bind. unfold parse.
    match goal with
    | |- context [program n ?p] =>
        pose proof (program_scanning n p Hs) as Hprog; destruct (program n p) as [[? ?]| e' |]
    end; [done | | done].
    intros [= <-]. by exists e'.
Qed.

Lemma scanner_failure_first (m : string) :
  scanner_failure m →
  ∃ c rest, m = String c rest ∧ c ∈ ["L"; "i"; "c"; "E"]%char.
Proof.
  intros [[rest ->] | [[text [-> | ->]] | (digits & _ & ->)]].
  - eexists "L"%char, _. split; [reflexivity | compute_done].
  - eexists "i"%char, _. split; [reflexivity | compute_done].
  - eexists "c"%char, _. split; [reflexivity | compute_done].
  - eexists "E"%char, _. split; [reflexivity | compute_done].
Qed.

Lemma not_scanner_failure (c : ascii) (rest : string) :
  c ∉ ["L"; "i"; "c"; "E"]%char → ¬ scanner_failure (String c rest).
Proof.
  intros Hc (c' & rest' & [= <- _] & Hin)%scanner_failure_first. done.
Qed.

(** X17. The pipeline lists all tokens before it parses, so what the
    scanner can report, it reports in the first stage: when the listing
    has passed, the failure of a later stage is no message of the scanner
    (no lexical error, no numeral conversion error), and neither is the
    message that [parse] has put its prefix before. *)
Theorem failure_stages (n : nat) (source : string) (at_stage : stage) (m : string) :
  compile n source = Failed at_stage m →
  at_stage ≠ LexicalAnalysis →
  ¬ scanner_failure m
  ∧ ∀ e, m = "Parsing failed: " +:+ e → ¬ scanner_failure e.
Proof.
  intros H Hstage. pose proof (failure_stages_of _ _ _ _ H) as Hm.
  destruct at_stage; [done | | |].
  - destruct Hm as (e & -> & Hfail). split.
    + apply (not_scanner_failure "P"). compute_done.
    + intros e' <-%(inj (String.append "Parsing failed: ")).
      destruct Hfail as [rest [-> | ->]]; apply (not_scanner_failure "S"); compute_done.
  - destruct Hm as [rest ->]. split.
    + apply (not_scanner_failure "T"). compute_done.
    + intros e' He. by apply (first_characters_differ "T" "P") in He.
  - exfalso. revert H. unfold compile.
    destruct (tokenize n _); [|done..].
    destruct (parse_source n source) as [ast| |] eqn:Hparse; [|done..].
    destruct (analyze ast); [|done..].
    by destruct (generate_parsed n source ast TACGenerator_init Hparse) as (tac & g' & ->).
Qed.

(** ** The parser ends *)

Lemma eat_below (token_type : TokenType) (p : Parser) :
  token_type ≠ EOF →
  match eat token_type p with
  | Ok p' => left_to_parse p' < left_to_parse p
  | Err _ => True
  | OutOfFuel => False
  end.
Proof.
  intros Ht. unfold eat.
  destruct (bool_decide_reflect (tok_type (current_token p) = token_type)) as [Heq | _];
    [|done].
  pose proof (get_next_token_answers (lexer p)) as Hans.
  destruct (get_next_token (lexer p)) as [[token lx']| |] eqn:Hnext; [|done..].
  step_bind. unfold left_to_parse. cbn [lexer current_token].
  apply get_next_token_kind in Hnext as [Hk Hprog].
  rewrite (bool_decide_eq_false_2 (tok_type (current_token p) = EOF)) by congruence.
  case_bool_decide as Heof.
  - rewrite Heof in Hk. destruct Hk as [_ Hrest]. unfold remaining at 1.
    rewrite Hrest. simpl. lia.
  - specialize (Hprog Heof). lia.
Qed.

Lemma below_bind_eat {B : Type} (b : nat) (token_type : TokenType) (p : Parser)
    (k : Parser → result (B * Parser)) :
  token_type ≠ EOF →
  (∀ p', left_to_parse p' < left_to_parse p → ends_below b (k p')) →
  ends_below b (eat token_type p ≫= k).
Proof.
  intros Ht Hk. pose proof (eat_below token_type p Ht) as He.
  destruct (eat token_type p) as [p'| |]; [|done..]. by apply Hk.
Qed.

Lemma below_bind {A B : Type} (b' b : nat) (r : result (A * Parser))
    (k : A * Parser → result (B * Parser)) :
  ends_below b' r →
  (∀ a p', left_to_parse p' < b' → ends_below b (k (a, p'))) →
  ends_below b (r ≫= k).
Proof. destruct r as [[a p']| |]; [|done..]. intros Hr Hk. by apply Hk. Qed.

Lemma below_expect_in {B : Type} (b : nat) (expected_types : list TokenType)
    (context : string) (p : Parser) (k : unit → result (B * Parser)) :
  (type_in (tok_type (current_token p)) expected_types = true → ends_below b (k tt)) →
  ends_below b (expect_in expected_types context p ≫= k).
Proof.
  intros Hk. unfold expect_in.
  destruct (type_in _ _); [by apply Hk | done].
Qed.

Lemma operator_not_EOF (t : TokenType) (kinds : list TokenType) :
  type_in t kinds = true → EOF ∉ kinds → t ≠ EOF.
Proof. unfold type_in. intros H%bool_decide_eq_true_1 Hk ->. done. Qed.

Ltac below_eat :=
  apply below_bind_eat;
  [ first [ discriminate | eapply operator_not_EOF; [eassumption | compute_done] ]
  | let p := fresh "p" in let H := fresh "Hlt" in intros p H; cbn beta iota ].

Ltac below_bind L :=
  eapply below_bind;
  [ apply L; lia
  | let a := fresh "a" in let p := fresh "p" in let H := fresh "Hlt" in
    intros a p H; cbn beta iota ].

Ltac below_done :=
  unfold ends_below;
  repeat match goal with
         | |- context [left_to_parse (with_symbol_table ?p ?st)] =>
             change (left_to_parse (with_symbol_table p st)) with (left_to_parse p)
         end;
  lia.

Lemma ends_below_mono {A : Type} (b b' : nat) (r : result (A * Parser)) :
  b ≤ b' → ends_below b r → ends_below b' r.
Proof. destruct r as [[a p]| |]; [|done..]. unfold ends_below. lia. Qed.

Ltac below_call L := eapply ends_below_mono; [|apply L; lia]; lia.

Lemma expression_ends (n : nat) :
  (∀ p, 4 * left_to_parse p + 4 ≤ n →
        ends_below (S (left_to_parse p)) (expression n p))
  ∧ (∀ l p, 4 * left_to_parse p + 1 ≤ n →
            ends_below (S (left_to_parse p)) (expression_rest n l p))
  ∧ (∀ p, 4 * left_to_parse p + 3 ≤ n →
          ends_below (S (left_to_parse p)) (simple_expr n p))
  ∧ (∀ l p, 4 * left_to_parse p + 1 ≤ n →
            ends_below (S (left_to_parse p)) (simple_expr_rest n l p))
  ∧ (∀ p, 4 * left_to_parse p + 2 ≤ n →
          ends_below (S (left_to_parse p)) (term n p))
  ∧ (∀ l p, 4 * left_to_parse p + 1 ≤ n →
            ends_below (S (left_to_parse p)) (term_rest n l p))
  ∧ (∀ p, 4 * left_to_parse p + 1 ≤ n →
          ends_below (left_to_parse p) (factor n p)).
Proof.
  induction n as [|n (He & Her & Hs & Hsr & Ht & Htr & Hf)];
    [repeat split; intros; lia |].
  split; [|split; [|split; [|split; [|split; [|split]]]]].
  - intros p Hp. cbn [expression]. below_bind Hs. below_call Her.
  - intros l p Hp. cbn [expression_rest].
    destruct (type_in _ _) eqn:Hin; [|below_done]. cbv zeta.
    below_eat. below_bind Hs. below_done.
  - intros p Hp. cbn [simple_expr]. below_bind Ht. below_call Hsr.
  - intros l p Hp. cbn [simple_expr_rest].
    destruct (type_in _ _) eqn:Hin; [|below_done]. cbv zeta.
    below_eat. below_bind Ht. below_call Hsr.
  - intros p Hp. cbn [term]. below_bind Hf. below_call Htr.
  - intros l p Hp. cbn [term_rest].
    destruct (type_in _ _) eqn:Hin; [|below_done]. cbv zeta.
    below_eat. below_bind Hf. below_call Htr.
  - intros p Hp. cbn [factor]. cbv zeta.
    destruct (peek ID p).
    { destruct (negb _); [exact I |]. below_eat. below_done. }
    destruct (peek NUMBER p); [below_eat; below_done |].
    destruct (peek LPAREN p).
    { below_eat. below_bind He. below_eat. below_done. }
    destruct (peek NOT p).
    { below_eat. below_bind Hf. below_done. }
    destruct (peek BOOLEAN_LIT p); [below_eat; below_done | exact I].
Qed.

Lemma assignment_ends (n : nat) (p : Parser) :
  4 * left_to_parse p ≤ n → ends_below (left_to_parse p) (assignment n p).
Proof.
  intros Hp. unfold assignment. cbv zeta. below_eat. below_eat.
  below_bind (proj1 (expression_ends n)).
  destruct (negb _); [exact I | below_done].
Qed.

Lemma read_stmt_ends (p : Parser) : ends_below (left_to_parse p) (read_stmt p).
Proof.
  unfold read_stmt. below_eat. below_eat. cbv zeta. below_eat. below_eat.
  destruct (negb _); [exact I | below_done].
Qed.

Lemma write_stmt_ends (n : nat) (p : Parser) :
  4 * left_to_parse p ≤ n → ends_below (left_to_parse p) (write_stmt n p).
Proof.
  intros Hp. unfold write_stmt. below_eat. below_eat.
  below_bind (proj1 (expression_ends n)). below_eat. below_done.
Qed.

Lemma statements_ends (n : nat) :
  (∀ stop p, 4 * left_to_parse p + 4 ≤ n →
             ends_below (S (left_to_parse p)) (statements n stop p))
  ∧ (∀ stop acc p, 4 * left_to_parse p + 3 ≤ n →
                   ends_below (S (left_to_parse p)) (statements_loop n stop acc p))
  ∧ (∀ p, 4 * left_to_parse p + 2 ≤ n → ends_below (left_to_parse p) (statement n p))
  ∧ (∀ p, 4 * left_to_parse p + 1 ≤ n → ends_below (left_to_parse p) (block n p))
  ∧ (∀ p, 4 * left_to_parse p + 1 ≤ n → ends_below (left_to_parse p) (if_stmt n p))
  ∧ (∀ p, 4 * left_to_parse p + 1 ≤ n → ends_below (left_to_parse p) (while_stmt n p)).
Proof.
  induction n as [|n (Hss & Hloop & Hs & Hb & Hi & Hw)];
    [repeat split; intros; lia |].
  assert (Hbody : ∀ p, 4 * left_to_parse p + 2 ≤ n →
             ends_below (left_to_parse p)
               (if peek BEGIN p then block n p
                else statement n p ≫= λ '(s, p), Ok ([s], p))).
  { intros p Hp. destruct (peek BEGIN p); [apply Hb; lia |]. below_bind Hs. below_done. }
  split; [|split; [|split; [|split; [|split]]]].
  - intros stop p Hp. cbn [statements]. apply Hloop. lia.
  - intros stop acc p Hp. cbn [statements_loop].
    destruct (negb _); [|below_done]. below_bind Hs. cbv zeta.
    destruct (peek SEMI _).
    + below_eat. destruct (type_in _ _); [below_done | below_call Hloop].
    + destruct (type_in _ _); [below_done | below_call Hloop].
  - intros p Hp. cbn [statement]. apply below_expect_in. intros _.
    destruct (peek ID p); [apply assignment_ends; lia |].
    destruct (peek IF p); [apply Hi; lia |].
    destruct (peek WHILE p); [apply Hw; lia |].
    destruct (peek READ p); [apply read_stmt_ends |].
    destruct (peek WRITE p); [apply write_stmt_ends; lia | exact I].
  - intros p Hp. cbn [block]. below_eat. below_bind Hss. below_eat. below_done.
  - intros p Hp. cbn [if_stmt]. below_eat.
    below_bind (proj1 (expression_ends n)). below_eat. below_bind Hbody.
    destruct (peek ELSE _); [|below_done]. below_eat. below_bind Hbody. below_done.
  - intros p Hp. cbn [while_stmt]. below_eat.
    below_bind (proj1 (expression_ends n)). below_eat. below_bind Hbody. below_done.
Qed.

Lemma type_ends (p : Parser) : ends_below (left_to_parse p) (type p).
Proof.
  unfold type. apply below_expect_in. intros _.
  destruct (peek INTEGER p); [below_eat; below_done |].
  destruct (peek REAL p); [below_eat; below_done |].
  destruct (peek BOOLEAN p); [below_eat; below_done | exact I].
Qed.

Lemma id_list_loop_ends (n : nat) :
  ∀ ids p, left_to_parse p < n →
           ends_below (S (left_to_parse p)) (id_list_loop n ids p).
Proof.
  induction n as [|n IH]; intros ids p Hp; [lia |]. cbn [id_list_loop].
  destruct (peek COMMA p); [|below_done]. below_eat. cbv zeta. below_eat.
  below_call IH.
Qed.

Lemma declaration_ends (n : nat) (p : Parser) :
  left_to_parse p ≤ n → ends_below (left_to_parse p) (declaration n p).
Proof.
  intros Hp. unfold declaration, id_list. cbv zeta.
  eapply (below_bind (left_to_parse p)).
  { below_eat. below_call id_list_loop_ends. }
  intros ids p1 H1. cbn beta iota. below_eat.
  eapply below_bind; [apply type_ends |]. intros node p3 H3. cbn beta iota.
  pose proof (declare_each_failure ids (type_name node) (symbol_table p3)) as Hd.
  destruct (declare_each _ _ _); [|done..]. step_bind. below_done.
Qed.

Lemma declaration_list_loop_ends (n : nat) :
  ∀ decls p, left_to_parse p < n →
             ends_below (S (left_to_parse p)) (declaration_list_loop n decls p).
Proof.
  induction n as [|n IH]; intros decls p Hp; [lia |]. cbn [declaration_list_loop].
  destruct (peek SEMI p); [|below_done]. below_eat.
  destruct (peek BEGIN _); [below_done |].
  below_bind declaration_ends. below_call IH.
Qed.

Lemma program_ends (n : nat) (p : Parser) :
  4 * left_to_parse p + 4 ≤ n → ends_below (left_to_parse p) (program n p).
Proof.
  intros Hp. unfold program. below_eat. cbv zeta. below_eat. below_eat.
  eapply (below_bind (S (left_to_parse p2))).
  { unfold declarations. destruct (peek VAR _); [|below_done]. below_eat.
    unfold declaration_list. below_bind declaration_ends.
    below_call declaration_list_loop_ends. }
  intros decls pd Hd. cbn beta iota. below_eat.
  below_bind (proj1 (statements_ends n)). below_eat. below_eat.
  destruct (negb _); [exact I | below_done].
Qed.

Lemma Parser_init_left (source : string) :
  match Parser_init (Lexer_init source) with
  | Ok p => left_to_parse p ≤ String.length source
  | Err _ => True
  | OutOfFuel => False
  end.
Proof.
  unfold Parser_init.
  pose proof (get_next_token_answers (Lexer_init source)) as Hans.
  destruct (get_next_token (Lexer_init source)) as [[token lx']| |] eqn:Hnext; [|done..].
  step_bind. unfold left_to_parse. cbn [lexer current_token].
  apply get_next_token_kind in Hnext as [Hk Hprog].
  change (remaining (Lexer_init source)) with (String.length source) in Hprog.
  case_bool_decide as Heof.
  - rewrite Heof in Hk. destruct Hk as [_ Hrest]. unfold remaining.
    rewrite Hrest. simpl. lia.
  - specialize (Hprog Heof). lia.
Qed.

Lemma parse_source_ends (n : nat) (source : string) :
  4 * String.length source + 4 ≤ n → parse_source n source ≠ OutOfFuel.
Proof.
  intros Hn. unfold parse_source. pose proof (Parser_init_left source) as Hinit.
  destruct (Parser_init (Lexer_init source)) as [p| |]; [|done..]. step_bind.
  unfold parse. pose proof (program_ends n p ltac:(lia)) as Hprog.
  by destruct (program n p) as [[? ?]| |].
Qed.

Lemma tokenize_ends (n : nat) :
  ∀ lx, remaining lx < n → tokenize n lx ≠ OutOfFuel.
Proof.
  induction n as [|n IH]; intros lx Hn; [lia |]. cbn [tokenize].
  pose proof (get_next_token_answers lx) as Hans.
  destruct (get_next_token lx) as [[token lx']| |] eqn:Hnext; [|done..].
  step_bind. apply get_next_token_kind in Hnext as [_ Hprog].
  destruct (bool_decide_reflect (tok_type token = EOF)) as [Heof | Hne]; [done |].
  specialize (IH lx' ltac:(specialize (Hprog Hne); lia)).
  by destruct (tokenize n lx').
Qed.

Lemma tokenize_mono (n : nat) :
  ∀ m lx, n ≤ m → settles (tokenize n lx) (tokenize m lx).
Proof.
  induction n as [|n IH]; intros m lx Hle; [apply settles_out |].
  destruct m as [|m]; [lia |].
  pose proof (λ lx, IH m lx ltac:(lia)) as IH'. clear IH.
  cbn [tokenize]. settle.
Qed.

(** X18. The pipeline ends on every source. With a budget of four times
    the length of the source, and four, no stage is left unfinished, and
    the outcome is the one every larger budget gives. *)
Theorem compile_ends (n : nat) (source : string) :
  4 * String.length source + 4 ≤ n →
  compile n source ≠ Unfinished
  ∧ ∀ k, n ≤ k → compile k source = compile n source.
Proof.
  intros Hn.
  pose proof (tokenize_ends n (Lexer_init source)
                ltac:(change (remaining (Lexer_init source)) with (String.length source);
                      lia)) as Htok.
  pose proof (parse_source_ends n source Hn) as Hparse.
  split.
  - unfold compile.
    destruct (tokenize n (Lexer_init source)) as [tokens| |]; [|done..].
    destruct (parse_source n source) as [ast| |] eqn:Hast; [|done..].
    pose proof (analyzer_fails_only_on_types_of n source ast Hast) as Hsem.
    destruct (analyze ast) as [table| |]; [|done..].
    destruct (generate_parsed n source ast TACGenerator_init Hast) as (tac & g' & ->).
    done.
  - intros k Hk. unfold compile.
    destruct (tokenize_mono n k (Lexer_init source) Hk) as [H | ->]; [done |].
    destruct (parse_source_mono n k source Hk) as [H | ->]; [done |].
    done.
Qed.

(** ** Associativity *)

Lemma rest_grouped_left (n : nat) :
  (∀ l p e p', simple_expr_rest n l p = Ok (e, p') →
               ∃ items, operands term add_ops p items p' ∧ e = grouped_left l items)
  ∧ (∀ l p e p', term_rest n l p = Ok (e, p') →
                 ∃ items, operands factor mul_ops p items p' ∧ e = grouped_left l items).
Proof.
  induction n as [|n [Hsr Htr]]; [by split |].
  split; intros l p e p'; cbn [simple_expr_rest term_rest].
  - destruct (type_in _ _) eqn:Hin;
      [|intros [= <- <-]; exists []; split; [by constructor | done]].
    cbv zeta. bind_eat E1. bind_ok E2. intros (items & Hitems & ->)%Hsr.
    eexists (_ :: items). split; [by econstructor | done].
  - destruct (type_in _ _) eqn:Hin;
      [|intros [= <- <-]; exists []; split; [by constructor | done]].
    cbv zeta. bind_eat E1. bind_ok E2. intros (items & Hitems & ->)%Htr.
    eexists (_ :: items). split; [by econstructor | done].
Qed.

(** X19. The additive operators [+], [-], [or] associate to the left, and
    so do the multiplicative operators [*], [/], [and]: the loop takes the
    operands one after the other, as many as operators of its level
    follow, and the tree it returns groups them from the left,
    [((l op1 r1) op2 r2) ...]. A relational operator does not repeat:
    after one comparison the expression is complete. *)
Theorem operators_associate_left (n : nat) (l : expr) (p : Parser) (e : expr)
    (p' : Parser) :
  (simple_expr_rest n l p = Ok (e, p') →
   ∃ items, operands term add_ops p items p' ∧ e = grouped_left l items)
  ∧ (term_rest n l p = Ok (e, p') →
     ∃ items, operands factor mul_ops p items p' ∧ e = grouped_left l items)
  ∧ (expression_rest n l p = Ok (e, p') →
     e = l ∧ p' = p
     ∨ ∃ r p1, e = BinOpNode l (current_token p) r
               ∧ tok_type (current_token p) ∈ rel_ops
               ∧ eat (tok_type (current_token p)) p = Ok p1
               ∧ simple_expr (pred n) p1 = Ok (r, p')).
Proof.
  split; [apply rest_grouped_left | split; [apply rest_grouped_left |]].
  destruct n as [|n]; [done |]. cbn [expression_rest pred].
  destruct (type_in _ _) eqn:Hin; [|intros [= <- <-]; by left].
  cbv zeta. bind_eat E1. bind_ok E2. intros [= <- <-]. right.
  eexists _, _. repeat split; [|done..]. by apply bool_decide_eq_true_1 in Hin.
Qed.

(** ** The position in a token *)

Lemma get_next_token_position (lx : Lexer) (token : Token) (lx' : Lexer) :
  get_next_token lx = Ok (token, lx') →
  tok_line token = lx_line lx' ∧ tok_column token = lx_column lx'.
Proof.
  unfold get_next_token. generalize (S (remaining lx)) as n.
  intros n. revert lx.
  induction n as [|n IH]; intros lx; [done |].
  cbn [get_next_token_loop].
  destruct (current_char lx) as [c|] eqn:Hc; [|by intros [= <- <-]].
  destruct (isspace c); [by apply IH |].
  destruct (char_is lx "{"); [by apply IH |].
  destruct (isalpha c || is_underscore c).
  { unfold identifier. destruct (advance_while _ _ _ lx) as [r lx1].
    by intros [= <- <-]. }
  destruct (isdigit c).
  { unfold number. destruct (advance_while isdigit _ _ lx) as [r1 lx1].
    assert (Hint : (py_int r1 ≫= λ n, Ok (mkToken NUMBER (VInt n) (lx_line lx1)
                                              (lx_column lx1), lx1))
                   = Ok (token, lx') →
                   tok_line token = lx_line lx' ∧ tok_column token = lx_column lx').
    { destruct (py_int r1); [|done..]. by intros [= <- <-]. }
    destruct (current_char lx1) as [d|]; [|exact Hint].
    destruct (is_dot d); [|exact Hint].
    destruct (advance_while isdigit _ _ (advance lx1)) as [r3 lx3].
    destruct (py_float r3); [|done..]. by intros [= <- <-]. }
  unfold tok_here.
  repeat match goal with
         | |- context [char_is ?l ?s] => destruct (char_is l s)
         | |- (let _ := _ in _) = _ → _ => cbv zeta
         end;
    try (by intros [= <- <-]).
  destruct (dict_find token_types (String c "")); [|done]. by intros [= <- <-].
Qed.

(** X20. The position a token records is the scanner's position when the
    token is complete: its line and column are those of the character
    after the token, not of the token's first character. *)
Theorem token_position (source : string) (lx : Lexer) (token : Token) (lx' : Lexer) :
  placed_in source lx →
  get_next_token lx = Ok (token, lx') →
  tok_line token = lx_line lx' ∧ tok_column token = lx_column lx'
  ∧ ∃ before,
      source = before +:+ lx_rest lx'
      ∧ tok_line token = fst (position_after before 1 1)
      ∧ (lx_rest lx' ≠ EmptyString → tok_column token = snd (position_after before 1 1)).
Proof.
  intros Hlx Hnext.
  pose proof (get_next_token_loop_placed source (S (remaining lx)) lx Hlx) as Hstep.
  fold (get_next_token lx) in Hstep. rewrite Hnext in Hstep.
  destruct (get_next_token_position _ _ _ Hnext) as [Hline Hcol].
  split; [done |]. split; [done |].
  destruct Hstep as (before & Hsrc & Hl & Hc). exists before.
  rewrite Hline, Hcol. by repeat split.
Qed.

(** ** The types of expressions *)

(** X21. Over a table whose types are [integer], [real] and [boolean], the
    type the analyzer gives an expression is one of the three; a
    comparison, a logical operation and a truth value have type
    [boolean], and an arithmetic operation has the type [integer] or
    [real]. *)
Theorem expression_types (e : expr) (symbol_table : gmap string string) (ty : string) :
  (∀ x t, symbol_table !! x = Some t → t ∈ type_names) →
  analyze_expr e symbol_table = Ok ty →
  ty ∈ type_names
  ∧ match e with
    | BinOpNode _ op _ =>
        if value_in (tok_value op) arithmetic_ops then ty ∈ numeric_types
        else ty = "boolean"
    | UnaryOpNode _ _ | BooleanNode _ => ty = "boolean"
    | NumNode _ => ty ∈ numeric_types
    | VarNode x => symbol_table !! x = Some ty
    end.
Proof.
  intros Htable. destruct e as [l op r | op e | x | v | b]; cbn [analyze_expr].
  - destruct (analyze_expr l symbol_table) as [lt| |]; [|done..]. step_bind.
    destruct (analyze_expr r symbol_table) as [rt| |]; [|done..]. step_bind.
    unfold check_binary_operation, incompatible_types_error.
    destruct (value_in (tok_value op) arithmetic_ops).
    { destruct (_ && _); [|done]. destruct (in_list "real" _); intros [= <-];
        split; compute_done. }
    repeat match goal with
           | |- (if ?b then _ else _) = _ → _ => destruct b
           end; try done; intros [= <-]; (split; [compute_done | done]).
  - destruct (analyze_expr e symbol_table) as [et| |]; [|done..]. step_bind.
    unfold check_unary_operation. destruct (_ && _); [|done].
    intros [= <-]. split; [compute_done | done].
  - unfold analyze_var. destruct (symbol_table !! x) as [t|] eqn:Hx; [|done].
    intros [= <-]. split; [by eapply Htable | done].
  - intros [= <-]. unfold analyze_num. destruct v; split; compute_done.
  - intros [= <-]. split; [compute_done | done].
Qed.

(** ** A reference to an identifier that is not declared *)


































End MiniLang.

(** * Runs on concrete inputs

    The examples below run the development with a float kept as the
    decimal numeral that denotes it. *)

Definition numeral_float : Type := string.
Definition numeral_float_of (text : string) : numeral_float := text.
Definition numeral_float_str (f : numeral_float) : string := f.

Definition tok (ty : TokenType) (text : string) : Token numeral_float :=
  mkToken numeral_float ty (VStr numeral_float text) 1 1.

(** [x > 5] *)
Definition x_gt_5 : expr numeral_float :=
  BinOpNode numeral_float (VarNode numeral_float "x") (tok GT ">")
    (NumNode numeral_float (VInt numeral_float 5)).

(** [write(x)] *)
Definition write_x : stmt numeral_float := WriteNode numeral_float (VarNode numeral_float "x").

(** [if x > 5 then write(x)] *)
Definition if_x_gt_5 : stmt numeral_float := IfNode numeral_float x_gt_5 [write_x] [].

(** C1, as the claim has it, fails: lowering [if x > 5 then write(x)] with
    a new generator leaves the label counter at two, not at one. *)
Lemma if_without_else_label_counter_counterexample :
  ∃ g', generate_stmt numeral_float numeral_float_str if_x_gt_5 TACGenerator_init = Ok g'
        ∧ code g' = ["t0 := 5"; "t1 := x GT t0"; "IF_FALSE t1 GOTO L0"; "WRITE x"; "LABEL L0"]
        ∧ label_count g' = 2
        ∧ label_count g' ≠ label_count TACGenerator_init + 1.
Proof.
  eexists. split; [vm_compute; reflexivity |]. repeat split. simpl. lia.
Qed.

Lemma if_without_else_lowering_witness :
  ∃ g', generate_stmt numeral_float numeral_float_str if_x_gt_5 TACGenerator_init = Ok g'
        ∧ label_count g' = 0 + 2 + 0.
Proof.
  eexists. split; [vm_compute; reflexivity |].
  apply (proj2 (if_without_else_lowering numeral_float numeral_float_str
                  x_gt_5 [write_x] TACGenerator_init)).
  vm_compute. reflexivity.
Defined.

Lemma while_lowering_witness :
  generate_stmt numeral_float numeral_float_str
    (WhileNode numeral_float x_gt_5 [write_x]) TACGenerator_init
  = Ok {| temp_count := 2; label_count := 2;
          code := ["LABEL L0"; "t0 := 5"; "t1 := x GT t0"; "IF_FALSE t1 GOTO L1";
                   "WRITE x"; "GOTO L0"; "LABEL L1"] |}.
Proof.
  rewrite (while_lowering numeral_float numeral_float_str x_gt_5 [write_x] TACGenerator_init).
  vm_compute. reflexivity.
Defined.

Lemma boolean_literal_lowering_witness :
  generate_expr numeral_float numeral_float_str (BooleanNode numeral_float true)
    (mkTACGenerator 3 0 [])
  = Ok ("t3", mkTACGenerator 4 0 ["t3 := 1"])
  ∧ "t1" ≠ "t3".
Proof.
  destruct (boolean_literal_lowering numeral_float numeral_float_str true
              (mkTACGenerator 3 0 [])) as [H1 H2].
  split; [exact H1 |]. apply (H2 1). simpl. lia.
Defined.

Lemma numeral_literal_types_witness :
  (∃ tok lx',
      get_next_token numeral_float numeral_float_of (mkLexer "123 x" 1 1) = Ok (tok, lx')
      ∧ tok_type numeral_float tok = NUMBER
      ∧ tok_value numeral_float tok = VInt numeral_float 123
      ∧ lx_rest lx' = " x"
      ∧ analyze_expr numeral_float numeral_float_str
          (NumNode numeral_float (tok_value numeral_float tok)) ∅ = Ok "integer")
  ∧ (∃ tok lx',
        get_next_token numeral_float numeral_float_of (mkLexer "45.67 x" 1 1) = Ok (tok, lx')
        ∧ tok_type numeral_float tok = NUMBER
        ∧ tok_value numeral_float tok = VFloat numeral_float "45.67"
        ∧ lx_rest lx' = " x"
        ∧ analyze_expr numeral_float numeral_float_str
            (NumNode numeral_float (tok_value numeral_float tok)) ∅ = Ok "real").
Proof.
  split.
  - apply (proj1 (numeral_literal_types numeral_float numeral_float_of numeral_float_str
                    "123" "" " x" 1 1 ∅ ltac:(discriminate) eq_refl)).
    + reflexivity.
    + vm_compute. lia.
  - apply (proj1 (proj2 (numeral_literal_types numeral_float numeral_float_of
                           numeral_float_str
                           "45" "67" " x" 1 1 ∅ ltac:(discriminate) eq_refl))).
    + discriminate.
    + reflexivity.
    + reflexivity.
Defined.

(** A numeral of 4301 digits. *)
Definition long_numeral : string := string_of_list_ascii (repeat "7"%char 4301).

(** C8, counterexample: a run of 4301 decimal digits, which no dot
    follows, is not scanned as a NUMBER token holding an integer. [int()]
    refuses a text of more than 4300 digits, so that the scanner, and with
    it [Compiler().compile], ends with that [ValueError]. *)
Lemma numeral_literal_types_counterexample :
  long_numeral ≠ ""
  ∧ string_forallb isdecimal long_numeral = true
  ∧ String.length long_numeral = 4301
  ∧ get_next_token numeral_float numeral_float_of (mkLexer long_numeral 1 1)
    = Err ("Exceeds the limit (4300 digits) for integer string conversion: "
           +:+ "value has 4301 digits; use sys.set_int_max_str_digits() to increase the limit")
  ∧ compile numeral_float numeral_float_of numeral_float_str 1 long_numeral
    = Failed LexicalAnalysis
        ("Exceeds the limit (4300 digits) for integer string conversion: "
         +:+ "value has 4301 digits; use sys.set_int_max_str_digits() to increase the limit").
Proof.
  repeat split; [done | vm_compute; reflexivity..].
Qed.

Lemma trailing_dot_absorbed_witness :
  get_next_token numeral_float numeral_float_of (mkLexer "5." 1 1)
  = Ok (mkToken numeral_float NUMBER (VFloat numeral_float "5.") 1 3, mkLexer "" 1 3).
Proof.
  apply (trailing_dot_absorbed numeral_float numeral_float_of "5" "" 1 1).
  - discriminate.
  - reflexivity.
  - reflexivity.
Defined.

(** The scanner on [x := 5.]: the numeral takes the dot, and the end of
    the input follows it. *)
Example numeral_before_final_dot :
  tokenize numeral_float numeral_float_of 8 (Lexer_init "x := 5.")
  = Ok [mkToken numeral_float ID (VStr numeral_float "x") 1 2;
        mkToken numeral_float ASSIGN (VStr numeral_float ":=") 1 5;
        mkToken numeral_float NUMBER (VFloat numeral_float "5.") 1 8;
        mkToken numeral_float EOF (VNone numeral_float) 1 8].
Proof. vm_compute. reflexivity. Qed.

Lemma arithmetic_result_type_witness :
  check_binary_operation numeral_float numeral_float_str "integer"
    (VStr numeral_float "+") "real" = Ok "real"
  ∧ check_binary_operation numeral_float numeral_float_str "integer"
      (VStr numeral_float "*") "integer" = Ok "integer"
  ∧ check_binary_operation numeral_float numeral_float_str "boolean"
      (VStr numeral_float "-") "integer"
    = Err "Type error: Incompatible types boolean and integer for operator -".
Proof.
  split; [|split].
  - apply (proj1 (arithmetic_result_type numeral_float numeral_float_str
                    "+" "integer" "real" ltac:(compute_done))); compute_done.
  - apply (proj1 (arithmetic_result_type numeral_float numeral_float_str
                    "*" "integer" "integer" ltac:(compute_done))); compute_done.
  - apply (proj1 (proj2 (arithmetic_result_type numeral_float
                           numeral_float_str "-" "boolean" "integer"
                           ltac:(compute_done)))).
    compute_done.
Defined.

Definition x_is_integer : gmap string string := {["x" := "integer"]}.
Definition r_is_real : gmap string string := {["r" := "real"]}.

Lemma assignment_type_rule_witness :
  analyze_stmt numeral_float numeral_float_str
    (AssignmentNode numeral_float "x" (BooleanNode numeral_float true)) x_is_integer
  = Err "Type error: Cannot assign boolean to integer variable 'x'"
  ∧ analyze_stmt numeral_float numeral_float_str
      (AssignmentNode numeral_float "r" (NumNode numeral_float (VInt numeral_float 1)))
      r_is_real
    = Ok tt.
Proof.
  split.
  - destruct (assignment_type_rule numeral_float numeral_float_of numeral_float_str
                "x" (BooleanNode numeral_float true) x_is_integer "integer" "boolean")
      as (Hfails & _); [vm_compute; reflexivity | reflexivity |].
    apply Hfails; [discriminate | compute_done].
  - destruct (assignment_type_rule numeral_float numeral_float_of numeral_float_str
                "r" (NumNode numeral_float (VInt numeral_float 1)) r_is_real
                "real" "integer")
      as (_ & Hpasses & _); [vm_compute; reflexivity | reflexivity |].
    apply Hpasses; compute_done.
Defined.

(** The parser in front of [x, x: integer; begin end.], nothing declared yet. *)
Definition at_x_x : Parser numeral_float :=
  {| lexer := mkLexer ", x: integer; begin end." 1 2;
     current_token := tok ID "x";
     symbol_table := {| symbols := ∅; st_current_token := tok ID "x" |} |}.

Lemma duplicate_declaration_witness :
  (∃ y, y ∈ ["x"; "x"]
        ∧ (is_declared numeral_float y (symbol_table numeral_float at_x_x) = true
           ∨ listed_twice y ["x"; "x"])
        ∧ declaration numeral_float numeral_float_of numeral_float_str 3 at_x_x
          = Err (already_declared_msg numeral_float y (symbol_table numeral_float at_x_x)))
  ∧ (∃ table : gmap string string,
        table !! "x" = Some "real"
        ∧ analyze numeral_float numeral_float_str
            (mkProgramNode numeral_float "p"
               ([mkDeclarationNode ["x"] (mkTypeNode "integer")]
                ++ mkDeclarationNode ["x"] (mkTypeNode "real") :: [])
               [])
          = Ok table).
Proof.
  pose proof (duplicate_declaration numeral_float numeral_float_of numeral_float_str)
    as (Hparser & _ & _ & _ & Hanalyzer).
  split.
  - eapply (Hparser 3 at_x_x ["x"; "x"]).
    + vm_compute. reflexivity.
    + vm_compute. reflexivity.
    + vm_compute. reflexivity.
    + left. intros Hnd. apply NoDup_cons in Hnd as [Hnin _]. apply Hnin. compute_done.
  - destruct (Hanalyzer "p" [mkDeclarationNode ["x"] (mkTypeNode "integer")] []
                (mkDeclarationNode ["x"] (mkTypeNode "real")) [] "x")
      as (table & Hx & _ & Hok).
    + compute_done.
    + constructor.
    + by exists table.
Defined.



Definition scenario_a : string := "program example;
var
  x, y: integer;
  max: integer;
begin
  read(x);
  read(y);
  if x > y then
    max := x
  else
    max := y;
  write(max);
end.".

Definition scenario_a_tac : list string :=
  ["PROGRAM example"; "READ x"; "READ y"; "t0 := x GT y"; "IF_FALSE t0 GOTO L0";
   "max := x"; "GOTO L1"; "LABEL L0"; "max := y"; "LABEL L1"; "WRITE max"; "END"].

(** A store with no object. *)
Definition no_objects : store :=
  {| generator_objects := ∅; list_objects := ∅; next_object := 0 |}.

(** [begin if x > 5 then write(x) end], as the program [p]. *)
Definition program_if_x_gt_5 : ProgramNode numeral_float :=
  mkProgramNode numeral_float "p" [] [if_x_gt_5].

Lemma generation_deterministic_witness :
  ∃ g1 s1 r1 s2 g2 s3 r2 s4,
    TACGenerator_new no_objects = (g1, s1)
    ∧ generate_method numeral_float numeral_float_str g1 program_if_x_gt_5 s1
      = Some (Ok (r1, s2))
    ∧ TACGenerator_new s2 = (g2, s3)
    ∧ generate_method numeral_float numeral_float_str g2 program_if_x_gt_5 s3
      = Some (Ok (r2, s4))
    ∧ ∃ tac g',
        generate numeral_float numeral_float_str program_if_x_gt_5 TACGenerator_init
        = Ok (tac, g')
        ∧ r1 ≠ r2
        ∧ list_objects s2 !! r1 = Some tac
        ∧ list_objects s4 !! r1 = Some tac
        ∧ list_objects s4 !! r2 = Some tac.
Proof.
  eexists _, _, _, _, _, _, _, _.
  split; [reflexivity |]. split; [vm_compute; reflexivity |].
  split; [reflexivity |]. split; [vm_compute; reflexivity |].
  eapply (proj1 (generation_deterministic numeral_float numeral_float_of numeral_float_str)
            program_if_x_gt_5 no_objects).
  - reflexivity.
  - vm_compute. reflexivity.
  - reflexivity.
  - vm_compute. reflexivity.
Defined.

(** The pipeline on the example of [compiler.py]. *)
Example scenario_a_compiles :
  compile numeral_float numeral_float_of numeral_float_str 140 scenario_a
  = Compiled scenario_a_tac.
Proof. vm_compute. reflexivity. Qed.

(** A generator that has been used is not as constructed: lowering the same
    statement again continues the numbering. *)
Example used_generator_continues :
  (g ← generate_stmt numeral_float numeral_float_str if_x_gt_5 TACGenerator_init;
   generate_stmt numeral_float numeral_float_str if_x_gt_5 (fresh_from g))
  = Ok {| temp_count := 4; label_count := 4;
          code := ["t2 := 5"; "t3 := x GT t2"; "IF_FALSE t3 GOTO L2"; "WRITE x";
                   "LABEL L2"] |}.
Proof. vm_compute. reflexivity. Qed.

(** ** The scanner *)

Lemma blanks_skipped_witness :
  get_next_token numeral_float numeral_float_of (mkLexer ("  " +:+ "x") 1 1)
  = get_next_token numeral_float numeral_float_of (mkLexer "x" 1 3).
Proof.
  apply (blanks_skipped numeral_float numeral_float_of "  " "x" 1 1).
  - discriminate.
  - reflexivity.
  - reflexivity.
Defined.

Lemma comment_runs_to_end_of_line_witness :
  get_next_token numeral_float numeral_float_of
    (mkLexer ("{" +:+ " note }" +:+ nl +:+ "x") 1 1)
  = get_next_token numeral_float numeral_float_of (mkLexer "x" 2 1)
  ∧ get_next_token numeral_float numeral_float_of (mkLexer ("{" +:+ " note }") 1 1)
    = Ok (mkToken numeral_float EOF (VNone numeral_float) 1 10, mkLexer "" 1 10).
Proof.
  apply (comment_runs_to_end_of_line numeral_float numeral_float_of " note }" "x" 1 1).
  reflexivity.
Defined.

Lemma word_scanned_witness :
  get_next_token numeral_float numeral_float_of (mkLexer "Begin x" 1 1)
  = Ok (mkToken numeral_float BEGIN (VStr numeral_float "Begin") 1 6, mkLexer " x" 1 6).
Proof.
  apply (proj1 (word_scanned numeral_float numeral_float_of "B" "egin" " x" 1 1
                  eq_refl eq_refl eq_refl)).
Defined.

Lemma token_kinds_and_progress_witness :
  ∃ token lx',
    get_next_token numeral_float numeral_float_of (mkLexer "x := 5" 1 1) = Ok (token, lx')
    ∧ token_value_ok numeral_float token
    ∧ (tok_type numeral_float token = EOF → lx_rest lx' = EmptyString)
    ∧ (tok_type numeral_float token ≠ EOF → remaining lx' < remaining (mkLexer "x := 5" 1 1)).
Proof.
  eexists _, _. split; [vm_compute; reflexivity |].
  apply (token_kinds_and_progress numeral_float numeral_float_of (mkLexer "x := 5" 1 1)).
  vm_compute. reflexivity.
Defined.

Lemma lexical_error_position_witness :
  ∃ m,
    tokenize numeral_float numeral_float_of 8 (Lexer_init "x ? y") = Err m
    ∧ (conversion_error m
       ∨ ∃ before c rest,
           "x ? y" = before +:+ String c rest
           ∧ m = unexpected_character_msg (fst (position_after before 1 1))
                   (snd (position_after before 1 1)) c).
Proof.
  eexists. split; [vm_compute; reflexivity |].
  apply (lexical_error_position numeral_float numeral_float_of "x ? y" 8).
  vm_compute. reflexivity.
Defined.

Lemma token_listing_shape_witness :
  match tokenize numeral_float numeral_float_of 8 (Lexer_init "x := 5.") with
  | Ok tokens =>
      ∃ front eof,
        tokens = front ++ [eof]
        ∧ tok_type numeral_float eof = EOF
        ∧ Forall (fun token => tok_type numeral_float token ≠ EOF) front
        ∧ length front ≤ remaining (Lexer_init "x := 5.")
  | Err _ => True
  | OutOfFuel => False
  end.
Proof.
  apply (token_listing_shape numeral_float numeral_float_of 8 (Lexer_init "x := 5.")).
  vm_compute. lia.
Defined.

Lemma token_position_witness :
  ∃ token lx',
    get_next_token numeral_float numeral_float_of (Lexer_init "x := 5") = Ok (token, lx')
    ∧ tok_line numeral_float token = lx_line lx'
    ∧ tok_column numeral_float token = lx_column lx'
    ∧ ∃ before,
        "x := 5" = before +:+ lx_rest lx'
        ∧ tok_line numeral_float token = fst (position_after before 1 1)
        ∧ (lx_rest lx' ≠ EmptyString →
           tok_column numeral_float token = snd (position_after before 1 1)).
Proof.
  eexists _, _. split; [vm_compute; reflexivity |].
  apply (token_position numeral_float numeral_float_of "x := 5" (Lexer_init "x := 5")).
  - exists EmptyString. repeat split.
  - vm_compute. reflexivity.
Defined.

(** ** The parser *)

Lemma parsed_declarations_distinct_witness :
  ∃ ast,
    parse_source numeral_float numeral_float_of numeral_float_str 25 scenario_a = Ok ast
    ∧ NoDup (declared_identifiers (prog_declarations numeral_float ast))
    ∧ Forall (fun d => type_name (type_node d) ∈ type_names)
        (prog_declarations numeral_float ast).
Proof.
  eexists. split; [vm_compute; reflexivity |].
  apply (parsed_declarations_distinct numeral_float numeral_float_of numeral_float_str
           25 scenario_a).
  vm_compute. reflexivity.
Defined.

Lemma parsed_statements_declared_witness :
  ∃ ast,
    parse_source numeral_float numeral_float_of numeral_float_str 25 scenario_a = Ok ast
    ∧ parsed_stmts numeral_float
        (fun x => x ∈ declared_identifiers (prog_declarations numeral_float ast))
        (prog_statements numeral_float ast).
Proof.
  eexists. split; [vm_compute; reflexivity |].
  apply (parsed_statements_declared numeral_float numeral_float_of numeral_float_str
           25 scenario_a).
  vm_compute. reflexivity.
Defined.

(** The parser in front of [- 2 - 3;], after the numeral [1]. *)
Definition at_minus : Parser numeral_float :=
  {| lexer := mkLexer " 2 - 3;" 1 4;
     current_token := tok MINUS "-";
     symbol_table := {| symbols := ∅; st_current_token := tok PROGRAM "program" |} |}.

Lemma operators_associate_left_witness :
  ∃ p' items,
    simple_expr_rest numeral_float numeral_float_of numeral_float_str 8
      (NumNode numeral_float (VInt numeral_float 1)) at_minus
    = Ok (BinOpNode numeral_float
            (BinOpNode numeral_float (NumNode numeral_float (VInt numeral_float 1))
               (tok MINUS "-") (NumNode numeral_float (VInt numeral_float 2)))
            (mkToken numeral_float MINUS (VStr numeral_float "-") 1 8)
            (NumNode numeral_float (VInt numeral_float 3)), p')
    ∧ operands numeral_float numeral_float_of numeral_float_str
        (term numeral_float numeral_float_of numeral_float_str) add_ops at_minus items p'
    ∧ BinOpNode numeral_float
        (BinOpNode numeral_float (NumNode numeral_float (VInt numeral_float 1))
           (tok MINUS "-") (NumNode numeral_float (VInt numeral_float 2)))
        (mkToken numeral_float MINUS (VStr numeral_float "-") 1 8)
        (NumNode numeral_float (VInt numeral_float 3))
      = grouped_left numeral_float (NumNode numeral_float (VInt numeral_float 1)) items.
Proof.
  assert (Hrun : ∃ p',
             simple_expr_rest numeral_float numeral_float_of numeral_float_str 8
               (NumNode numeral_float (VInt numeral_float 1)) at_minus
             = Ok (BinOpNode numeral_float
                     (BinOpNode numeral_float (NumNode numeral_float (VInt numeral_float 1))
                        (tok MINUS "-") (NumNode numeral_float (VInt numeral_float 2)))
                     (mkToken numeral_float MINUS (VStr numeral_float "-") 1 8)
                     (NumNode numeral_float (VInt numeral_float 3)), p')).
  { eexists. vm_compute. reflexivity. }
  destruct Hrun as [p' Hrun]. exists p'.
  destruct (proj1 (operators_associate_left numeral_float numeral_float_of
                     numeral_float_str 8 (NumNode numeral_float (VInt numeral_float 1))
                     at_minus _ p') Hrun) as (items & Hitems & Hgrouped).
  exists items. by repeat split.
Defined.

(** ** The analyzer *)

Lemma analyzer_never_undeclared_witness :
  ∃ ast,
    parse_source numeral_float numeral_float_of numeral_float_str 25 scenario_a = Ok ast
    ∧ analyze numeral_float numeral_float_str ast ≠ sem_not_declared "max".
Proof.
  eexists. split; [vm_compute; reflexivity |].
  apply (analyzer_never_undeclared numeral_float numeral_float_of numeral_float_str
           25 scenario_a).
  vm_compute. reflexivity.
Defined.

Lemma analyzer_table_of_parsed_witness :
  ∃ ast table,
    parse_source numeral_float numeral_float_of numeral_float_str 25 scenario_a = Ok ast
    ∧ analyze numeral_float numeral_float_str ast = Ok table
    ∧ (table !! "max" = Some "integer"
       ↔ ∃ d, d ∈ prog_declarations numeral_float ast
              ∧ "max" ∈ identifiers d ∧ "integer" = type_name (type_node d)).
Proof.
  eexists _, _. split; [vm_compute; reflexivity |]. split; [vm_compute; reflexivity |].
  eapply (proj1 (analyzer_table_of_parsed numeral_float numeral_float_of numeral_float_str
                   25 scenario_a _ _ _ _ "max" "integer")).
  Unshelve.
  - vm_compute. reflexivity.
  - vm_compute. reflexivity.
Defined.

Lemma operator_text_case_witness :
  (∃ m, analyze_expr numeral_float numeral_float_str
          (BinOpNode numeral_float (BooleanNode numeral_float true) (tok AND "AND")
             (BooleanNode numeral_float false)) ∅ = Err m)
  ∧ (∃ m, analyze_expr numeral_float numeral_float_str
            (UnaryOpNode numeral_float (tok AND "AND") (BooleanNode numeral_float false)) ∅
          = Err m)
  ∧ op_name numeral_float (tok_value numeral_float (tok AND "AND")) = Ok "AND".
Proof.
  apply (operator_text_case numeral_float numeral_float_str "AND" (tok AND "AND")
           (BooleanNode numeral_float true) (BooleanNode numeral_float false) ∅).
  - reflexivity.
  - intros H. vm_compute in H. discriminate H.
Defined.

Lemma expression_types_witness :
  "boolean" ∈ type_names
  ∧ (if value_in numeral_float (tok_value numeral_float (tok GT ">")) arithmetic_ops
     then "boolean" ∈ numeric_types else "boolean" = "boolean").
Proof.
  apply (expression_types numeral_float numeral_float_str x_gt_5 x_is_integer "boolean").
  - intros x t H. unfold x_is_integer in H.
    apply lookup_singleton_Some in H as [_ <-]. compute_done.
  - vm_compute. reflexivity.
Defined.

(** ** The generator *)

Lemma generation_never_lacks_upper_witness :
  ∃ ast,
    parse_source numeral_float numeral_float_of numeral_float_str 25 scenario_a = Ok ast
    ∧ generate numeral_float numeral_float_str ast TACGenerator_init
      ≠ Err "'int' object has no attribute 'upper'"
    ∧ compile numeral_float numeral_float_of numeral_float_str 25 scenario_a
      ≠ Failed CodeGeneration "'int' object has no attribute 'upper'".
Proof.
  eexists. split; [vm_compute; reflexivity |].
  apply (generation_never_lacks_upper numeral_float numeral_float_of numeral_float_str
           25 scenario_a).
  - vm_compute. reflexivity.
  - by left.
Defined.

Lemma expression_temporaries_witness :
  ∃ t g',
    generate_expr numeral_float numeral_float_str x_gt_5 (mkTACGenerator 3 0 []) = Ok (t, g')
    ∧ ∃ new,
        code g' = [] ++ new
        ∧ temp_count g' = 3 + length new
        ∧ label_count g' = 0
        ∧ (∀ i instr, new !! i = Some instr → defines_temp (3 + i) instr)
        ∧ t = "t" +:+ str_of_nat (temp_count g' - 1) ∧ new ≠ [].
Proof.
  eexists _, _. split; [vm_compute; reflexivity |].
  apply (expression_temporaries numeral_float numeral_float_str x_gt_5
           (mkTACGenerator 3 0 [])).
  vm_compute. reflexivity.
Defined.

Lemma labels_defined_once_witness :
  ∃ tac g',
    generate numeral_float numeral_float_str
      (mkProgramNode numeral_float "p" [] [if_x_gt_5; if_x_gt_5]) TACGenerator_init
    = Ok (tac, g')
    ∧ ∃ new,
        tac = [] ++ new
        ∧ ∀ k, occurrences (label_definition k) new ≤ 1
               ∧ (0 < occurrences (label_definition k) new → 0 ≤ k < label_count g').
Proof.
  eexists _, _. split; [vm_compute; reflexivity |].
  apply (labels_defined_once numeral_float numeral_float_str
           (mkProgramNode numeral_float "p" [] [if_x_gt_5; if_x_gt_5]) TACGenerator_init).
  vm_compute. reflexivity.
Defined.

(** ** The pipeline *)

Lemma failure_stages_witness :
  ∃ m,
    compile numeral_float numeral_float_of numeral_float_str 100
      "program p; begin x := 1 end." = Failed SyntaxAnalysis m
    ∧ ¬ scanner_failure m
    ∧ ∀ e, m = "Parsing failed: " +:+ e → ¬ scanner_failure e.
Proof.
  eexists. split; [vm_compute; reflexivity |].
  apply (failure_stages numeral_float numeral_float_of numeral_float_str 100
           "program p; begin x := 1 end." SyntaxAnalysis).
  - vm_compute. reflexivity.
  - discriminate.
Defined.

Lemma compile_ends_witness :
  compile numeral_float numeral_float_of numeral_float_str 88 "program p; begin end."
  ≠ Unfinished
  ∧ ∀ k, 88 ≤ k →
         compile numeral_float numeral_float_of numeral_float_str k "program p; begin end."
         = compile numeral_float numeral_float_of numeral_float_str 88
             "program p; begin end.".
Proof.
  apply (compile_ends numeral_float numeral_float_of numeral_float_str 88
           "program p; begin end.").
  simpl. lia.
Defined.
